(** * PyImpact: impact-sound synthesis

    A shallow embedding of [Python/tdw/py_impact.py]: the resonant-mode
    model ([Modes]), the per-pair memory ([CollisionInfo]), the synthesizer
    ([PyImpact]) and the encoded output ([Base64Sound]).

    Conventions of the embedding.
    - Python floats and numpy float64 values are idealised as exact
      rationals ([Q]): the statements are about the exact arithmetic that
      the floating-point code approximates.  Division is total ([x / 0] is
      [0] here, where numpy yields inf or nan with a warning and no
      exception), so which result a call returns (a sound, no sound, an
      exception) is the same as in the source.
    - The transcendental library functions ([math.sqrt], [np.cos], [np.sin],
      [np.arccos], [np.log10], [10 ** x]) and [math.pi] are the fields of a
      [MathLib]; every definition of the synthesizer takes one, and every
      theorem holds for all of them.
    - [np.random.normal] reads a tape of standard-normal draws that is
      threaded through the state; [normal loc scale] is [loc + scale * z].
      A loop that asks for a draw on an empty tape ends in [OutOfDraws].
    - Exceptions are results ([Raise]); the state reached when the exception
      is raised is kept, as a Python caller would observe it. *)

From Stdlib Require Import QArith Qround Qabs Qminmax ZArith List String Ascii Lqa.
From stdpp Require Import base option list gmap strings.

Local Open Scope Q_scope.

(** ** Numeric helpers *)

Definition Qltb (x y : Q) : bool := negb (Qle_bool y x).


(** The library functions the synthesizer calls. *)
Record MathLib := {
  math_pi : Q;
  math_sqrt : Q -> Q;
  np_cos : Q -> Q;
  np_sin : Q -> Q;
  np_arccos : Q -> Q;
  np_log10 : Q -> Q;
  pow10 : Q -> Q (* 10 ** x *)
}.

(** ** Exceptions and results *)

Inductive exn :=
| KeyError | IndexError | TypeError | ValueError
| UnboundLocalError | AssertionError | ZeroDivisionError
| FileNotFoundError.

Inductive result (A : Type) :=
| Ok (a : A)
| Raise (e : exn)
| OutOfDraws.
Arguments Ok {A} a.
Arguments Raise {A} e.
Arguments OutOfDraws {A}.

#[global] Instance result_ret : MRet result := fun A a => Ok a.
#[global] Instance result_bind : MBind result := fun A B f r =>
  match r with
  | Ok a => f a
  | Raise e => Raise e
  | OutOfDraws => OutOfDraws
  end.

(** [x is None] *)
Definition is_None {A} (o : option A) : bool :=
  match o with
  | None => true
  | Some _ => false
  end.

(** [seq[i]] of a Python list or numpy array. *)
Definition index {A} (l : list A) (i : nat) : result A :=
  match l !! i with
  | Some x => Ok x
  | None => Raise IndexError
  end.

(** ** numpy array operations *)

(** [np.arange(0, n)] as floats. *)
Definition arange (n : Z) : list Q :=
  map (fun k => inject_Z (Z.of_nat k)) (seq 0 (Z.to_nat n)).

(** [c[:len(a)] += a], for [len(a) <= len(c)]. *)
Fixpoint add_prefix (c a : list Q) : list Q :=
  match c, a with
  | x :: c', y :: a' => (x + y) :: add_prefix c' a'
  | _, _ => c
  end.

(** [a + b] on one-dimensional arrays, with numpy's broadcasting. *)
Definition np_add (a b : list Q) : result (list Q) :=
  if (length a =? length b)%nat then Ok (zip_with Qplus a b)
  else match a, b with
       | [x], _ => Ok (map (fun y => x + y) b)
       | _, [y] => Ok (map (fun x => x + y) a)
       | _, _ => Raise ValueError
       end.

(** [np.max(x)]; a zero-size array has no maximum. *)
Definition np_max (x : list Q) : result Q :=
  match x with
  | [] => Raise ValueError
  | v :: x' => Ok (fold_left Qmax x' v)
  end.

(** [np.linspace(start, stop, num)]. *)
Definition linspace (start stop : Q) (num : Z) : result (list Q) :=
  if (num <? 0)%Z then Raise ValueError
  else match Z.to_nat num with
       | O => Ok []
       | S O => Ok [start]
       | S (S k) =>
           let step := (stop - start) / inject_Z (num - 1) in
           Ok (map (fun i => start + i * step) (arange (num - 1)) ++ [stop])
       end.

(** The linear (full) convolution that [scipy.signal.fftconvolve] computes;
    an empty operand gives an empty result. *)
Fixpoint poly_add (a b : list Q) : list Q :=
  match a, b with
  | [], _ => b
  | _, [] => a
  | x :: a', y :: b' => (x + y) :: poly_add a' b'
  end.

Fixpoint convolve (a b : list Q) : list Q :=
  match a with
  | [] => []
  | [x] => map (Qmult x) b
  | x :: a' => poly_add (map (Qmult x) b) (0 :: convolve a' b)
  end.

Definition fftconvolve (in1 in2 : list Q) : list Q :=
  match in1, in2 with
  | [], _ | _, [] => []
  | _, _ => convolve in1 in2
  end.

(** ** class Modes *)

Record Modes := mkModes {
  frequencies : list Q;
  powers : list Q;
  decay_times : list Q;
  (** the attribute [power], absent until something assigns it *)
  power : option (list Q)
}.

Definition set_powers (m : Modes) (v : list Q) : Modes :=
  mkModes (frequencies m) v (decay_times m) (power m).
Definition set_decay_times (m : Modes) (v : list Q) : Modes :=
  mkModes (frequencies m) (powers m) v (power m).
Definition set_power (m : Modes) (v : list Q) : Modes :=
  mkModes (frequencies m) (powers m) (decay_times m) (Some v).

(** [Modes.mode_add] *)
Definition mode_add (a b : list Q) : list Q :=
  if (length a <? length b)%nat then add_prefix b a else add_prefix a b.

Section Rendering.
Context (L : MathLib).

(** The body of the loop of [sum_modes] for one mode: the decaying cosine
    of [mLen] samples (the five array statements of the source, taken
    sample by sample). *)
Definition mode_length (fs p d : Q) : Z :=
  let H_dB := 80 + p in
  let L_ms := d * H_dB / 60 in
  Qceiling (L_ms / 1000 * fs).

Definition render_mode (fs f p d : Q) : list Q :=
  let mLen := mode_length fs p d in
  let max_len := mLen in
  let tt := map (fun k => k / fs) (arange max_len) in
  map (fun t =>
         let mode := np_cos L (2 * math_pi L * f * t) in
         let mode := mode * pow10 L (p / 20) in
         let dcy := t * (60 / (d / 1000)) in
         let env := pow10 L (- dcy / 20) in
         mode * env) tt.

(** [for i in range(len(self.frequencies))]; [synth_sound] is unbound
    ([None]) before the first iteration. *)
Fixpoint sum_modes_loop (fs : Q) (m : Modes) (idx : list nat)
         (synth_sound : option (list Q)) : result (option (list Q)) :=
  match idx with
  | [] => Ok synth_sound
  | i :: idx' =>
      p ← index (powers m) i;
      d ← index (decay_times m) i;
      f ← index (frequencies m) i;
      let mode := render_mode fs f p d in
      if (i =? 0)%nat then sum_modes_loop fs m idx' (Some mode)
      else match synth_sound with
           | Some s => sum_modes_loop fs m idx' (Some (mode_add s mode))
           | None => Raise UnboundLocalError
           end
  end.

(** [Modes.sum_modes] *)
Definition sum_modes (m : Modes) (fs : Q) : result (list Q) :=
  r ← sum_modes_loop fs m (seq 0 (length (frequencies m))) None;
  match r with
  | Some s => Ok s
  | None => Raise UnboundLocalError
  end.

(** The contact time and the force pulse of [synth_impact_modes]. *)
Definition contact_time (mass : Q) : Q :=
  let max_t := 0.001 * mass in
  Qmin max_t 0.002.

Definition n_pts (mass : Q) : Z := Qceiling (contact_time mass * 44100).

Definition contact_force (mass : Q) : result (list Q) :=
  tt ← linspace 0 (math_pi L) (n_pts mass);
  Ok (map (np_sin L) tt).

(** [PyImpact.synth_impact_modes] *)
Definition synth_impact_modes (modes1 modes2 : Modes) (mass : Q)
  : result (option (list Q)) :=
  h1 ← sum_modes modes1 44100;
  h2 ← sum_modes modes2 44100;
  let h := mode_add h1 h2 in
  if (length h =? 0)%nat then Ok None
  else
    frc ← contact_force mass;
    let x := fftconvolve h frc in
    mx ← np_max x;
    Ok (Some (map (fun v => v / Qabs mx) x)).

End Rendering.

(** ** Material data *)

(** class AudioMaterial *)
Inductive AudioMaterial :=
| ceramic | glass | metal | hardwood | wood | cardboard.

Definition AudioMaterial_value (m : AudioMaterial) : Z :=
  match m with
  | ceramic => 0 | glass => 1 | metal => 2
  | hardwood => 3 | wood => 4 | cardboard => 5
  end%Z.

Definition AudioMaterial_name (m : AudioMaterial) : string :=
  match m with
  | ceramic => "ceramic" | glass => "glass" | metal => "metal"
  | hardwood => "hardwood" | wood => "wood" | cardboard => "cardboard"
  end.

(** DENSITIES *)
Definition DENSITIES (m : AudioMaterial) : Q :=
  match m with
  | ceramic => 2180 | glass => 2500 | metal => 8450
  | hardwood => 900 | wood => 690 | cardboard => 698
  end.

(** A material argument: [Union[str, AudioMaterial]]. *)
Inductive Material :=
| MStr (s : string)
| MEnum (m : AudioMaterial).

(** Modelled from the spec: the parsed content of one
    [py_impact/material_data/*.json] file (the files are not part of the
    sources); the MaterialModeTemplate of the spec, with the keys the code
    reads: centre frequencies ["cf"], onset powers ["op"] and decay
    times ["rt"] (in seconds). *)
Record Template := mkTemplate {
  cf : list Q;
  op : list Q;
  rt : list Q
}.

(** ** class CollisionInfo *)

Record CollisionInfo := mkCollisionInfo {
  count : nat;
  amp : Q;
  init_speed : Q;
  obj1_modes : Modes;
  obj2_modes : Modes
}.

(** [CollisionInfo.__init__], with its defaults [amp=0.5], [init_speed=1]. *)
Definition new_CollisionInfo (obj1 obj2 : Modes) (a : Q) : CollisionInfo :=
  mkCollisionInfo 0 a 1 obj1 obj2.

(** [CollisionInfo.count_collisions] *)
Definition count_collisions (ci : CollisionInfo) : CollisionInfo :=
  mkCollisionInfo (count ci + 1) (amp ci) (init_speed ci)
                  (obj1_modes ci) (obj2_modes ci).

Definition set_init_speed (ci : CollisionInfo) (v : Q) : CollisionInfo :=
  mkCollisionInfo (count ci) (amp ci) v (obj1_modes ci) (obj2_modes ci).
Definition set_obj1_modes (ci : CollisionInfo) (m : Modes) : CollisionInfo :=
  mkCollisionInfo (count ci) (amp ci) (init_speed ci) m (obj2_modes ci).
Definition set_obj2_modes (ci : CollisionInfo) (m : Modes) : CollisionInfo :=
  mkCollisionInfo (count ci) (amp ci) (init_speed ci) (obj1_modes ci) m.

(** ** class PyImpact: the object and the state monad of its methods *)

Record PyImpact := mkPyImpact {
  initial_amp : Q;
  prevent_distortion : bool;
  (** [Dict[int, Dict[int, CollisionInfo]]] *)
  object_modes : gmap Z (gmap Z CollisionInfo);
  (** [Dict[str, dict]] *)
  material_data : gmap string Template
}.

Definition set_object_modes (self : PyImpact)
           (om : gmap Z (gmap Z CollisionInfo)) : PyImpact :=
  mkPyImpact (initial_amp self) (prevent_distortion self) om
             (material_data self).

(** The synthesizer together with the tape of [np.random]. *)
Record state := mkState {
  self_ : PyImpact;
  tape : list Q
}.

Definition M (A : Type) : Type := state -> result A * state.

#[global] Instance M_ret : MRet M := fun A a st => (Ok a, st).
#[global] Instance M_bind : MBind M := fun A B f m st =>
  match m st with
  | (Ok a, st') => f a st'
  | (Raise e, st') => (Raise e, st')
  | (OutOfDraws, st') => (OutOfDraws, st')
  end.

Definition raise {A} (e : exn) : M A := fun st => (Raise e, st).
Definition lift {A} (r : result A) : M A := fun st => (r, st).
Definition get_self : M PyImpact := fun st => (Ok (self_ st), st).
Definition put_object_modes (om : gmap Z (gmap Z CollisionInfo)) : M unit :=
  fun st => (Ok tt, mkState (set_object_modes (self_ st) om) (tape st)).

(** [self.object_modes[id2][id1]] *)
Definition lookup_pair (om : gmap Z (gmap Z CollisionInfo)) (id2 id1 : Z)
  : option CollisionInfo :=
  om !! id2 ≫= fun inner => inner !! id1.

Definition get_pair (id2 id1 : Z) : M CollisionInfo := fun st =>
  match lookup_pair (object_modes (self_ st)) id2 id1 with
  | Some ci => (Ok ci, st)
  | None => (Raise KeyError, st)
  end.

(** An assignment to an attribute of [self.object_modes[id2][id1]], or to
    an attribute of one of its two [Modes]: the objects are shared with the
    dictionary, so the entry changes in place. *)
Definition update_pair (id2 id1 : Z) (f : CollisionInfo -> CollisionInfo)
  : M unit := fun st =>
  let om := object_modes (self_ st) in
  match om !! id2 with
  | Some inner =>
      match inner !! id1 with
      | Some ci => put_object_modes (<[id2 := <[id1 := f ci]> inner]> om) st
      | None => (Raise KeyError, st)
      end
  | None => (Raise KeyError, st)
  end.

(** [np.random.normal(loc, scale)] *)
Definition normal (loc scale : Q) : M Q := fun st =>
  match tape st with
  | [] => (OutOfDraws, st)
  | z :: tape' => (Ok (loc + scale * z), mkState (self_ st) tape')
  end.

(** [np.random.normal(loc, scale, size)] *)
Fixpoint normal_n (loc scale : Q) (size : nat) : M (list Q) :=
  match size with
  | O => mret []
  | S n => x ← normal loc scale; xs ← normal_n loc scale n; mret (x :: xs)
  end.

(** [j = init; while j < floor: j = centre + np.random.normal(0, scale)] *)
Fixpoint while_below_tape (floor centre scale : Q) (tp : list Q) (j : Q)
  : result Q * list Q :=
  if Qltb j floor then
    match tp with
    | [] => (OutOfDraws, [])
    | z :: tp' => while_below_tape floor centre scale tp' (centre + (0 + scale * z))
    end
  else (Ok j, tp).

Definition while_below (floor centre scale init : Q) : M Q := fun st =>
  let (r, tp) := while_below_tape floor centre scale (tape st) init in
  (r, mkState (self_ st) tp).

(** ** Collision and rigidbody output data *)

Definition vec3 : Type := Q * Q * Q.

(** Modelled from the spec: the CollisionDescriptor ([tdw.output_data] is
    not part of the sources).  A [Collision] carries the relative velocity
    and the contact normals; an [EnvironmentCollision] the contact normals
    only. *)
Inductive CollisionData :=
| Collision (relative_velocity : vec3) (contact_normals : list vec3)
| EnvironmentCollision (contact_normals : list vec3).

(** Modelled from the spec: one body of the RigidbodySnapshot: identifier,
    velocity and mass. *)
Record Rigidbody := mkRigidbody {
  rb_id : Z;
  rb_velocity : vec3;
  rb_mass : Q
}.

(** [isinstance(collision, Collision)] *)
Definition is_Collision (c : CollisionData) : bool :=
  match c with
  | Collision _ _ => true
  | EnvironmentCollision _ => false
  end.

Definition get_contact_normals (c : CollisionData) : list vec3 :=
  match c with
  | Collision _ ns => ns
  | EnvironmentCollision ns => ns
  end.

(** [rigidbodies.get_mass(index)] ([tdw.output_data] is not part of the
    sources): the accessor computes the offset of the entry from the index,
    which is taken to raise [TypeError] when the index is [None]. *)
Definition get_mass (rigidbodies : list Rigidbody) (i : option nat)
  : result Q :=
  match i with
  | None => Raise TypeError
  | Some n => rb ← index rigidbodies n; Ok (rb_mass rb)
  end.

(** The loop that looks for the velocity of [id2] (it stops at the first
    match); [vel] stays [0] when there is none. *)
Fixpoint first_velocity (rigidbodies : list Rigidbody) (id2 : Z) : vec3 :=
  match rigidbodies with
  | [] => (0, 0, 0)
  | rb :: rest =>
      if (rb_id rb =? id2)%Z then rb_velocity rb else first_velocity rest id2
  end.

(** The loop that looks for the index of an id (it does not stop: the last
    match wins). *)
Fixpoint last_index (rigidbodies : list Rigidbody) (id : Z) (i : nat)
         (found : option nat) : option nat :=
  match rigidbodies with
  | [] => found
  | rb :: rest =>
      last_index rest id (S i) (if (rb_id rb =? id)%Z then Some i else found)
  end.

Definition sum_squares (v : vec3) : Q :=
  let '(x, y, z) := v in x * x + y * y + z * z.

Definition dot (a b : vec3) : Q :=
  let '(x, y, z) := a in let '(x', y', z') := b in x * x' + y * y' + z * z'.

Definition vdiv (v : vec3) (s : Q) : vec3 :=
  let '(x, y, z) := v in (x / s, y / s, z / s).

(** [np.clip(x, lo, hi)] *)
Definition clip (x lo hi : Q) : Q := Qmin (Qmax x lo) hi.

(** [np.mean] of a list of floats. *)
Definition mean (l : list Q) : Q :=
  fold_left Qplus l 0 / inject_Z (Z.of_nat (length l)).

(** ** class Base64Sound *)

Record Base64Sound := mkBase64Sound {
  wav_str : string;
  (** the attribute [length] *)
  snd_length : nat
}.

(** The cast of a float to [int16]: towards zero, then modulo [2^16]. *)
Definition Qtrunc (x : Q) : Z := if Qltb x 0 then Qceiling x else Qfloor x.

Definition wrap_int16 (z : Z) : Z := ((z + 32768) mod 65536 - 32768)%Z.

Definition to_int16 (x : Q) : Z := wrap_int16 (Qtrunc (x * 32767)).

(** The two bytes of an [int16], low byte first. *)
Definition int16_bytes (v : Z) : list Z :=
  [Z.land v 255; Z.land (Z.shiftr v 8) 255].

(** [bytes(np.array(..., dtype='int16'))] *)
Definition pcm_bytes (samples : list Z) : list Z :=
  flat_map int16_bytes samples.

Definition b64_alphabet : list ascii :=
  list_ascii_of_string
    "ABCDEFGHIJKLMNOPQRSTUVWXYZabcdefghijklmnopqrstuvwxyz0123456789+/".

Definition b64_char (n : Z) : ascii := nth (Z.to_nat n) b64_alphabet "="%char.

(** [base64.b64encode(...).decode('utf-8')] *)
Fixpoint b64encode (bs : list Z) : string :=
  match bs with
  | [] => EmptyString
  | [a] =>
      let n := Z.shiftl a 16 in
      String (b64_char (Z.land (Z.shiftr n 18) 63))
        (String (b64_char (Z.land (Z.shiftr n 12) 63)) "==")
  | [a; b] =>
      let n := Z.lor (Z.shiftl a 16) (Z.shiftl b 8) in
      String (b64_char (Z.land (Z.shiftr n 18) 63))
        (String (b64_char (Z.land (Z.shiftr n 12) 63))
           (String (b64_char (Z.land (Z.shiftr n 6) 63)) "="))
  | a :: b :: c :: rest =>
      let n := Z.lor (Z.lor (Z.shiftl a 16) (Z.shiftl b 8)) c in
      String (b64_char (Z.land (Z.shiftr n 18) 63))
        (String (b64_char (Z.land (Z.shiftr n 12) 63))
           (String (b64_char (Z.land (Z.shiftr n 6) 63))
              (String (b64_char (Z.land n 63)) (b64encode rest))))
  end.

(** [Base64Sound.__init__] *)
Definition new_Base64Sound (snd : list Q) : Base64Sound :=
  let tst1 := map to_int16 snd in
  let tst2 := pcm_bytes tst1 in
  let tst3 := b64encode tst2 in
  mkBase64Sound tst3 (length tst2).

(** The command dictionary of [get_impact_sound_command]. *)
Inductive Command :=
| PlayData (type_ : string) (id : Z) (num_frames : nat) (num_channels : Z)
           (frame_rate : Z) (wav_data : string) (y_pos_offset : Q)
| DoNothing.

(** ** class PyImpact: the methods *)

(** The material files that [PyImpact.__init__] loads, by material. *)
Definition material_files : list (string * string) :=
  zip ["ceramic"; "hardwood"; "metal"; "glass"; "wood"; "cardboard"]
      ["Ceramic_mm"; "Poplar_mm"; "MetalStrip_mm"; "Mirror_mm";
       "BalsaWood_mm"; "Cardboard_mm"].

(** [PyImpact.__init__]; [files] is the content of the directory
    [py_impact/material_data], by file name. *)
Definition new_PyImpact (files : gmap string Template) (initial_amp : Q)
           (prevent_distortion : bool) : result PyImpact :=
  if Qltb 0 initial_amp && Qltb initial_amp 1 then
    md ← fold_left
           (fun (acc : result (gmap string Template)) '(mat, path) =>
              m ← acc;
              match files !! path with
              | Some data => Ok (<[mat := data]> m)
              | None => Raise FileNotFoundError
              end)
           material_files (Ok ∅);
    Ok (mkPyImpact initial_amp prevent_distortion ∅ md)
  else Raise AssertionError.

(** [PyImpact.reset] *)
Definition reset (initial_amp : Q) : M unit :=
  if Qltb 0 initial_amp && Qltb initial_amp 1 then
    (* Clear the object data. *)
    put_object_modes ∅
  else raise AssertionError.

Definition material_key (material : Material) : string :=
  match material with
  | MStr s => s
  | MEnum m => AudioMaterial_name m
  end.

(** [for jm in range(0, 10)] of [_get_object_modes]; [f], [p], [t] start
    as the scalar [-1] and are replaced at [jm == 0]. *)
Fixpoint get_object_modes_loop (data : Template) (jms : list nat)
         (f p t : list Q) : M (list Q * list Q * list Q) :=
  match jms with
  | [] => mret (f, p, t)
  | jm :: jms' =>
      c ← lift (index (cf data) jm);
      jf ← while_below 20 c (c / 10) 0;
      o ← lift (index (op data) jm);
      n ← normal 0 10;
      let jp := o + n in
      r ← lift (index (rt data) jm);
      jt ← while_below 0.001 r (r / 10) 0;
      if (jm =? 0)%nat
      then get_object_modes_loop data jms' [jf] [jp] [jt * 1000]
      else get_object_modes_loop data jms'
             (f ++ [jf]) (p ++ [jp]) (t ++ [jt * 1000])
  end.

(** [PyImpact._get_object_modes] *)
Definition _get_object_modes (material : Material) : M Modes :=
  self ← get_self;
  match material_data self !! material_key material with
  | None => raise KeyError
  | Some data =>
      '(f, p, t) ← get_object_modes_loop data (seq 0 10) [-1] [-1] [-1];
      mret (mkModes f p t None)
  end.

(** [PyImpact.is_valid_collision]; the norm is [np.linalg.norm]. *)
Definition is_valid_collision (L : MathLib) (collision : option CollisionData)
  : bool :=
  match collision with
  | None => false
  | Some (Collision v _) => Qltb 0 (math_sqrt L (sum_squares v))
  | Some (EnvironmentCollision _) => true
  end.

Section Synthesizer.
Context (L : MathLib).

Definition norm (v : vec3) : Q := math_sqrt L (sum_squares v).

(** The normal velocity at impact of [get_sound]. *)
Definition normal_speed_of (collision : CollisionData)
           (rigidbodies : list Rigidbody) (id2 : Z) : Q :=
  let vel :=
    match collision with
    | Collision v _ => v
    | EnvironmentCollision _ => first_velocity rigidbodies id2
    end in
  let speed := math_sqrt L (sum_squares vel) in
  let nvel := vdiv vel (norm vel) in
  let nspd :=
    map (fun n =>
           let tmp := vdiv n (norm n) in
           let tmp := np_arccos L (clip (dot tmp nvel) (-1) 1) in
           (* Scale the speed by the angle. *)
           speed * np_cos L tmp)
        (get_contact_normals collision) in
  mean nspd.

(** [PyImpact.make_impact_audio].  The loop over [AudioMaterial] only
    rebinds the local names [mat1] and [mat2], which are not read again. *)
Definition make_impact_audio (amp2re1 mass : Q) (id1 id2 : Z)
           (mat1 mat2 : Material) : M (option (list Q) * Modes * Modes) :=
  ci ← get_pair id2 id1;
  let modes_1 := obj1_modes ci in
  let modes_2 := obj2_modes ci in
  (* Scale the two sounds as specified. *)
  let modes_2 :=
    set_decay_times modes_2
      (map (fun d => d + 20 * np_log10 L amp2re1) (decay_times modes_2)) in
  update_pair id2 id1 (fun ci => set_obj2_modes ci modes_2);;
  snth ← lift (synth_impact_modes L modes_1 modes_2 mass);
  mret (snth, modes_1, modes_2).

(** The first statements of [get_sound]: set the object modes. *)
Definition set_object_modes_of (id1 : Z) (mat1 : Material) (id2 : Z)
           (mat2 : Material) : M unit :=
  self ← get_self;
  let om := object_modes self in
  let om := match om !! id2 with
            | Some _ => om
            | None => <[id2 := ∅]> om
            end in
  put_object_modes om;;
  match lookup_pair om id2 id1 with
  | Some _ => mret tt
  | None =>
      a ← _get_object_modes mat2;
      b ← _get_object_modes mat1;
      put_object_modes
        (<[id2 := <[id1 := new_CollisionInfo a b (initial_amp self)]>
                    (default ∅ (om !! id2))]> om)
  end.

(** The two branches of "Re-scale the amplitude": the sound (if any) and
    the amplitude. *)
Definition first_collision (amp2re1 mass normal_speed : Q) (id1 id2 : Z)
           (mat1 mat2 : Material) : M (option (list Q) * Q) :=
  (* Sample the modes. *)
  '(sound, modes_1, modes_2) ←
     make_impact_audio amp2re1 mass id1 id2 mat1 mat2;
  (* Save collision info - we will need for later collisions. *)
  ci ← get_pair id2 id1;
  let amp := amp ci in
  update_pair id2 id1 (fun ci => set_init_speed ci normal_speed);;
  update_pair id2 id1 (fun ci => set_obj1_modes ci modes_1);;
  update_pair id2 id1 (fun ci => set_obj2_modes ci modes_2);;
  mret (sound, amp).

(** The amplitude is a quotient of floats.  The rationals have it for a
    reference speed that is not zero; for a reference speed of zero numpy's
    quotient is [inf] or [nan], which the rationals do not have, and the
    value of [/] there (zero) is not the code's: what is stated below about
    this amplitude is stated for a reference speed that is not zero. *)
Definition repeat_collision (mass normal_speed : Q) (id1 id2 : Z)
  : M (option (list Q) * Q) :=
  ci ← get_pair id2 id1;
  let amp := amp ci * normal_speed / init_speed ci in
  (* Adjust modes here so that two successive impacts are not identical. *)
  let modes_1 := obj1_modes ci in
  let modes_2 := obj2_modes ci in
  n1 ← normal_n 0 2 (length (powers modes_1));
  p1 ← lift (np_add (powers modes_1) n1);
  let modes_1 := set_powers modes_1 p1 in
  update_pair id2 id1 (fun ci => set_obj1_modes ci modes_1);;
  n2 ← normal_n 0 2 (length (powers modes_1));
  p2 ← lift (np_add (powers modes_2) n2);
  (* the source assigns [modes_2.power], not [modes_2.powers] *)
  let modes_2 := set_power modes_2 p2 in
  update_pair id2 id1 (fun ci => set_obj2_modes ci modes_2);;
  sound ← lift (synth_impact_modes L modes_1 modes_2 mass);
  update_pair id2 id1 (fun ci => set_obj1_modes ci modes_1);;
  update_pair id2 id1 (fun ci => set_obj2_modes ci modes_2);;
  mret (sound, amp).

(** "Prevent distortion by clamping the amp." *)
Definition clamp_amp (prevent : bool) (amp : Q) : Q :=
  if prevent && Qltb 0.99 amp then 0.99 else amp.

(** [amp * sound / np.max(np.abs(sound))] *)
Definition scale_sound (amp : Q) (sound : list Q) : result (list Q) :=
  mx ← np_max (map Qabs sound);
  Ok (map (fun s => amp * s / mx) sound).

(** [PyImpact.get_sound] *)
Definition get_sound (collision : CollisionData)
           (rigidbodies : list Rigidbody) (id1 : Z) (mat1 : Material)
           (id2 : Z) (mat2 : Material) (amp2re1 : Q)
  : M (option Base64Sound) :=
  (* Set the object modes. *)
  set_object_modes_of id1 mat1 id2 mat2;;
  let obj_col := is_Collision collision in
  (* Compute normal velocity at impact. *)
  let normal_speed := normal_speed_of collision rigidbodies id2 in
  (* Get indices of objects in collisions *)
  let id1_index := last_index rigidbodies id1 0 None in
  let id2_index := last_index rigidbodies id2 0 None in
  (* Make sure both IDs were found. If they aren't, don't return a sound. *)
  if obj_col && (is_None id1_index || is_None id2_index)
  then mret None
  else
    m1 ← (if obj_col then lift (get_mass rigidbodies id1_index)
           else mret 1000);
    m2 ← lift (get_mass rigidbodies id2_index);
    let mass := Qmin m1 m2 in
    (* Re-scale the amplitude. *)
    ci ← get_pair id2 id1;
    '(sound, amp) ←
       (if (count ci =? 0)%nat
        then first_collision amp2re1 mass normal_speed id1 id2 mat1 mat2
        else repeat_collision mass normal_speed id1 id2);
    (* On rare occasions, it is possible for PyImpact to fail to
       generate a sound. *)
    match sound with
    | None => mret None
    | Some sound =>
        (* Count the collisions. *)
        update_pair id2 id1 count_collisions;;
        self ← get_self;
        let amp := clamp_amp (prevent_distortion self) amp in
        sound ← lift (scale_sound amp sound);
        mret (Some (new_Base64Sound sound))
    end.

(** [PyImpact.get_impact_sound_command] *)
Definition get_impact_sound_command (collision : CollisionData)
           (rigidbodies : list Rigidbody) (target_id : Z)
           (target_mat : Material) (target_amp : Q) (other_id : Z)
           (other_mat : Material) (other_amp : Q) (play_audio_data : bool)
  : M Command :=
  amp2re1 ← (if Qeq_bool target_amp 0 then raise ZeroDivisionError
             else mret (other_amp / target_amp));
  impact_audio ← get_sound collision rigidbodies other_id other_mat
                           target_id target_mat amp2re1;
  match impact_audio with
  | Some a =>
      mret (PlayData (if play_audio_data then "play_audio_data"
                      else "play_point_source_data")
                     target_id (snd_length a) 1 44100 (wav_str a) 0.1)
  | None => mret DoNothing
  end.

End Synthesizer.

(** ** A rational instance of the library functions

    Fixed-precision rational approximations of the library functions, to
    run the synthesizer on concrete inputs.  The theorems below do not
    depend on them. *)

Module Approx.

(** Nine decimal digits are kept, after every step. *)
Definition rnd (x : Q) : Q := (Qfloor (x * 1000000000)) # 1000000000.

Definition pi : Q := 3.141592654.
Definition ln10 : Q := 2.302585093.

(** The square root of the integer [num * den * 10^12], over
    [den * 10^6]: exact on squares of rationals, positive on positives. *)
Definition sqrt (x : Q) : Q :=
  if Qle_bool x 0 then 0
  else (Z.sqrt (Qnum x * Zpos (Qden x) * 1000000000000))
       # (Qden x * 1000000).

(** The Taylor polynomial [1 - y/(k(k+1)) (1 - y/((k+2)(k+3)) (...))]: the
    cosine in [y = r^2] from [k = 1], and [sin r / r] from [k = 2]. *)
Fixpoint horner (terms : nat) (k : Z) (y : Q) : Q :=
  match terms with
  | O => 1
  | S n => rnd (1 - y / inject_Z (k * (k + 1)) * horner n (k + 2) y)
  end.

(** The argument modulo [2 pi], in [[-pi, pi]]. *)
Definition reduce (x : Q) : Q :=
  rnd (x - 2 * pi * inject_Z (Qfloor (x / (2 * pi) + (1 # 2)))).

Definition cos (x : Q) : Q :=
  let r := reduce x in horner 8 1 (rnd (r * r)).

Definition sin (x : Q) : Q :=
  let r := reduce x in rnd (r * horner 8 2 (rnd (r * r))).

(** Abramowitz and Stegun 4.4.45 on [[0, 1]], mirrored on [[-1, 0]]. *)
Definition arccos_pos (x : Q) : Q :=
  sqrt (1 - x) *
  (1.5707288 + x * (- 0.2121144 + x * (0.0742610 - x * 0.0187293))).

Definition arccos (x : Q) : Q :=
  rnd (if Qltb x 0 then pi - arccos_pos (- x) else arccos_pos x).

(** [exp y] by its Taylor polynomial, for [0 <= y < ln 10]. *)
Fixpoint exp_terms (terms : nat) (k : Z) (y : Q) : Q :=
  match terms with
  | O => 1
  | S n => rnd (1 + y / inject_Z k * exp_terms n (k + 1) y)
  end.

Definition pow10 (x : Q) : Q :=
  let n := Qfloor x in
  let f := rnd (x - inject_Z n) in
  rnd (Qpower 10 n * exp_terms 18 1 (rnd (f * ln10))).

(** [ln x = 2 atanh ((x - 1) / (x + 1))], by the series of [atanh]. *)
Fixpoint atanh_terms (terms : nat) (k : Z) (y : Q) : Q :=
  match terms with
  | O => 0
  | S n => rnd (1 / inject_Z k + y * atanh_terms n (k + 2) y)
  end.

Definition log10 (x : Q) : Q :=
  if Qle_bool x 0 then 0
  else let u := rnd ((x - 1) / (x + 1)) in
       rnd (2 * u * atanh_terms 12 1 (rnd (u * u)) / ln10).

Definition lib : MathLib :=
  Build_MathLib pi sqrt cos sin arccos log10 pow10.

End Approx.

(** ** A small scenario

    A synthesizer whose templates have one audible mode (the other nine
    start below the floor of the rendering) or none, so that the signals
    are a few samples long; a target body of 50 g (id 1, wood) and a body of
    5 kg (id 2, ceramic). *)

Module Demo.

Definition template : Template :=
  mkTemplate (replicate 10 440) (-79.9 :: replicate 9 (-90))
             (replicate 10 0.001).

Definition silent_template : Template :=
  mkTemplate (replicate 10 440) (replicate 10 (-90)) (replicate 10 0.001).

Definition files : gmap string Template :=
  list_to_map
    [("Ceramic_mm", template); ("Poplar_mm", template);
     ("MetalStrip_mm", template); ("Mirror_mm", template);
     ("BalsaWood_mm", template); ("Cardboard_mm", silent_template)].

Definition synthesizer : PyImpact :=
  mkPyImpact 0.5 true ∅
    (list_to_map
       [("ceramic", template); ("hardwood", template); ("metal", template);
        ("glass", template); ("wood", template);
        ("cardboard", silent_template)]).

(** Sixty draws of 0 for the sampling of two ModeSets, then draws
    of 1. *)
Definition draws : list Q := replicate 60 0 ++ replicate 20 1.

Definition st0 : state := mkState synthesizer draws.

Definition bodies : list Rigidbody :=
  [mkRigidbody 1 (0, 0, 0) 0.05; mkRigidbody 2 (0, 0, 0) 5].

Definition wood_ : Material := MStr "wood".
Definition ceramic_ : Material := MStr "ceramic".

(** A body-body collision with relative velocity [(0, -v, 0)] and one
    contact normal [(0, n, 0)]. *)
Definition hit (v n : Q) : CollisionData :=
  Collision (0, - v, 0) [(0, n, 0)].

(** The state after a first collision of the pair at speed 2. *)
Definition st1 : state :=
  (get_sound Approx.lib (hit 2 (-1)) bodies 2 ceramic_ 1 wood_ 1 st0).2.

End Demo.

(** ** The static methods that read the build's output *)

(** [AudioMaterial[name]]: the member of that name, [KeyError] when there
    is none. *)
Definition AudioMaterial_of_name (name : string) : result AudioMaterial :=
  if String.eqb name "ceramic" then Ok ceramic
  else if String.eqb name "glass" then Ok glass
  else if String.eqb name "metal" then Ok metal
  else if String.eqb name "hardwood" then Ok hardwood
  else if String.eqb name "wood" then Ok wood
  else if String.eqb name "cardboard" then Ok cardboard
  else Raise KeyError.

(** class ObjectInfo *)
Record ObjectInfo := mkObjectInfo {
  oi_name : string;
  oi_amp : Q;
  oi_mass : Q;
  oi_material : AudioMaterial;
  oi_library : string;
  oi_bounciness : Q
}.

(** A row of [objects.csv] as [csv.DictReader] yields it: the value of
    each column, a string. *)
Record CsvRow := mkCsvRow {
  row_name : string;
  row_amp : string;
  row_mass : string;
  row_material : string;
  row_library : string;
  row_bounciness : string
}.

Section OutputData.
(** The parts of Python and of [tdw.output_data] that the two methods call:
    [float(s)] on a string, the four-letter id of a frame, and the three
    constructors that wrap a frame. *)
Context (float_of_string : string -> result Q).
Context {Frame Coll EnvColl Rigi : Type}.
Context (get_data_type_id : Frame -> string).
Context (new_Collision : Frame -> Coll).
Context (new_EnvironmentCollision : Frame -> EnvColl).
Context (new_Rigidbodies : Frame -> Rigi).

(** The body of the loop of [get_object_info] for one row: the
    arguments of [ObjectInfo(...)] are evaluated in the order written,
    then [objects.update({o.name: o})]. *)
Definition add_object_info (objects : gmap string ObjectInfo) (row : CsvRow)
  : result (gmap string ObjectInfo) :=
  a ← float_of_string (row_amp row);
  m ← float_of_string (row_mass row);
  mat ← AudioMaterial_of_name (row_material row);
  b ← float_of_string (row_bounciness row);
  let o := mkObjectInfo (row_name row) a m mat (row_library row) b in
  Ok (<[oi_name o := o]> objects).

(** [PyImpact.get_object_info], from the rows of the file on. *)
Fixpoint get_object_info_rows (rows : list CsvRow)
         (objects : gmap string ObjectInfo)
  : result (gmap string ObjectInfo) :=
  match rows with
  | [] => Ok objects
  | row :: rows' =>
      objects' ← add_object_info objects row;
      get_object_info_rows rows' objects'
  end.

Definition get_object_info (rows : list CsvRow)
  : result (gmap string ObjectInfo) :=
  get_object_info_rows rows ∅.

(** The loop of [get_collisions] over [resp[:-1]]: three independent
    tests of the id of each frame. *)
Fixpoint get_collisions_loop (frames : list Frame) (collisions : list Coll)
         (environment_collisions : list EnvColl) (rigidbodies : option Rigi)
  : list Coll * list EnvColl * option Rigi :=
  match frames with
  | [] => (collisions, environment_collisions, rigidbodies)
  | r :: frames' =>
      let r_id := get_data_type_id r in
      let collisions :=
        if String.eqb r_id "coll" then collisions ++ [new_Collision r]
        else collisions in
      let rigidbodies :=
        if String.eqb r_id "rigi" then Some (new_Rigidbodies r)
        else rigidbodies in
      let environment_collisions :=
        if String.eqb r_id "enco"
        then environment_collisions ++ [new_EnvironmentCollision r]
        else environment_collisions in
      get_collisions_loop frames' collisions environment_collisions
                          rigidbodies
  end.

(** [PyImpact.get_collisions] *)
Definition get_collisions (resp : list Frame)
  : list Coll * list EnvColl * option Rigi :=
  if (length resp =? 1)%nat then ([], [], None)
  else get_collisions_loop (removelast resp) [] [] None.

End OutputData.

(** * Vocabulary of the statements *)

(** A decay time in milliseconds that comes from a draw of at least
    0.001 s. *)
Definition in_seconds_floor (t : Q) : Prop :=
  exists jt : Q, 0.001 <= jt /\ t = jt * 1000.

(** The relative velocity is not the zero vector. *)
Definition nonzero (v : vec3) : Prop :=
  let '(x, y, z) := v in ~ (x == 0 /\ y == 0 /\ z == 0).

(** What a method leaves alone: the configuration of the synthesizer. *)
Definition config (st : state) : Q * bool * gmap string Template :=
  (initial_amp (self_ st), prevent_distortion (self_ st),
   material_data (self_ st)).

(** A computation that leaves the synthesizer object alone (it may read
    the tape). *)
Definition reads_tape {A} (m : M A) : Prop :=
  forall st, self_ (m st).2 = self_ st.

(** The second ModeSet after the shift of its decay times in
    [make_impact_audio]. *)
Definition shifted (L : MathLib) (amp2re1 : Q) (m : Modes) : Modes :=
  set_decay_times m
    (map (fun d => d + 20 * np_log10 L amp2re1) (decay_times m)).

(** The branch of [get_sound] taken for the pair's entry [ci], at the
    given mass. *)
Definition rescale (L : MathLib) (collision : CollisionData)
           (rigidbodies : list Rigidbody) (id1 : Z) (mat1 : Material)
           (id2 : Z) (mat2 : Material) (amp2re1 : Q) (ci : CollisionInfo)
           (mass : Q) : M (option (list Q) * Q) :=
  let normal_speed := normal_speed_of L collision rigidbodies id2 in
  if (count ci =? 0)%nat
  then first_collision L amp2re1 mass normal_speed id1 id2 mat1 mat2
  else repeat_collision L mass normal_speed id1 id2.

(** The guard of [get_sound]: a body-body collision with a body that is
    not in the snapshot. *)
Definition unresolved (collision : CollisionData)
           (rigidbodies : list Rigidbody) (id1 id2 : Z) : bool :=
  is_Collision collision
  && (is_None (last_index rigidbodies id1 0 None)
      || is_None (last_index rigidbodies id2 0 None)).

(** [m1] and [m2] of [get_sound]. *)
Definition mass_1 (collision : CollisionData) (rigidbodies : list Rigidbody)
           (id1 : Z) : result Q :=
  if is_Collision collision
  then get_mass rigidbodies (last_index rigidbodies id1 0 None)
  else Ok 1000.

Definition mass_2 (rigidbodies : list Rigidbody) (id2 : Z) : result Q :=
  get_mass rigidbodies (last_index rigidbodies id2 0 None).


(** The collisions counted so far for a pair; a pair without an entry has
    none. *)
Definition pair_count (id2 id1 : Z) (st : state) : nat :=
  match lookup_pair (object_modes (self_ st)) id2 id1 with
  | Some ci => count ci
  | None => 0
  end.

(** [m] leaves the count of the pair alone, and its results satisfy [P]. *)
Definition keeps (id2 id1 : Z) {A} (m : M A) (P : A -> Prop) : Prop :=
  forall st, pair_count id2 id1 (m st).2 = pair_count id2 id1 st /\
             forall a, (m st).1 = Ok a -> P a.

(** A sound, when there is one, is not the empty signal. *)
Definition audible (sound : option (list Q)) : Prop :=
  forall s, sound = Some s -> s <> [].

(** [m] counts one collision when it returns a sound, and none
    otherwise. *)
Definition counts (id2 id1 : Z) (m : M (option Base64Sound)) : Prop :=
  forall st,
    match m st with
    | (Ok (Some _), st') =>
        pair_count id2 id1 st' = (pair_count id2 id1 st + 1)%nat
    | (_, st') => pair_count id2 id1 st' = pair_count id2 id1 st
    end.

(** The velocity of the impact in [get_sound]: the relative velocity of a
    body-body collision, the velocity of the body [id2] otherwise. *)
Definition impact_velocity (collision : CollisionData)
           (rigidbodies : list Rigidbody) (id2 : Z) : vec3 :=
  match collision with
  | Collision v _ => v
  | EnvironmentCollision _ => first_velocity rigidbodies id2
  end.

(** The normal speed of the event is a number.  [get_sound] divides the
    velocity and every contact normal by its norm and takes the mean over
    the contacts: for a zero vector, or without a contact, numpy's result
    is [nan]. *)
Definition speed_defined (collision : CollisionData)
           (rigidbodies : list Rigidbody) (id2 : Z) : Prop :=
  nonzero (impact_velocity collision rigidbodies id2) /\
  get_contact_normals collision <> [] /\
  Forall nonzero (get_contact_normals collision).

(** The amplitude of a repeat collision on the entry [ci] is a number: the
    stored reference speed, by which the code divides, is not zero, and
    the normal speed of the event is a number. *)
Definition ratio_defined (collision : CollisionData)
           (rigidbodies : list Rigidbody) (id2 : Z) (ci : CollisionInfo)
  : Prop :=
  ~ init_speed ci == 0 /\ speed_defined collision rigidbodies id2.

(** The same for the state before a call: for the entry of the pair, if it
    has one that has counted a collision. *)
Definition amplitude_defined (collision : CollisionData)
           (rigidbodies : list Rigidbody) (id2 id1 : Z) (st : state) : Prop :=
  forall ci : CollisionInfo,
    lookup_pair (object_modes (self_ st)) id2 id1 = Some ci ->
    (0 < count ci)%nat -> ratio_defined collision rigidbodies id2 ci.

(** The value of two bytes, low byte first, as a signed 16-bit integer: the
    inverse of [int16_bytes]. *)
Definition int16_of_bytes (lo hi : Z) : Z :=
  let u := (lo + 256 * hi)%Z in
  if (u <? 32768)%Z then u else (u - 65536)%Z.

(** The samples of a PCM byte string: the inverse of [pcm_bytes]. *)
Fixpoint pcm_samples (bs : list Z) : list Z :=
  match bs with
  | lo :: hi :: rest => int16_of_bytes lo hi :: pcm_samples rest
  | _ => []
  end.

(** The index of a character in the base64 alphabet. *)
Fixpoint index_of (c : ascii) (alphabet : list ascii) (i : Z) : Z :=
  match alphabet with
  | [] => 0
  | a :: rest => if Ascii.eqb c a then i else index_of c rest (i + 1)
  end%Z.

Definition b64_index (c : ascii) : Z := index_of c b64_alphabet 0.

(** The bytes of a padded base64 string: the inverse of [b64encode]. *)
Fixpoint b64decode (s : string) : list Z :=
  match s with
  | String c1 (String c2 (String c3 (String c4 rest))) =>
      let n := (Z.lor (Z.lor (Z.lor (Z.shiftl (b64_index c1) 18)
                                    (Z.shiftl (b64_index c2) 12))
                             (Z.shiftl (b64_index c3) 6))
                      (b64_index c4)) in
      let b1 := Z.land (Z.shiftr n 16) 255 in
      let b2 := Z.land (Z.shiftr n 8) 255 in
      let b3 := Z.land n 255 in
      if Ascii.eqb c3 "="%char then [b1]
      else if Ascii.eqb c4 "="%char then [b1; b2]
      else b1 :: b2 :: b3 :: b64decode rest
  | _ => []
  end.

(** A list of bytes. *)
Definition is_bytes (bs : list Z) : Prop :=
  Forall (fun b => (0 <= b < 256)%Z) bs.

(** The number of samples of the modes [k], ..., [k + n - 1] of a ModeSet,
    as [sum_modes] renders them. *)
Definition mode_samples (fs : Q) (m : Modes) (k n : nat) : list nat :=
  map (fun i => Z.to_nat (mode_length fs (nth i (powers m) 0)
                                      (nth i (decay_times m) 0)))
      (seq k n).

(** A ModeSet whose sequences have one length, not zero. *)
Definition well_formed (m : Modes) : Prop :=
  frequencies m <> [] /\
  length (powers m) = length (frequencies m) /\
  length (decay_times m) = length (frequencies m).

(** A ModeSet none of whose modes starts above -80 dB, with decay times
    that are not negative. *)
Definition inaudible (m : Modes) : Prop :=
  Forall (fun p => p <= -80) (powers m) /\
  Forall (fun d => 0 <= d) (decay_times m).

(** [m] leaves the observation [f] of the state as it was, whatever its
    outcome. *)
Definition preserves {A X} (f : state -> X) (m : M A) : Prop :=
  forall st, f (m st).2 = f st.

(** What a call for one pair leaves alone: the configuration, and the
    entry of the pair [(j2, j1)]. *)
Definition other_pair (j2 j1 : Z) (st : state)
  : (Q * bool * gmap string Template) * option CollisionInfo :=
  (config st, lookup_pair (object_modes (self_ st)) j2 j1).

(** The object that a row of [objects.csv] describes. *)
Definition row_of (float_of_string : string -> result Q) (row : CsvRow)
           (o : ObjectInfo) : Prop :=
  oi_name o = row_name row /\
  float_of_string (row_amp row) = Ok (oi_amp o) /\
  float_of_string (row_mass row) = Ok (oi_mass o) /\
  AudioMaterial_name (oi_material o) = row_material row /\
  oi_library o = row_library row /\
  float_of_string (row_bounciness row) = Ok (oi_bounciness o).

(** The entry [jm] of a template, with a centre frequency and a decay time
    that the sampling accepts as they are. *)
Definition template_entry (data : Template) (jm : nat) (c o r : Q) : Prop :=
  cf data !! jm = Some c /\ op data !! jm = Some o /\
  rt data !! jm = Some r /\ 20 <= c /\ 0.001 <= r.

(** The mode [jm] of a ModeSet. *)
Definition mode_at (m : Modes) (jm : nat) (f p t : Q) : Prop :=
  frequencies m !! jm = Some f /\ powers m !! jm = Some p /\
  decay_times m !! jm = Some t.

(** A [float] for the numerals of the rows below, and two rows for one
    model name. *)
Definition float_of_numeral (s : string) : result Q :=
  if String.eqb s "0.2" then Ok 0.2
  else if String.eqb s "0.6" then Ok 0.6
  else if String.eqb s "1" then Ok 1
  else Raise ValueError.

Definition cup_rows : list CsvRow :=
  [mkCsvRow "cup" "0.2" "1" "ceramic" "models_core.json" "0.6";
   mkCsvRow "cup" "0.6" "0.2" "glass" "models_full.json" "0.2"].

(** * Properties *)

(** ** Comparisons *)

Lemma Qltb_lt (x y : Q) : Qltb x y = true <-> x < y.
Proof.
  unfold Qltb. rewrite negb_true_iff, <- not_true_iff_false, Qle_bool_iff.
  split; [apply Qnot_le_lt | apply Qlt_not_le].
Qed.

Lemma Qltb_ge (x y : Q) : Qltb x y = false <-> y <= x.
Proof.
  unfold Qltb. rewrite negb_false_iff. apply Qle_bool_iff.
Qed.

(** ** Reasoning about the monads *)

Lemma result_bind_Ok {A B} (r : result A) (f : A -> result B) (b : B) :
  r ≫= f = Ok b -> exists a, r = Ok a /\ f a = Ok b.
Proof.
  destruct r as [a | e | ]; simpl; intros H; try discriminate.
  exists a. split; [reflexivity | exact H].
Qed.

Lemma M_bind_unfold {A B} (m : M A) (f : A -> M B) (st : state) :
  (m ≫= f) st =
  match m st with
  | (Ok a, st') => f a st'
  | (Raise e, st') => (Raise e, st')
  | (OutOfDraws, st') => (OutOfDraws, st')
  end.
Proof. reflexivity. Qed.

Lemma M_bind_Ok {A B} (m : M A) (f : A -> M B) (st st' : state) (b : B) :
  (m ≫= f) st = (Ok b, st') ->
  exists a st1, m st = (Ok a, st1) /\ f a st1 = (Ok b, st').
Proof.
  rewrite M_bind_unfold. destruct (m st) as [[a | e | ] st1]; intros H;
    try discriminate.
  exists a, st1. split; [reflexivity | exact H].
Qed.

Lemma M_bind_run {A B} (m : M A) (f : A -> M B) (st st1 : state) (a : A) :
  m st = (Ok a, st1) -> (m ≫= f) st = f a st1.
Proof. intros H. rewrite M_bind_unfold, H. reflexivity. Qed.

Lemma lift_Ok {A} (r : result A) (st st' : state) (a : A) :
  lift r st = (Ok a, st') -> r = Ok a /\ st' = st.
Proof. unfold lift. intros H. inversion H. split; reflexivity. Qed.

(** ** Lengths of the array operations *)

Lemma add_prefix_length (c a : list Q) :
  length (add_prefix c a) = length c.
Proof.
  revert a. induction c as [| x c IH]; intros [| y a]; simpl; try reflexivity.
  rewrite IH. reflexivity.
Qed.

Lemma mode_add_length (a b : list Q) :
  length (mode_add a b) = Nat.max (length a) (length b).
Proof.
  unfold mode_add. destruct (Nat.ltb_spec (length a) (length b));
    rewrite add_prefix_length; lia.
Qed.

Lemma arange_length (n : Z) : length (arange n) = Z.to_nat n.
Proof. unfold arange. rewrite length_map, length_seq. reflexivity. Qed.

Lemma linspace_length (start stop : Q) (num : Z) (tt : list Q) :
  linspace start stop num = Ok tt -> length tt = Z.to_nat num.
Proof.
  unfold linspace. destruct (num <? 0)%Z eqn:E; [discriminate |].
  apply Z.ltb_ge in E.
  destruct (Z.to_nat num) as [| [| k]] eqn:En; intros H; inversion H; subst;
    simpl; try reflexivity.
  rewrite length_app, length_map, arange_length. simpl. lia.
Qed.

Ltac bind_inv H :=
  let a := fresh "a" in
  let st1 := fresh "st" in
  let H1 := fresh "H" in
  apply M_bind_Ok in H as (a & st1 & H1 & H).

Tactic Notation "step_inv" hyp(H) "as" simple_intropattern(a) ident(s)
       ident(H1) :=
  apply M_bind_Ok in H as (a & s & H1 & H).

(** ** Sampling from a material template *)

Lemma while_below_tape_floor (floor centre scale : Q) (tp : list Q) :
  forall (j v : Q) (tp' : list Q),
    while_below_tape floor centre scale tp j = (Ok v, tp') -> floor <= v.
Proof.
  induction tp as [| z tp IH]; intros j v tp'; simpl;
    destruct (Qltb j floor) eqn:E; intros H; try discriminate.
  - inversion H; subst. apply Qltb_ge. exact E.
  - eapply IH. exact H.
  - inversion H; subst. apply Qltb_ge. exact E.
Qed.

Lemma while_below_floor (floor centre scale init v : Q) (st st' : state) :
  while_below floor centre scale init st = (Ok v, st') -> floor <= v.
Proof.
  unfold while_below.
  destruct (while_below_tape floor centre scale (tape st) init) as [r tp] eqn:E.
  intros H. inversion H; subst. eapply while_below_tape_floor. exact E.
Qed.

(** The resampling loop ends at the first draw that meets the floor: it
    returns whenever the tape holds such a draw. *)
Lemma while_below_tape_returns (floor centre scale : Q) (tp : list Q) :
  forall j : Q,
    Exists (fun z => floor <= centre + (0 + scale * z)) tp ->
    exists v tp', while_below_tape floor centre scale tp j = (Ok v, tp').
Proof.
  induction tp as [| z tp IH]; intros j Hex; [inversion Hex |].
  simpl. destruct (Qltb j floor) eqn:E; [| eauto].
  inversion Hex as [? ? Hz | ? ? Htl]; subst.
  - destruct tp as [| z' tp]; simpl;
      apply Qltb_ge in Hz; rewrite Hz; eauto.
  - apply IH. exact Htl.
Qed.


Lemma get_object_modes_loop_spec (data : Template) (jms : list nat) :
  Forall (fun jm => jm <> 0%nat) jms ->
  forall (f p t : list Q) (st : state) (f' p' t' : list Q) (st' : state),
    get_object_modes_loop data jms f p t st = (Ok (f', p', t'), st') ->
    exists fn pn tn : list Q,
      f' = f ++ fn /\ p' = p ++ pn /\ t' = t ++ tn /\
      length fn = length jms /\ length pn = length jms /\
      length tn = length jms /\
      Forall (Qle 20) fn /\ Forall in_seconds_floor tn.
Proof.
  induction jms as [| jm jms IH]; intros Hnz f p t st f' p' t' st' H.
  - simpl in H. inversion H; subst.
    exists [], [], []. rewrite !app_nil_r. repeat split; constructor.
  - inversion Hnz as [| ? ? Hjm Hrest]; subst.
    simpl in H. do 6 bind_inv H.
    apply Nat.eqb_neq in Hjm. rewrite Hjm in H.
    apply IH in H as (fn & pn & tn & -> & -> & -> & Lf & Lp & Lt & Ff & Ft);
      [| exact Hrest].
    exists (a0 :: fn), ((a1 + a2) :: pn), ((a4 * 1000) :: tn).
    rewrite <- !app_assoc. simpl. rewrite Lf, Lp, Lt.
    repeat split; try reflexivity.
    + constructor; [| exact Ff]. eapply while_below_floor; eassumption.
    + constructor; [| exact Ft]. exists a4. split; [| reflexivity].
      eapply while_below_floor; eassumption.
Qed.

Lemma in_seconds_floor_ms (t : Q) : in_seconds_floor t -> 1 <= t.
Proof. intros (jt & Hjt & ->). lra. Qed.

(** C7: every ModeSet that [_get_object_modes] returns has three sequences
    of length 10, every frequency at least 20 Hz, and every decay time at
    least 1 ms, being a draw of at least 0.001 s multiplied by 1000. *)
Theorem get_object_modes_bounds (material : Material) (st st' : state)
        (m : Modes) :
  _get_object_modes material st = (Ok m, st') ->
  length (frequencies m) = 10%nat /\
  length (powers m) = 10%nat /\
  length (decay_times m) = 10%nat /\
  Forall (fun f => 20 <= f) (frequencies m) /\
  Forall (fun t => 1 <= t) (decay_times m) /\
  Forall in_seconds_floor (decay_times m).
Proof.
  unfold _get_object_modes. intros H. bind_inv H.
  destruct (material_data a !! material_key material) as [data |];
    [| discriminate].
  bind_inv H. destruct a0 as [[f p] t]. inversion H; subst; clear H. simpl.
  change (seq 0 10) with (0%nat :: seq 1 9) in H1.
  cbn [get_object_modes_loop] in H1. do 6 bind_inv H1.
  change (0 =? 0)%nat with true in H1. cbv iota in H1.
  apply get_object_modes_loop_spec in H1
    as (fn & pn & tn & -> & -> & -> & Lf & Lp & Lt & Ff & Ft).
  - simpl. rewrite Lf, Lp, Lt. simpl.
    assert (Hjf : 20 <= a1) by (eapply while_below_floor; eassumption).
    assert (Hjt : in_seconds_floor (a5 * 1000)).
    { exists a5. split; [| reflexivity].
      eapply while_below_floor; eassumption. }
    repeat split; try reflexivity.
    + constructor; assumption.
    + constructor; [apply in_seconds_floor_ms; exact Hjt |].
      eapply Forall_impl; [exact Ft |]. apply in_seconds_floor_ms.
    + constructor; assumption.
  - repeat constructor; discriminate.
Qed.

(** ** The contact-force pulse *)

Lemma contact_time_pos (mass : Q) : 0 < mass -> 0 < contact_time mass.
Proof.
  intros H. unfold contact_time. apply Q.min_glb_lt; lra.
Qed.

Lemma Qceiling_pos (x : Q) : 0 < x -> (1 <= Qceiling x)%Z.
Proof.
  intros H. pose proof (Qle_ceiling x) as Hc.
  assert (Hlt : inject_Z 0 < inject_Z (Qceiling x)).
  { eapply Qlt_le_trans; [exact H | exact Hc]. }
  rewrite <- Zlt_Qlt in Hlt. lia.
Qed.

Lemma linspace_points (start stop : Q) (num : Z) (tt : list Q) :
  linspace start stop num = Ok tt ->
  (num = 1%Z -> tt = [start]) /\
  ((2 <= num)%Z ->
   last tt = Some stop /\
   forall i : nat,
     (Z.of_nat i < num - 1)%Z ->
     tt !! i = Some (start + inject_Z (Z.of_nat i) *
                             ((stop - start) / inject_Z (num - 1)))).
Proof.
  unfold linspace. destruct (num <? 0)%Z eqn:E; [discriminate |].
  apply Z.ltb_ge in E.
  destruct (Z.to_nat num) as [| [| k]] eqn:En; intros H; inversion H; subst.
  - split; intros; lia.
  - split; [reflexivity | intros; lia].
  - split; [intros; lia |]. intros _. split.
    + apply last_snoc.
    + intros i Hi. rewrite lookup_app_l.
      * unfold arange. rewrite list_lookup_fmap, list_lookup_fmap.
        rewrite lookup_seq_lt by lia. reflexivity.
      * rewrite length_map, arange_length. lia.
Qed.

(** C8: for a positive mass the contact time is [min(0.001 * mass, 0.002)]:
    at most 2 ms, equal to [0.001 * mass] up to the crossover at 2 kg and to
    2 ms from there on; the pulse has [ceil(contact_time * 44100)] samples
    (between 1 and 89), the sine of evenly spaced points from 0 to pi; and
    it is the pulse that [synth_impact_modes] convolves the resonance signal
    with. *)
Theorem contact_pulse_duration (L : MathLib) (mass : Q) :
  0 < mass ->
  contact_time mass <= 0.002 /\
  (mass <= 2 -> contact_time mass == 0.001 * mass) /\
  (2 <= mass -> contact_time mass == 0.002) /\
  n_pts mass = Qceiling (contact_time mass * 44100) /\
  (1 <= n_pts mass <= 89)%Z /\
  exists tt : list Q,
    linspace 0 (math_pi L) (n_pts mass) = Ok tt /\
    length tt = Z.to_nat (n_pts mass) /\
    (exists t0 : Q, tt !! 0%nat = Some t0 /\ t0 == 0) /\
    ((2 <= n_pts mass)%Z -> last tt = Some (math_pi L)) /\
    contact_force L mass = Ok (map (np_sin L) tt) /\
    forall (modes1 modes2 : Modes) (h1 h2 : list Q),
      sum_modes L modes1 44100 = Ok h1 ->
      sum_modes L modes2 44100 = Ok h2 ->
      mode_add h1 h2 <> [] ->
      synth_impact_modes L modes1 modes2 mass =
      (let x := fftconvolve (mode_add h1 h2) (map (np_sin L) tt) in
       mx ← np_max x; Ok (Some (map (fun v => v / Qabs mx) x))).
Proof.
  intros Hm.
  assert (Hn : (1 <= n_pts mass <= 89)%Z).
  { unfold n_pts. split.
    - apply Qceiling_pos. pose proof (contact_time_pos mass Hm). lra.
    - change 89%Z with (Qceiling (0.002 * 44100)). apply Qceiling_resp_le.
      pose proof (Q.le_min_r (0.001 * mass) 0.002) as Hle.
      unfold contact_time. lra. }
  split; [apply Q.le_min_r |].
  split; [intros H; unfold contact_time; apply Q.min_l; lra |].
  split; [intros H; unfold contact_time; apply Q.min_r; lra |].
  split; [reflexivity |]. split; [exact Hn |].
  destruct (linspace 0 (math_pi L) (n_pts mass)) as [tt | e |] eqn:E;
    try (unfold linspace in E;
         destruct (n_pts mass <? 0)%Z eqn:E0;
         [apply Z.ltb_lt in E0; lia |];
         destruct (Z.to_nat (n_pts mass)) as [| [| k]]; discriminate).
  exists tt. pose proof (linspace_points _ _ _ _ E) as [P1 P2].
  split; [reflexivity |].
  split; [eapply linspace_length; exact E |].
  split.
  { destruct (Z.eq_dec (n_pts mass) 1%Z) as [H1 | H1].
    - rewrite (P1 H1). exists 0. split; reflexivity.
    - destruct P2 as [_ P2]; [lia |]. rewrite (P2 0%nat) by lia.
      eexists. split; [reflexivity |]. simpl inject_Z. ring. }
  split; [intros H2; apply P2; exact H2 |].
  split; [unfold contact_force; rewrite E; reflexivity |].
  intros modes1 modes2 h1 h2 Hh1 Hh2 Hne.
  unfold synth_impact_modes. rewrite Hh1, Hh2. simpl.
  destruct (mode_add h1 h2) as [| x0 h] eqn:Eh; [contradiction |].
  simpl. unfold contact_force. rewrite E. reflexivity.
Qed.

(** ** The pair-state dictionary *)

Lemma lookup_pair_insert (om : gmap Z (gmap Z CollisionInfo))
      (inner : gmap Z CollisionInfo) (id2 id1 : Z) (ci : CollisionInfo) :
  lookup_pair (<[id2 := <[id1 := ci]> inner]> om) id2 id1 = Some ci.
Proof.
  unfold lookup_pair. rewrite lookup_insert_eq. simpl.
  apply lookup_insert_eq.
Qed.




Lemma get_pair_Ok (id2 id1 : Z) (st st' : state) (ci : CollisionInfo) :
  get_pair id2 id1 st = (Ok ci, st') ->
  lookup_pair (object_modes (self_ st)) id2 id1 = Some ci /\ st' = st.
Proof.
  unfold get_pair.
  destruct (lookup_pair (object_modes (self_ st)) id2 id1); intros H;
    inversion H; subst. split; reflexivity.
Qed.


Lemma update_pair_Ok (id2 id1 : Z) (f : CollisionInfo -> CollisionInfo)
      (st st' : state) (u : unit) :
  update_pair id2 id1 f st = (Ok u, st') ->
  exists ci,
    lookup_pair (object_modes (self_ st)) id2 id1 = Some ci /\
    lookup_pair (object_modes (self_ st')) id2 id1 = Some (f ci) /\
    config st' = config st /\ tape st' = tape st.
Proof.
  unfold update_pair, lookup_pair.
  destruct (object_modes (self_ st) !! id2) as [inner |] eqn:Ho;
    [| discriminate].
  destruct (inner !! id1) as [ci |] eqn:Hi; [| discriminate].
  intros H. inversion H; subst. exists ci. simpl.
  rewrite lookup_insert_eq. simpl. rewrite lookup_insert_eq.
  repeat split; try reflexivity. exact Hi.
Qed.

Lemma normal_Ok (loc scale x : Q) (st st' : state) :
  normal loc scale st = (Ok x, st') ->
  exists z, tape st = z :: tape st' /\ x = loc + scale * z /\
            self_ st' = self_ st.
Proof.
  unfold normal. destruct (tape st) as [| z tp] eqn:E; intros H;
    inversion H; subst.
  exists z. repeat split; reflexivity.
Qed.

Lemma normal_n_Ok (loc scale : Q) (size : nat) :
  forall (st st' : state) (xs : list Q),
    normal_n loc scale size st = (Ok xs, st') ->
    exists zs, tape st = zs ++ tape st' /\
               xs = map (fun z => loc + scale * z) zs /\
               length zs = size /\ self_ st' = self_ st.
Proof.
  induction size as [| n IH]; intros st st' xs H; simpl in H.
  - inversion H; subst. exists []. repeat split; reflexivity.
  - bind_inv H. bind_inv H. inversion H; subst; clear H.
    apply normal_Ok in H0 as (z & Hz & -> & Hs).
    apply IH in H1 as (zs & Hzs & -> & Hl & Hs').
    exists (z :: zs). simpl. rewrite Hz, Hzs, Hl, Hs', Hs.
    repeat split; reflexivity.
Qed.

Lemma np_add_same_length (a b : list Q) :
  length a = length b -> np_add a b = Ok (zip_with Qplus a b).
Proof.
  intros H. unfold np_add. rewrite H, Nat.eqb_refl. reflexivity.
Qed.

(** ** The two branches of the amplitude re-scaling *)

Ltac lift_inv H :=
  let E := fresh "E" in
  apply lift_Ok in H as [E ->].

Lemma repeat_collision_Ok (L : MathLib) (mass normal_speed : Q) (id1 id2 : Z)
      (st st' : state) (sound : option (list Q)) (a : Q) :
  repeat_collision L mass normal_speed id1 id2 st = (Ok (sound, a), st') ->
  exists (ci : CollisionInfo) (zs1 zs2 p1 p2 : list Q),
    lookup_pair (object_modes (self_ st)) id2 id1 = Some ci /\
    a = amp ci * normal_speed / init_speed ci /\
    tape st = zs1 ++ zs2 ++ tape st' /\
    length zs1 = length (powers (obj1_modes ci)) /\
    length zs2 = length p1 /\
    np_add (powers (obj1_modes ci)) (map (fun z => 0 + 2 * z) zs1) = Ok p1 /\
    np_add (powers (obj2_modes ci)) (map (fun z => 0 + 2 * z) zs2) = Ok p2 /\
    synth_impact_modes L (set_powers (obj1_modes ci) p1)
                       (set_power (obj2_modes ci) p2) mass = Ok sound /\
    lookup_pair (object_modes (self_ st')) id2 id1 =
      Some (mkCollisionInfo (count ci) (amp ci) (init_speed ci)
                            (set_powers (obj1_modes ci) p1)
                            (set_power (obj2_modes ci) p2)) /\
    config st' = config st.
Proof.
  unfold repeat_collision. intros H.
  bind_inv H. apply get_pair_Ok in H0 as [Hci ->]. rename a0 into ci.
  bind_inv H. apply normal_n_Ok in H0 as (zs1 & Ht1 & -> & Hl1 & Hs1).
  bind_inv H. lift_inv H0. rename a0 into p1.
  bind_inv H. apply update_pair_Ok in H0 as (c1 & Hc1 & Hc1' & Hcf1 & Htp1).
  rewrite Hs1, Hci in Hc1. inversion Hc1; subst c1; clear Hc1.
  bind_inv H. apply normal_n_Ok in H0 as (zs2 & Ht2 & -> & Hl2 & Hs2).
  bind_inv H. lift_inv H0. rename a1 into p2.
  bind_inv H. apply update_pair_Ok in H0 as (c2 & Hc2 & Hc2' & Hcf2 & Htp2).
  rewrite Hs2, Hc1' in Hc2. inversion Hc2; subst c2; clear Hc2.
  bind_inv H. lift_inv H0.
  bind_inv H. apply update_pair_Ok in H0 as (c3 & Hc3 & Hc3' & Hcf3 & Htp3).
  rewrite Hc2' in Hc3. inversion Hc3; subst c3; clear Hc3.
  bind_inv H. apply update_pair_Ok in H0 as (c4 & Hc4 & Hc4' & Hcf4 & Htp4).
  rewrite Hc3' in Hc4. inversion Hc4; subst c4; clear Hc4.
  inversion H; subst; clear H.
  exists ci, zs1, zs2, p1, p2.
  split; [exact Hci |]. split; [reflexivity |].
  split.
  { rewrite Ht1. f_equal. rewrite <- Htp1, Ht2. f_equal.
    rewrite Htp4, Htp3, Htp2. reflexivity. }
  split; [exact Hl1 |]. split; [exact Hl2 |].
  split; [exact E |]. split; [exact E0 |]. split; [exact E1 |].
  split; [exact Hc4' |].
  rewrite Hcf4, Hcf3, Hcf2. unfold config in *. rewrite Hs2, Hcf1, Hs1.
  reflexivity.
Qed.


Lemma first_collision_Ok (L : MathLib) (amp2re1 mass normal_speed : Q)
      (id1 id2 : Z) (mat1 mat2 : Material) (st st' : state)
      (sound : option (list Q)) (a : Q) :
  first_collision L amp2re1 mass normal_speed id1 id2 mat1 mat2 st
  = (Ok (sound, a), st') ->
  exists ci : CollisionInfo,
    lookup_pair (object_modes (self_ st)) id2 id1 = Some ci /\
    a = amp ci /\
    synth_impact_modes L (obj1_modes ci)
                       (shifted L amp2re1 (obj2_modes ci)) mass = Ok sound /\
    lookup_pair (object_modes (self_ st')) id2 id1 =
      Some (mkCollisionInfo (count ci) (amp ci) normal_speed (obj1_modes ci)
                            (shifted L amp2re1 (obj2_modes ci))) /\
    config st' = config st /\ tape st' = tape st.
Proof.
  unfold first_collision, make_impact_audio. intros H.
  bind_inv H. destruct a0 as [[snd0 modes_1] modes_2].
  bind_inv H0. apply get_pair_Ok in H1 as [Hci ->]. rename a0 into ci.
  bind_inv H0. apply update_pair_Ok in H1 as (c1 & Hc1 & Hc1' & Hcf1 & Htp1).
  rewrite Hci in Hc1. inversion Hc1; subst c1; clear Hc1.
  bind_inv H0. lift_inv H1. inversion H0; subst; clear H0.
  bind_inv H. apply get_pair_Ok in H0 as [Hc2 ->].
  rewrite Hc1' in Hc2. injection Hc2 as <-.
  bind_inv H. apply update_pair_Ok in H0 as (c3 & Hc3 & Hc3' & Hcf3 & Htp3).
  rewrite Hc1' in Hc3. inversion Hc3; subst c3; clear Hc3.
  bind_inv H. apply update_pair_Ok in H0 as (c4 & Hc4 & Hc4' & Hcf4 & Htp4).
  rewrite Hc3' in Hc4. inversion Hc4; subst c4; clear Hc4.
  bind_inv H. apply update_pair_Ok in H0 as (c5 & Hc5 & Hc5' & Hcf5 & Htp5).
  rewrite Hc4' in Hc5. inversion Hc5; subst c5; clear Hc5.
  inversion H; subst; clear H.
  exists ci. split; [exact Hci |]. split; [reflexivity |].
  split; [exact E |]. split; [exact Hc5' |].
  split; [rewrite Hcf5, Hcf4, Hcf3, Hcf1 | rewrite Htp5, Htp4, Htp3, Htp1];
    reflexivity.
Qed.

(** ** Setting the object modes *)

Lemma while_below_self (floor centre scale init : Q) (st st' : state)
      (r : result Q) :
  while_below floor centre scale init st = (r, st') -> self_ st' = self_ st.
Proof.
  unfold while_below.
  destruct (while_below_tape floor centre scale (tape st) init).
  intros H. inversion H. reflexivity.
Qed.

Lemma normal_self (loc scale : Q) (st st' : state) (r : result Q) :
  normal loc scale st = (r, st') -> self_ st' = self_ st.
Proof.
  unfold normal. destruct (tape st); intros H; inversion H; reflexivity.
Qed.


Lemma reads_tape_bind {A B} (m : M A) (f : A -> M B) :
  reads_tape m -> (forall a, reads_tape (f a)) -> reads_tape (m ≫= f).
Proof.
  intros Hm Hf st. rewrite M_bind_unfold. specialize (Hm st).
  destruct (m st) as [[a | e |] st1]; simpl in *; try exact Hm.
  rewrite Hf. exact Hm.
Qed.

Lemma reads_tape_ret {A} (a : A) : reads_tape (mret a).
Proof. intros st. reflexivity. Qed.

Lemma reads_tape_lift {A} (r : result A) : reads_tape (lift r).
Proof. intros st. reflexivity. Qed.

Lemma reads_tape_raise {A} (e : exn) : reads_tape (@raise A e).
Proof. intros st. reflexivity. Qed.

Lemma reads_tape_normal (loc scale : Q) : reads_tape (normal loc scale).
Proof.
  intros st. destruct (normal loc scale st) as [r st'] eqn:E.
  eapply normal_self. exact E.
Qed.

Lemma reads_tape_while_below (floor centre scale init : Q) :
  reads_tape (while_below floor centre scale init).
Proof.
  intros st. destruct (while_below floor centre scale init st) as [r st'] eqn:E.
  eapply while_below_self. exact E.
Qed.

Lemma reads_tape_normal_n (loc scale : Q) (size : nat) :
  reads_tape (normal_n loc scale size).
Proof.
  induction size as [| n IH]; simpl; [apply reads_tape_ret |].
  apply reads_tape_bind; [apply reads_tape_normal | intros x].
  apply reads_tape_bind; [exact IH | intros xs]. apply reads_tape_ret.
Qed.

Lemma reads_tape_get_self : reads_tape get_self.
Proof. intros st. reflexivity. Qed.

Lemma reads_tape_loop (data : Template) (jms : list nat) :
  forall f p t : list Q, reads_tape (get_object_modes_loop data jms f p t).
Proof.
  induction jms as [| jm jms IH]; intros f p t; simpl;
    [apply reads_tape_ret |].
  repeat (apply reads_tape_bind;
          [first [apply reads_tape_lift | apply reads_tape_while_below
                 | apply reads_tape_normal] | intros ?]).
  destruct (jm =? 0)%nat; apply IH.
Qed.

Lemma reads_tape_get_object_modes (material : Material) :
  reads_tape (_get_object_modes material).
Proof.
  unfold _get_object_modes.
  apply reads_tape_bind; [apply reads_tape_get_self | intros self].
  destruct (material_data self !! material_key material) as [data |];
    [| apply reads_tape_raise].
  apply reads_tape_bind; [apply reads_tape_loop | intros [[f p] t]].
  apply reads_tape_ret.
Qed.

Lemma reads_tape_run {A} (m : M A) (st st' : state) (r : result A) :
  reads_tape m -> m st = (r, st') -> self_ st' = self_ st.
Proof. intros Hm H. specialize (Hm st). rewrite H in Hm. exact Hm. Qed.

Lemma lookup_pair_fresh (om : gmap Z (gmap Z CollisionInfo)) (id2 id1 : Z) :
  lookup_pair (<[id2 := ∅]> om) id2 id1 = None.
Proof.
  unfold lookup_pair. rewrite lookup_insert_eq. simpl. apply lookup_empty.
Qed.

Lemma lookup_pair_outer_None (om : gmap Z (gmap Z CollisionInfo))
      (id2 id1 : Z) :
  om !! id2 = None -> lookup_pair om id2 id1 = None.
Proof. intros H. unfold lookup_pair. rewrite H. reflexivity. Qed.

(** After the first statements of [get_sound] the pair has an entry: the
    one it had, or a fresh one with count 0, the configured amplitude and
    the default reference speed. *)
Lemma set_object_modes_of_Ok (id1 : Z) (mat1 : Material) (id2 : Z)
      (mat2 : Material) (st st1 : state) (u : unit) :
  set_object_modes_of id1 mat1 id2 mat2 st = (Ok u, st1) ->
  config st1 = config st /\
  exists ci1 : CollisionInfo,
    lookup_pair (object_modes (self_ st1)) id2 id1 = Some ci1 /\
    match lookup_pair (object_modes (self_ st)) id2 id1 with
    | Some ci => ci1 = ci /\ tape st1 = tape st
    | None => count ci1 = 0%nat /\ amp ci1 = initial_amp (self_ st) /\
              init_speed ci1 = 1
    end.
Proof.
  unfold set_object_modes_of. intros H.
  bind_inv H. inversion H0; subst; clear H0.
  bind_inv H. inversion H0; subst; clear H0.
  set (om' := match object_modes (self_ st0) !! id2 with
              | Some _ => object_modes (self_ st0)
              | None => <[id2:=∅]> (object_modes (self_ st0))
              end) in *.
  assert (Hom : lookup_pair om' id2 id1
                = lookup_pair (object_modes (self_ st0)) id2 id1).
  { subst om'. destruct (object_modes (self_ st0) !! id2) eqn:E;
      [reflexivity |].
    rewrite lookup_pair_fresh, lookup_pair_outer_None; auto. }
  destruct (lookup_pair om' id2 id1) as [ci |] eqn:Hl.
  - inversion H; subst; clear H. split; [reflexivity |].
    exists ci. simpl. rewrite <- Hom. split; [exact Hl |].
    split; reflexivity.
  - rewrite <- Hom. bind_inv H. bind_inv H.
    pose proof (reads_tape_run _ _ _ _ (reads_tape_get_object_modes mat2) H0)
      as Hs1.
    pose proof (reads_tape_run _ _ _ _ (reads_tape_get_object_modes mat1) H1)
      as Hs2.
    inversion H; subst; clear H. unfold config. simpl.
    rewrite Hs2, Hs1. simpl. split; [reflexivity |].
    eexists. split; [apply lookup_pair_insert |].
    repeat split; reflexivity.
Qed.

(** ** The structure of a call of [get_sound] *)

Section GetSound.
Context (L : MathLib).
Context (collision : CollisionData) (rigidbodies : list Rigidbody).
Context (id1 : Z) (mat1 : Material) (id2 : Z) (mat2 : Material).
Context (amp2re1 : Q).


Lemma get_sound_Some (st st' : state) (b : Base64Sound) :
  get_sound L collision rigidbodies id1 mat1 id2 mat2 amp2re1 st
  = (Ok (Some b), st') ->
  exists (st1 st2 : state) (ci ci2 : CollisionInfo) (m1 m2 : Q)
         (sound out : list Q) (a : Q),
    set_object_modes_of id1 mat1 id2 mat2 st = (Ok tt, st1) /\
    unresolved collision rigidbodies id1 id2 = false /\
    mass_1 collision rigidbodies id1 = Ok m1 /\
    mass_2 rigidbodies id2 = Ok m2 /\
    lookup_pair (object_modes (self_ st1)) id2 id1 = Some ci /\
    rescale L collision rigidbodies id1 mat1 id2 mat2 amp2re1 ci
            (Qmin m1 m2) st1 = (Ok (Some sound, a), st2) /\
    lookup_pair (object_modes (self_ st2)) id2 id1 = Some ci2 /\
    lookup_pair (object_modes (self_ st')) id2 id1
    = Some (count_collisions ci2) /\
    config st' = config st2 /\ tape st' = tape st2 /\
    scale_sound (clamp_amp (prevent_distortion (self_ st2)) a) sound
    = Ok out /\
    b = new_Base64Sound out.
Proof.
  unfold get_sound. intros H.
  step_inv H as [] st1 Hset.
  fold (unresolved collision rigidbodies id1 id2) in H.
  destruct (unresolved collision rigidbodies id1 id2) eqn:Hu;
    [discriminate |].
  step_inv H as m1 sa Hm1. step_inv H as m2 sb Hm2. lift_inv Hm2.
  step_inv H as ci sc Hci. apply get_pair_Ok in Hci as [Hci ->].
  step_inv H as [[sound |] a] st2 Hbr; [| discriminate].
  step_inv H as [] sd Hup.
  apply update_pair_Ok in Hup as (ci2 & Hc2 & Hc2' & Hcf & Htp).
  step_inv H as self se Hself. inversion Hself; subst; clear Hself.
  step_inv H as out sf Hout. lift_inv Hout. inversion H; subst; clear H.
  exists st1, st2, ci, ci2, m1, m2, sound, out, a.
  split; [exact Hset |]. split; [reflexivity |].
  assert (Hsa : mass_1 collision rigidbodies id1 = Ok m1 /\ sa = st1).
  { unfold mass_1. destruct (is_Collision collision).
    - lift_inv Hm1. split; [assumption | reflexivity].
    - inversion Hm1; subst. split; reflexivity. }
  destruct Hsa as [Hm1' ->].
  split; [exact Hm1' |]. split; [assumption |]. split; [exact Hci |].
  split; [exact Hbr |].
  split; [exact Hc2 |]. split; [exact Hc2' |]. split; [exact Hcf |].
  split; [exact Htp |]. split; [| reflexivity].
  assert (Hpd : prevent_distortion (self_ st')
                = prevent_distortion (self_ st2)).
  { unfold config in Hcf. congruence. }
  rewrite <- Hpd. assumption.
Qed.

End GetSound.

(** ** Repeat collisions *)

(** Everything a successful repeat collision does: the draws it takes, the
    ModeSets it synthesizes from and stores, the amplitude it scales the
    signal by, and the entry it leaves. *)
Lemma get_sound_repeat (L : MathLib) (collision : CollisionData)
      (rigidbodies : list Rigidbody) (id1 : Z) (mat1 : Material) (id2 : Z)
      (mat2 : Material) (amp2re1 : Q) (st st' : state) (ci : CollisionInfo)
      (b : Base64Sound) :
  lookup_pair (object_modes (self_ st)) id2 id1 = Some ci ->
  (0 < count ci)%nat ->
  get_sound L collision rigidbodies id1 mat1 id2 mat2 amp2re1 st
  = (Ok (Some b), st') ->
  exists (m1 m2 : Q) (zs1 zs2 p1 p2 sound out : list Q),
    mass_1 collision rigidbodies id1 = Ok m1 /\
    mass_2 rigidbodies id2 = Ok m2 /\
    tape st = zs1 ++ zs2 ++ tape st' /\
    length zs1 = length (powers (obj1_modes ci)) /\
    length zs2 = length p1 /\
    np_add (powers (obj1_modes ci)) (map (fun z => 0 + 2 * z) zs1) = Ok p1 /\
    np_add (powers (obj2_modes ci)) (map (fun z => 0 + 2 * z) zs2) = Ok p2 /\
    synth_impact_modes L (set_powers (obj1_modes ci) p1)
                       (set_power (obj2_modes ci) p2) (Qmin m1 m2)
    = Ok (Some sound) /\
    scale_sound
      (clamp_amp (prevent_distortion (self_ st))
                 (amp ci * normal_speed_of L collision rigidbodies id2
                  / init_speed ci))
      sound = Ok out /\
    b = new_Base64Sound out /\
    lookup_pair (object_modes (self_ st')) id2 id1 =
      Some (mkCollisionInfo (count ci + 1) (amp ci) (init_speed ci)
                            (set_powers (obj1_modes ci) p1)
                            (set_power (obj2_modes ci) p2)) /\
    config st' = config st.
Proof.
  intros Hci Hcount H.
  apply get_sound_Some in H
    as (st1 & st2 & ci0 & ci2 & m1 & m2 & sound & out & a & Hset & _ & Hm1
        & Hm2 & Hci0 & Hbr & Hci2 & Hci' & Hcf & Htp & Hout & ->).
  apply set_object_modes_of_Ok in Hset as (Hcf1 & ci1 & Hci1 & Hsame).
  rewrite Hci in Hsame. destruct Hsame as [-> Htp1].
  rewrite Hci1 in Hci0. injection Hci0 as <-.
  unfold rescale in Hbr.
  destruct (Nat.eqb_spec (count ci) 0) as [E | _]; [lia |].
  apply repeat_collision_Ok in Hbr
    as (c & zs1 & zs2 & p1 & p2 & Hc & -> & Ht & Hl1 & Hl2 & Hp1 & Hp2 & Hs
        & Hst2 & Hcf2).
  rewrite Hci1 in Hc. injection Hc as <-.
  rewrite Hst2 in Hci2. injection Hci2 as <-.
  exists m1, m2, zs1, zs2, p1, p2, sound, out.
  assert (Hpd : prevent_distortion (self_ st2) = prevent_distortion (self_ st)).
  { unfold config in *. congruence. }
  rewrite Hpd in Hout.
  split; [exact Hm1 |]. split; [exact Hm2 |].
  split; [rewrite <- Htp1, Htp; exact Ht |].
  split; [exact Hl1 |]. split; [exact Hl2 |].
  split; [exact Hp1 |]. split; [exact Hp2 |].
  split; [exact Hs |]. split; [exact Hout |]. split; [reflexivity |].
  split; [exact Hci' |]. rewrite Hcf, Hcf2. exact Hcf1.
Qed.

(** ** The collision count *)


Lemma scale_sound_nonempty (a : Q) (sound : list Q) :
  sound <> [] -> exists out, scale_sound a sound = Ok out.
Proof.
  intros H. unfold scale_sound. destruct sound as [| x sound];
    [contradiction |]. simpl. eauto.
Qed.

Lemma fftconvolve_nil_l (b : list Q) : fftconvolve [] b = [].
Proof. reflexivity. Qed.

Lemma synth_impact_modes_nonempty (L : MathLib) (modes1 modes2 : Modes)
      (mass : Q) (sound : list Q) :
  synth_impact_modes L modes1 modes2 mass = Ok (Some sound) -> sound <> [].
Proof.
  unfold synth_impact_modes. intros H.
  apply result_bind_Ok in H as (h1 & _ & H).
  apply result_bind_Ok in H as (h2 & _ & H).
  destruct (length (mode_add h1 h2) =? 0)%nat; [discriminate |].
  apply result_bind_Ok in H as (frc & _ & H).
  apply result_bind_Ok in H as (mx & Hmx & H).
  inversion H; subst; clear H.
  destruct (fftconvolve (mode_add h1 h2) frc); [discriminate |].
  discriminate.
Qed.

Section Counting.
Context (L : MathLib) (id2 id1 : Z).

Local Abbreviation cnt := (pair_count id2 id1).


Lemma keeps_bind {A B} (m : M A) (f : A -> M B) (P : A -> Prop)
      (R : B -> Prop) :
  keeps id2 id1 m P -> (forall a, P a -> keeps id2 id1 (f a) R) -> keeps id2 id1 (m ≫= f) R.
Proof.
  intros Hm Hf st. rewrite M_bind_unfold. destruct (Hm st) as [Hc HP].
  destruct (m st) as [[a | e |] st1]; simpl in *;
    try (split; [exact Hc | intros ? ?; discriminate]).
  destruct (Hf a (HP a eq_refl) st1) as [Hc' HR].
  split; [rewrite Hc'; exact Hc | exact HR].
Qed.

Lemma keeps_weaken {A} (m : M A) (P R : A -> Prop) :
  keeps id2 id1 m P -> (forall a, P a -> R a) -> keeps id2 id1 m R.
Proof.
  intros Hm HPR st. destruct (Hm st) as [Hc HP].
  split; [exact Hc | intros a Ha; apply HPR, HP, Ha].
Qed.

Lemma keeps_ret {A} (a : A) (P : A -> Prop) : P a -> keeps id2 id1 (mret a) P.
Proof.
  intros HP st. split; [reflexivity |].
  intros a' H. inversion H; subst. exact HP.
Qed.

Lemma keeps_lift {A} (r : result A) (P : A -> Prop) :
  (forall a, r = Ok a -> P a) -> keeps id2 id1 (lift r) P.
Proof. intros HP st. split; [reflexivity | exact HP]. Qed.

Lemma keeps_reads_tape {A} (m : M A) :
  reads_tape m -> keeps id2 id1 m (fun _ => True).
Proof.
  intros Hm st. split; [| intros; exact I].
  unfold pair_count. rewrite Hm. reflexivity.
Qed.

Lemma keeps_get_pair : keeps id2 id1 (get_pair id2 id1) (fun _ => True).
Proof.
  intros st. unfold get_pair.
  destruct (lookup_pair (object_modes (self_ st)) id2 id1);
    (split; [reflexivity | intros; exact I]).
Qed.

Lemma keeps_update_pair (f : CollisionInfo -> CollisionInfo) :
  (forall ci, count (f ci) = count ci) ->
  keeps id2 id1 (update_pair id2 id1 f) (fun _ => True).
Proof.
  intros Hf st. split; [| intros; exact I].
  destruct (update_pair id2 id1 f st) as [[u | e |] st'] eqn:E.
  - apply update_pair_Ok in E as (ci & Hci & Hci' & _).
    simpl. unfold pair_count. rewrite Hci, Hci'. apply Hf.
  - unfold update_pair in E.
    destruct (object_modes (self_ st) !! id2) as [inner |];
      [destruct (inner !! id1) |]; inversion E; subst; reflexivity.
  - unfold update_pair in E.
    destruct (object_modes (self_ st) !! id2) as [inner |];
      [destruct (inner !! id1) |]; inversion E.
Qed.

Lemma keeps_set_object_modes_of (mat1 mat2 : Material) :
  keeps id2 id1 (set_object_modes_of id1 mat1 id2 mat2) (fun _ => True).
Proof.
  intros st. split; [| intros; exact I].
  unfold set_object_modes_of. rewrite M_bind_unfold. simpl.
  rewrite M_bind_unfold. simpl.
  set (om' := match object_modes (self_ st) !! id2 with
              | Some _ => object_modes (self_ st)
              | None => <[id2:=∅]> (object_modes (self_ st))
              end).
  assert (Hom : lookup_pair om' id2 id1
                = lookup_pair (object_modes (self_ st)) id2 id1).
  { subst om'. destruct (object_modes (self_ st) !! id2) eqn:E;
      [reflexivity |].
    rewrite lookup_pair_fresh, lookup_pair_outer_None; auto. }
  unfold pair_count at 2. rewrite <- Hom.
  destruct (lookup_pair om' id2 id1) as [ci |] eqn:Hl.
  - unfold pair_count. simpl. rewrite Hl. reflexivity.
  - rewrite M_bind_unfold.
    match goal with
    | |- context [_get_object_modes mat2 ?s] =>
        destruct (_get_object_modes mat2 s) as [[a | e |] sa] eqn:Ea
    end;
      apply (reads_tape_run _ _ _ _ (reads_tape_get_object_modes mat2))
        in Ea; simpl in Ea;
      try (unfold pair_count; simpl; rewrite Ea; simpl; rewrite Hl;
           reflexivity).
    rewrite M_bind_unfold.
    destruct (_get_object_modes mat1 sa) as [[b | e |] sb] eqn:Eb;
      apply (reads_tape_run _ _ _ _ (reads_tape_get_object_modes mat1))
        in Eb;
      try (unfold pair_count; simpl; rewrite Eb, Ea; simpl; rewrite Hl;
           reflexivity).
    unfold pair_count. simpl. rewrite lookup_pair_insert. reflexivity.
Qed.

End Counting.

Section CountingSound.
Context (L : MathLib) (id2 id1 : Z).

Local Abbreviation cnt := (pair_count id2 id1).


Lemma keeps_synth (modes1 modes2 : Modes) (mass : Q) :
  keeps id2 id1 (lift (synth_impact_modes L modes1 modes2 mass)) audible.
Proof.
  apply keeps_lift. intros sound H s ->.
  eapply synth_impact_modes_nonempty. exact H.
Qed.

Lemma keeps_first_collision (amp2re1 mass normal_speed : Q)
      (mat1 mat2 : Material) :
  keeps id2 id1
        (first_collision L amp2re1 mass normal_speed id1 id2 mat1 mat2)
        (fun r => audible r.1).
Proof.
  unfold first_collision, make_impact_audio.
  eapply keeps_bind with (P := fun r => audible r.1.1).
  - eapply keeps_bind; [apply keeps_get_pair | intros ci _].
    eapply keeps_bind;
      [apply keeps_update_pair; reflexivity | intros _ _].
    eapply keeps_bind; [apply keeps_synth | intros snth Hs].
    apply keeps_ret. exact Hs.
  - intros [[sound modes_1] modes_2] Hs. simpl in Hs.
    eapply keeps_bind; [apply keeps_get_pair | intros ci _].
    repeat (eapply keeps_bind;
            [apply keeps_update_pair; reflexivity | intros _ _]).
    apply keeps_ret. exact Hs.
Qed.

Lemma keeps_repeat_collision (mass normal_speed : Q) :
  keeps id2 id1 (repeat_collision L mass normal_speed id1 id2)
        (fun r => audible r.1).
Proof.
  unfold repeat_collision.
  eapply keeps_bind; [apply keeps_get_pair | intros ci _].
  eapply keeps_bind;
    [apply keeps_reads_tape, reads_tape_normal_n | intros n1 _].
  eapply keeps_bind;
    [apply keeps_lift with (P := fun _ => True); auto | intros p1 _].
  eapply keeps_bind; [apply keeps_update_pair; reflexivity | intros _ _].
  eapply keeps_bind;
    [apply keeps_reads_tape, reads_tape_normal_n | intros n2 _].
  eapply keeps_bind;
    [apply keeps_lift with (P := fun _ => True); auto | intros p2 _].
  eapply keeps_bind; [apply keeps_update_pair; reflexivity | intros _ _].
  eapply keeps_bind; [apply keeps_synth | intros sound Hs].
  repeat (eapply keeps_bind;
          [apply keeps_update_pair; reflexivity | intros _ _]).
  apply keeps_ret. exact Hs.
Qed.


Lemma counts_bind {A} (m : M A) (f : A -> M (option Base64Sound))
      (P : A -> Prop) :
  keeps id2 id1 m P -> (forall a, P a -> counts id2 id1 (f a)) ->
  counts id2 id1 (m ≫= f).
Proof.
  intros Hm Hf st. rewrite M_bind_unfold. destruct (Hm st) as [Hc HP].
  destruct (m st) as [[a | e |] st1]; simpl in *; try exact Hc.
  specialize (Hf a (HP a eq_refl) st1). rewrite <- Hc. exact Hf.
Qed.

Lemma counts_silent : counts id2 id1 (mret None).
Proof. intros st. reflexivity. Qed.

Lemma counts_sound (amp : Q) (sound : list Q) :
  sound <> [] ->
  counts id2 id1 (update_pair id2 id1 count_collisions;;
          self ← get_self;
          let amp := clamp_amp (prevent_distortion self) amp in
          sound ← lift (scale_sound amp sound);
          mret (Some (new_Base64Sound sound))).
Proof.
  intros Hne st. rewrite M_bind_unfold.
  destruct (update_pair id2 id1 count_collisions st) as [[u | e |] st1]
    eqn:E.
  - apply update_pair_Ok in E as (ci & Hci & Hci' & _).
    rewrite M_bind_unfold. simpl. rewrite M_bind_unfold.
    destruct (scale_sound_nonempty
                (clamp_amp (prevent_distortion (self_ st1)) amp) sound Hne)
      as [out Hout].
    unfold lift. rewrite Hout. simpl.
    unfold pair_count. rewrite Hci, Hci'. reflexivity.
  - unfold update_pair in E. unfold pair_count.
    destruct (object_modes (self_ st) !! id2) as [inner |];
      [destruct (inner !! id1) |]; inversion E; subst; reflexivity.
  - unfold update_pair in E.
    destruct (object_modes (self_ st) !! id2) as [inner |];
      [destruct (inner !! id1) |]; inversion E.
Qed.

End CountingSound.

(** C10: a call of [get_sound] that returns a sound adds one to the
    collision count of the pair; every other call (one that returns no
    sound, because a body of a body-body collision is not in the snapshot or
    because the synthesized signal has length zero, and also one that ends
    in an exception) leaves the count as it was.  A pair that has no entry
    yet counts as 0. *)
Theorem get_sound_counts (L : MathLib) (collision : CollisionData)
        (rigidbodies : list Rigidbody) (id1 : Z) (mat1 : Material) (id2 : Z)
        (mat2 : Material) (amp2re1 : Q) (st : state) :
  match get_sound L collision rigidbodies id1 mat1 id2 mat2 amp2re1 st with
  | (Ok (Some _), st') =>
      pair_count id2 id1 st' = (pair_count id2 id1 st + 1)%nat
  | (_, st') => pair_count id2 id1 st' = pair_count id2 id1 st
  end.
Proof.
  revert st. change (counts id2 id1
    (get_sound L collision rigidbodies id1 mat1 id2 mat2 amp2re1)).
  unfold get_sound.
  eapply counts_bind; [apply keeps_set_object_modes_of | intros _ _].
  destruct (is_Collision collision
            && (is_None (last_index rigidbodies id1 0 None)
                || is_None (last_index rigidbodies id2 0 None)));
    [apply counts_silent |].
  eapply counts_bind with (P := fun _ => True).
  { destruct (is_Collision collision);
      [apply keeps_lift | apply keeps_ret]; auto. }
  intros m1 _.
  eapply counts_bind; [apply keeps_lift with (P := fun _ => True); auto |].
  intros m2 _.
  eapply counts_bind; [apply keeps_get_pair | intros ci _].
  eapply counts_bind with (P := fun r => audible r.1).
  { destruct (count ci =? 0)%nat;
      [apply keeps_first_collision | apply keeps_repeat_collision]. }
  intros [[sound |] amp] Hs; simpl in Hs; [| apply counts_silent].
  apply counts_sound. apply Hs. reflexivity.
Qed.

(** ** Normalisation and the amplitude *)

Lemma fold_left_Qmax_spec (l : list Q) :
  forall v : Q,
    (fold_left Qmax l v = v \/ In (fold_left Qmax l v) l) /\
    v <= fold_left Qmax l v /\
    Forall (fun x => x <= fold_left Qmax l v) l.
Proof.
  induction l as [| y l IH]; intros v; simpl.
  - split; [left; reflexivity |]. split; [apply Qle_refl | constructor].
  - destruct (IH (Qmax v y)) as (Hin & Hle & Hall).
    assert (Hv : v <= Qmax v y) by apply Q.le_max_l.
    assert (Hy : y <= Qmax v y) by apply Q.le_max_r.
    split; [| split].
    + destruct Hin as [Heq | Hin]; [| right; right; exact Hin].
      rewrite Heq. unfold Qmax, GenericMinMax.gmax.
      destruct (v ?= y); auto.
    + eapply Qle_trans; eassumption.
    + constructor; [eapply Qle_trans; eassumption | exact Hall].
Qed.

Lemma np_max_spec (x : list Q) (mx : Q) :
  np_max x = Ok mx -> In mx x /\ Forall (fun v => v <= mx) x.
Proof.
  destruct x as [| v x]; simpl; intros H; inversion H; subst; clear H.
  destruct (fold_left_Qmax_spec x v) as (Hin & Hle & Hall).
  split; [destruct Hin as [-> | Hin]; auto |].
  constructor; assumption.
Qed.

Lemma Qabs_scaled (a x mx : Q) :
  0 < mx -> Qabs (a * x / mx) == Qabs a * (Qabs x / mx).
Proof.
  intros Hmx. unfold Qdiv.
  rewrite !Qabs_Qmult, Qabs_Qinv, (Qabs_pos mx) by lra. ring.
Qed.

(** The signal scaled by [a] over its peak has peak [|a|]. *)
Lemma scale_sound_peak (a : Q) (sound : list Q) (mx : Q) :
  np_max (map Qabs sound) = Ok mx -> 0 < mx ->
  exists (out : list Q) (mo : Q),
    scale_sound a sound = Ok out /\
    np_max (map Qabs out) = Ok mo /\ mo == Qabs a.
Proof.
  intros Hmx Hpos. unfold scale_sound. rewrite Hmx. simpl.
  set (out := map (fun s => a * s / mx) sound).
  destruct (np_max (map Qabs out)) as [mo | e |] eqn:Hmo;
    try (destruct sound; [discriminate | simpl in Hmo; discriminate]).
  exists out, mo. split; [reflexivity |]. split; [exact Hmo |].
  apply np_max_spec in Hmx as (Hin & Hall).
  apply np_max_spec in Hmo as (Hin' & Hall').
  apply in_map_iff in Hin as (xs & Hxs & Hxs_in).
  apply in_map_iff in Hin' as (y & Hy & Hy_in).
  subst out. apply in_map_iff in Hy_in as (x0 & <- & Hx0).
  assert (Hinv : mx * / mx == 1) by (apply Qmult_inv_r; lra).
  apply Qle_antisym.
  - rewrite <- Hy, Qabs_scaled by exact Hpos.
    rewrite List.Forall_forall in Hall.
    assert (Hx0' : Qabs x0 <= mx) by (apply Hall, in_map, Hx0).
    assert (Hq : Qabs x0 / mx <= 1).
    { apply Qle_shift_div_r; [exact Hpos | lra]. }
    pose proof (Qabs_nonneg a) as Ha.
    generalize dependent (Qabs x0 / mx). generalize dependent (Qabs a).
    intros A HA q Hq. nra.
  - rewrite List.Forall_forall in Hall'.
    assert (Hle : Qabs (a * xs / mx) <= mo).
    { apply Hall'. apply in_map. apply in_map_iff. exists xs.
      split; [reflexivity | exact Hxs_in]. }
    rewrite Qabs_scaled in Hle by exact Hpos. rewrite Hxs in Hle.
    unfold Qdiv in Hle. rewrite Hinv in Hle. lra.
Qed.

Lemma clamp_amp_bound (a : Q) : clamp_amp true a <= 0.99.
Proof.
  unfold clamp_amp. simpl. destruct (Qltb 0.99 a) eqn:E;
    [apply Qle_refl | apply Qltb_ge; exact E].
Qed.

Lemma clamp_amp_id (prevent : bool) (a : Q) :
  prevent = false \/ a <= 0.99 -> clamp_amp prevent a = a.
Proof.
  unfold clamp_amp. intros [-> | H]; [reflexivity |].
  apply Qltb_ge in H. rewrite H, andb_false_r. reflexivity.
Qed.

Lemma clamp_amp_cap (a : Q) : 0.99 < a -> clamp_amp true a = 0.99.
Proof.
  unfold clamp_amp. intros H. apply Qltb_lt in H. rewrite H. reflexivity.
Qed.

Lemma rescale_config (L : MathLib) (collision : CollisionData)
      (rigidbodies : list Rigidbody) (id1 : Z) (mat1 : Material) (id2 : Z)
      (mat2 : Material) (amp2re1 : Q) (ci : CollisionInfo) (mass : Q)
      (st1 st2 : state) (r : option (list Q) * Q) :
  rescale L collision rigidbodies id1 mat1 id2 mat2 amp2re1 ci mass st1
  = (Ok r, st2) ->
  config st2 = config st1.
Proof.
  unfold rescale. destruct r as [sound a].
  destruct (count ci =? 0)%nat; intros H.
  - apply first_collision_Ok in H as (c & _ & _ & _ & _ & Hcf & _).
    exact Hcf.
  - apply repeat_collision_Ok in H
      as (c & zs1 & zs2 & p1 & p2 & _ & _ & _ & _ & _ & _ & _ & _ & _ & Hcf).
    exact Hcf.
Qed.

(** C5 (amended): when [get_sound] returns a sound, the output is the
    signal [sound] of the branch scaled by [a / max(|sound|)], where [a] is
    the amplitude after the distortion clamp; with distortion prevention
    [a <= 0.99]; and whenever the signal has a positive peak, the peak
    absolute value of the output equals [|a|], hence [a] itself when [a]
    is not negative.  The entry [ci] of the branch is the one the pair had
    before the call, or a new one that has counted no collision; the
    amplitude before the clamp is the stored one on a first collision
    and, on a repeat collision, the quotient of the
    stored amplitude times the normal speed by the reference speed.  This
    is for an amplitude that is a number: on a repeat collision the
    reference speed is not zero and the normal speed of the event is
    defined (in floating point the quotient is [inf] or [nan] otherwise). *)
Theorem get_sound_peak (L : MathLib) (collision : CollisionData)
        (rigidbodies : list Rigidbody) (id1 : Z) (mat1 : Material) (id2 : Z)
        (mat2 : Material) (amp2re1 : Q) (st st' : state) (b : Base64Sound) :
  amplitude_defined collision rigidbodies id2 id1 st ->
  get_sound L collision rigidbodies id1 mat1 id2 mat2 amp2re1 st
  = (Ok (Some b), st') ->
  exists (ci : CollisionInfo) (mass raw : Q) (st1 st2 : state)
         (sound out : list Q),
    rescale L collision rigidbodies id1 mat1 id2 mat2 amp2re1 ci mass st1
    = (Ok (Some sound, raw), st2) /\
    match lookup_pair (object_modes (self_ st)) id2 id1 with
    | Some ci0 => ci = ci0
    | None => count ci = 0%nat
    end /\
    (count ci = 0%nat -> raw = amp ci) /\
    ((0 < count ci)%nat ->
     ~ init_speed ci == 0 /\
     raw * init_speed ci
     == amp ci * normal_speed_of L collision rigidbodies id2) /\
    let a := clamp_amp (prevent_distortion (self_ st)) raw in
    scale_sound a sound = Ok out /\
    b = new_Base64Sound out /\
    (prevent_distortion (self_ st) = true -> a <= 0.99) /\
    forall mx : Q,
      np_max (map Qabs sound) = Ok mx -> 0 < mx ->
      exists mo : Q,
        np_max (map Qabs out) = Ok mo /\ mo == Qabs a /\
        (0 <= a -> mo == a).
Proof.
  intros Hdef H.
  apply get_sound_Some in H
    as (st1 & st2 & ci & ci2 & m1 & m2 & sound & out & raw & Hset & _ & _
        & _ & Hci & Hbr & _ & _ & _ & _ & Hout & ->).
  apply set_object_modes_of_Ok in Hset as (Hcf1 & ci1 & Hci1 & Hsame).
  rewrite Hci1 in Hci. injection Hci as <-.
  pose proof (rescale_config _ _ _ _ _ _ _ _ _ _ _ _ _ Hbr) as Hcf2.
  assert (Hpd : prevent_distortion (self_ st2) = prevent_distortion (self_ st)).
  { unfold config in *. congruence. }
  rewrite Hpd in Hout.
  exists ci1, (Qmin m1 m2), raw, st1, st2, sound, out.
  split; [exact Hbr |].
  split.
  { destruct (lookup_pair (object_modes (self_ st)) id2 id1);
      [apply Hsame | apply Hsame]. }
  split.
  { intros Hzero. unfold rescale in Hbr. rewrite Hzero in Hbr. simpl in Hbr.
    apply first_collision_Ok in Hbr as (c & Hc & -> & _).
    rewrite Hci1 in Hc. injection Hc as <-. reflexivity. }
  split.
  { intros Hpos.
    assert (Hnz : ~ init_speed ci1 == 0).
    { destruct (lookup_pair (object_modes (self_ st)) id2 id1) as [ci0 |]
        eqn:Hci0.
      - destruct Hsame as [-> _]. apply (Hdef ci0 Hci0 Hpos).
      - destruct Hsame as (Hcount & _). lia. }
    split; [exact Hnz |].
    unfold rescale in Hbr.
    destruct (Nat.eqb_spec (count ci1) 0) as [E | _]; [lia |].
    apply repeat_collision_Ok in Hbr as (c & zs1 & zs2 & p1 & p2 & Hc & -> & _).
    rewrite Hci1 in Hc. injection Hc as <-. field. exact Hnz. }
  cbv zeta.
  split; [exact Hout |]. split; [reflexivity |].
  split; [intros ->; apply clamp_amp_bound |].
  intros mx Hmx Hpos.
  destruct (scale_sound_peak
              (clamp_amp (prevent_distortion (self_ st)) raw) sound mx Hmx Hpos)
    as (out' & mo & Hout' & Hmo & Heq).
  rewrite Hout in Hout'. injection Hout' as <-.
  exists mo. split; [exact Hmo |]. split; [exact Heq |].
  intros Ha. rewrite Heq. apply Qabs_pos. exact Ha.
Qed.

(** C6 (amended): on a repeat collision that returns a sound, for a stored
    reference speed that is not zero and an event whose normal speed is
    defined, the signal is scaled by the stored amplitude times the ratio
    of the current normal speed to the stored reference speed, capped at
    0.99 when distortion prevention is on: the product itself when
    prevention is off or the product is at most 0.99, and 0.99 otherwise.
    The stored amplitude and reference speed are left as they were.  (For
    a reference speed of zero the quotient of the floats is [inf] or [nan],
    and nothing is stated.) *)
Theorem repeat_collision_amplitude (L : MathLib) (collision : CollisionData)
        (rigidbodies : list Rigidbody) (id1 : Z) (mat1 : Material) (id2 : Z)
        (mat2 : Material) (amp2re1 : Q) (st st' : state) (ci : CollisionInfo)
        (b : Base64Sound) :
  lookup_pair (object_modes (self_ st)) id2 id1 = Some ci ->
  (0 < count ci)%nat ->
  ratio_defined collision rigidbodies id2 ci ->
  get_sound L collision rigidbodies id1 mat1 id2 mat2 amp2re1 st
  = (Ok (Some b), st') ->
  let product :=
    amp ci * normal_speed_of L collision rigidbodies id2 / init_speed ci in
  let prevent := prevent_distortion (self_ st) in
  exists (ci' : CollisionInfo) (mass : Q) (sound out : list Q),
    synth_impact_modes L (obj1_modes ci') (obj2_modes ci') mass
    = Ok (Some sound) /\
    scale_sound (clamp_amp prevent product) sound = Ok out /\
    b = new_Base64Sound out /\
    (prevent = false \/ product <= 0.99 -> clamp_amp prevent product = product) /\
    (prevent = true -> 0.99 < product -> clamp_amp prevent product = 0.99) /\
    lookup_pair (object_modes (self_ st')) id2 id1 = Some ci' /\
    amp ci' = amp ci /\ init_speed ci' = init_speed ci /\
    product * init_speed ci
    == amp ci * normal_speed_of L collision rigidbodies id2.
Proof.
  intros Hci Hcount [Hnz _] H product prevent.
  destruct (get_sound_repeat _ _ _ _ _ _ _ _ _ _ _ _ Hci Hcount H)
    as (m1 & m2 & zs1 & zs2 & p1 & p2 & sound & out & _ & _ & _ & _ & _ & _
        & _ & Hs & Hout & -> & Hci' & _).
  exists (mkCollisionInfo (count ci + 1) (amp ci) (init_speed ci)
                          (set_powers (obj1_modes ci) p1)
                          (set_power (obj2_modes ci) p2)),
         (Qmin m1 m2), sound, out.
  split; [exact Hs |]. split; [exact Hout |]. split; [reflexivity |].
  split; [apply clamp_amp_id |].
  split; [intros -> Hp; apply clamp_amp_cap; exact Hp |].
  split; [exact Hci' |]. split; [reflexivity |]. split; [reflexivity |].
  unfold product. field. exact Hnz.
Qed.

(** What a successful repeat collision does to the two stored ModeSets:
    the onset powers of the first get the noise [0 + 2 * z] of the draws;
    the onset powers of the second stay as they were, the sum going to
    the attribute [power]; frequencies and decay times stay. *)
Lemma repeat_collision_modes (L : MathLib) (collision : CollisionData)
      (rigidbodies : list Rigidbody) (id1 : Z) (mat1 : Material) (id2 : Z)
      (mat2 : Material) (amp2re1 : Q) (st st' : state) (ci : CollisionInfo)
      (b : Base64Sound) :
  lookup_pair (object_modes (self_ st)) id2 id1 = Some ci ->
  (0 < count ci)%nat ->
  get_sound L collision rigidbodies id1 mat1 id2 mat2 amp2re1 st
  = (Ok (Some b), st') ->
  exists (ci' : CollisionInfo) (zs1 zs2 p1 p2 : list Q),
    lookup_pair (object_modes (self_ st')) id2 id1 = Some ci' /\
    tape st = zs1 ++ zs2 ++ tape st' /\
    np_add (powers (obj1_modes ci)) (map (fun z => 0 + 2 * z) zs1) = Ok p1 /\
    np_add (powers (obj2_modes ci)) (map (fun z => 0 + 2 * z) zs2) = Ok p2 /\
    powers (obj1_modes ci') = p1 /\
    powers (obj2_modes ci') = powers (obj2_modes ci) /\
    power (obj2_modes ci') = Some p2 /\
    frequencies (obj1_modes ci') = frequencies (obj1_modes ci) /\
    frequencies (obj2_modes ci') = frequencies (obj2_modes ci) /\
    decay_times (obj1_modes ci') = decay_times (obj1_modes ci) /\
    decay_times (obj2_modes ci') = decay_times (obj2_modes ci).
Proof.
  intros Hci Hcount H.
  destruct (get_sound_repeat _ _ _ _ _ _ _ _ _ _ _ _ Hci Hcount H)
    as (m1 & m2 & zs1 & zs2 & p1 & p2 & sound & out & _ & _ & Ht & _ & _
        & Hp1 & Hp2 & _ & _ & _ & Hci' & _).
  eexists _, zs1, zs2, p1, p2.
  split; [exact Hci' |]. split; [exact Ht |].
  split; [exact Hp1 |]. split; [exact Hp2 |].
  repeat split; reflexivity.
Qed.

(** ** Validity of a collision *)


Lemma square_pos (x : Q) : ~ x == 0 -> 0 < x * x.
Proof.
  intros H. destruct (Q_dec x 0) as [[Hlt | Hgt] | Heq]; [nra | nra |].
  contradiction.
Qed.

Lemma sum_squares_pos (v : vec3) : 0 < sum_squares v <-> nonzero v.
Proof.
  destruct v as [[x y] z]. unfold sum_squares, nonzero. split.
  - intros H (Hx & Hy & Hz). rewrite Hx, Hy, Hz in H. lra.
  - intros H.
    assert (Hxx : 0 <= x * x) by nra.
    assert (Hyy : 0 <= y * y) by nra.
    assert (Hzz : 0 <= z * z) by nra.
    destruct (Qeq_dec x 0) as [Hx | Hx];
      [| pose proof (square_pos x Hx); lra].
    destruct (Qeq_dec y 0) as [Hy | Hy];
      [| pose proof (square_pos y Hy); lra].
    destruct (Qeq_dec z 0) as [Hz | Hz];
      [| pose proof (square_pos z Hz); lra].
    exfalso. apply H. repeat split; assumption.
Qed.

(** C3 (amended): [is_valid_collision] decides validity exactly so: no
    collision is invalid, a body-body collision is valid if and only if its
    relative velocity is not the zero vector, and an environment collision
    is always valid.  (The square root is positive exactly on positive
    arguments.) *)
Theorem is_valid_collision_spec (L : MathLib) :
  (forall x : Q, 0 < math_sqrt L x <-> 0 < x) ->
  is_valid_collision L None = false /\
  (forall (v : vec3) (ns : list vec3),
      is_valid_collision L (Some (Collision v ns)) = true <-> nonzero v) /\
  (forall ns : list vec3,
      is_valid_collision L (Some (EnvironmentCollision ns)) = true).
Proof.
  intros Hsqrt. split; [reflexivity |]. split; [| reflexivity].
  intros v ns. simpl. rewrite Qltb_lt, Hsqrt. apply sum_squares_pos.
Qed.

Lemma Approx_sqrt_pos (x : Q) : 0 < Approx.sqrt x <-> 0 < x.
Proof.
  unfold Approx.sqrt. destruct (Qle_bool x 0) eqn:E.
  - apply Qle_bool_iff in E. split; intros H; lra.
  - assert (Hx : 0 < x).
    { apply Qnot_le_lt. intros H. apply Qle_bool_iff in H. congruence. }
    split; [intros _; exact Hx | intros _].
    unfold Qlt. simpl. rewrite Z.mul_1_r. apply Z.sqrt_pos.
    unfold Qlt in Hx. simpl in Hx. rewrite Z.mul_1_r in Hx.
    apply Z.mul_pos_pos; [apply Z.mul_pos_pos |]; lia.
Qed.

(** ** Looking a body up in the snapshot *)




(** ** Calls that return no sound *)

Lemma synth_impact_modes_silent (L : MathLib) (modes1 modes2 : Modes)
      (mass : Q) (h1 h2 : list Q) :
  sum_modes L modes1 44100 = Ok h1 ->
  sum_modes L modes2 44100 = Ok h2 ->
  mode_add h1 h2 = [] ->
  synth_impact_modes L modes1 modes2 mass = Ok None.
Proof.
  intros H1 H2 Hh. unfold synth_impact_modes. rewrite H1, H2. simpl.
  rewrite Hh. reflexivity.
Qed.

Lemma synth_impact_modes_None (L : MathLib) (modes1 modes2 : Modes)
      (mass : Q) :
  synth_impact_modes L modes1 modes2 mass = Ok None ->
  exists h1 h2 : list Q,
    sum_modes L modes1 44100 = Ok h1 /\
    sum_modes L modes2 44100 = Ok h2 /\
    mode_add h1 h2 = [].
Proof.
  unfold synth_impact_modes. intros H.
  apply result_bind_Ok in H as (h1 & H1 & H).
  apply result_bind_Ok in H as (h2 & H2 & H).
  exists h1, h2. split; [exact H1 |]. split; [exact H2 |].
  destruct (mode_add h1 h2) as [| x h]; [reflexivity |]. simpl in H.
  apply result_bind_Ok in H as (frc & _ & H).
  apply result_bind_Ok in H as (mx & _ & H). discriminate.
Qed.




Section Silent.
Context (L : MathLib).
Context (collision : CollisionData) (rigidbodies : list Rigidbody).
Context (id1 : Z) (mat1 : Material) (id2 : Z) (mat2 : Material).
Context (amp2re1 : Q).

Local Abbreviation call :=
  (get_sound L collision rigidbodies id1 mat1 id2 mat2 amp2re1).




End Silent.


(** ** The encoded sound *)

Lemma pcm_bytes_length (samples : list Z) :
  length (pcm_bytes samples) = (2 * length samples)%nat.
Proof.
  unfold pcm_bytes. induction samples as [| v samples IH]; simpl;
    [reflexivity | rewrite IH; lia].
Qed.

(** The attribute [length] of a [Base64Sound] is the number of bytes: two
    for each sample. *)
Lemma Base64Sound_length (snd : list Q) :
  snd_length (new_Base64Sound snd) = (2 * length snd)%nat.
Proof.
  unfold new_Base64Sound. simpl. rewrite pcm_bytes_length, length_map.
  reflexivity.
Qed.

Lemma to_int16_range (x : Q) : (-32768 <= to_int16 x <= 32767)%Z.
Proof.
  unfold to_int16, wrap_int16.
  pose proof (Z.mod_pos_bound (Qtrunc (x * 32767) + 32768) 65536). lia.
Qed.

(** The command of [get_impact_sound_command] reports the attribute
    [length], the number of bytes, as ["num_frames"]. *)
Lemma command_num_frames (L : MathLib) (collision : CollisionData)
      (rigidbodies : list Rigidbody) (target_id : Z) (target_mat : Material)
      (target_amp : Q) (other_id : Z) (other_mat : Material) (other_amp : Q)
      (play_audio_data : bool) (st st' : state) (ty : string) (i : Z)
      (num_frames : nat) (num_channels frame_rate : Z) (wav_data : string)
      (y : Q) :
  get_impact_sound_command L collision rigidbodies target_id target_mat
                           target_amp other_id other_mat other_amp
                           play_audio_data st
  = (Ok (PlayData ty i num_frames num_channels frame_rate wav_data y), st') ->
  exists snd : list Q,
    wav_data = b64encode (pcm_bytes (map to_int16 snd)) /\
    num_frames = (2 * length snd)%nat /\
    num_channels = 1%Z /\ frame_rate = 44100%Z.
Proof.
  unfold get_impact_sound_command. intros H.
  step_inv H as amp2re1 sa Hamp. step_inv H as [b |] sb Hb;
    [| inversion H].
  inversion H; subst; clear H.
  apply get_sound_Some in Hb
    as (st1 & st2 & ci & ci2 & m1 & m2 & sound & out & a & _ & _ & _ & _ & _
        & _ & _ & _ & _ & _ & _ & ->).
  exists out. rewrite Base64Sound_length. repeat split; reflexivity.
Qed.

(** ** The scenario, run *)

Import Demo.

Lemma run_eq {A} (m : M A) (st : state) (r : result A) :
  (m st).1 = r -> m st = (r, (m st).2).
Proof. destruct (m st) as [r' st']. simpl. intros ->. reflexivity. Qed.

Example new_PyImpact_demo : new_PyImpact files 0.5 true = Ok synthesizer.
Proof. vm_compute. reflexivity. Qed.

Example new_PyImpact_rejects :
  new_PyImpact files 1 true = Raise AssertionError /\
  new_PyImpact files 0 true = Raise AssertionError.
Proof. split; vm_compute; reflexivity. Qed.

(** The first collision of the pair (other body 2, target body 1). *)
Example first_collision_demo :
  (get_sound Approx.lib (hit 2 (-1)) bodies 2 ceramic_ 1 wood_ 1 st0).1
  = Ok (Some (mkBase64Sound "AAD/PwAA" 6)) /\
  pair_count 1 2 st0 = 0%nat /\ pair_count 1 2 st1 = 1%nat.
Proof. repeat split; vm_compute; reflexivity. Qed.

(** The sampling bounds, on the wood template of the scenario. *)
Lemma get_object_modes_bounds_witness :
  exists m : Modes,
    (_get_object_modes wood_ st0).1 = Ok m /\
    length (frequencies m) = 10%nat /\
    Forall (fun f => 20 <= f) (frequencies m) /\
    Forall (fun t => 1 <= t) (decay_times m).
Proof.
  eassert (Hrun : (_get_object_modes wood_ st0).1 = Ok _)
    by (vm_compute; reflexivity).
  eexists. split; [exact Hrun |].
  destruct (get_object_modes_bounds _ _ _ _ (run_eq _ _ _ Hrun))
    as (Hf & _ & _ & Hfreq & Hdecay & _).
  split; [exact Hf |]. split; [exact Hfreq | exact Hdecay].
Defined.

(** The contact pulse of a 50 g body (below the crossover) and of a 5 kg
    body (above it). *)
Lemma contact_pulse_duration_witness :
  contact_time 0.05 == 0.001 * 0.05 /\ n_pts 0.05 = 3%Z /\
  contact_time 5 == 0.002 /\ n_pts 5 = 89%Z.
Proof.
  destruct (contact_pulse_duration Approx.lib 0.05 ltac:(reflexivity))
    as (_ & Hlin & _ & _).
  destruct (contact_pulse_duration Approx.lib 5 ltac:(reflexivity))
    as (_ & _ & Hcap & _).
  split; [apply Hlin; discriminate |]. split; [reflexivity |].
  split; [apply Hcap; discriminate | reflexivity].
Defined.

(** Validity with the rational square root of the scenario. *)
Lemma is_valid_collision_spec_witness :
  is_valid_collision Approx.lib (Some (hit 0 (-1))) = false /\
  is_valid_collision Approx.lib (Some (hit 2 (-1))) = true /\
  is_valid_collision Approx.lib (Some (EnvironmentCollision [(0, 1, 0)]))
  = true.
Proof.
  destruct (is_valid_collision_spec Approx.lib Approx_sqrt_pos)
    as (_ & Hbody & Henv).
  split; [| split].
  - apply not_true_iff_false. intros H. apply Hbody in H. apply H.
    repeat split; reflexivity.
  - apply Hbody. intros (_ & H & _). discriminate H.
  - apply Henv.
Defined.

(** C1: a repeat collision of the scenario, with draws of 1 (noise of
    2 dB): the onset powers of the first stored ModeSet move by the noise,
    those of the second stay as they were and the perturbed values land in
    its attribute [power]; the claim has both perturbed. *)
Theorem repeat_collision_perturbs_one_modeset :
  let run := get_sound Approx.lib (hit 1 (-1)) bodies 2 ceramic_ 1 wood_ 1 st1
  in
  exists (ci ci' : CollisionInfo) (b : Base64Sound),
    lookup_pair (object_modes (self_ st1)) 1 2 = Some ci /\
    count ci = 1%nat /\
    run.1 = Ok (Some b) /\
    lookup_pair (object_modes (self_ run.2)) 1 2 = Some ci' /\
    powers (obj1_modes ci')
    = map (fun p => p + (0 + 2 * 1)) (powers (obj1_modes ci)) /\
    powers (obj2_modes ci') = powers (obj2_modes ci) /\
    power (obj2_modes ci) = None /\
    power (obj2_modes ci')
    = Some (map (fun p => p + (0 + 2 * 1)) (powers (obj2_modes ci))) /\
    frequencies (obj1_modes ci') = frequencies (obj1_modes ci) /\
    frequencies (obj2_modes ci') = frequencies (obj2_modes ci) /\
    decay_times (obj1_modes ci') = decay_times (obj1_modes ci) /\
    decay_times (obj2_modes ci') = decay_times (obj2_modes ci).
Proof.
  cbv zeta. do 3 eexists.
  split; [vm_compute; reflexivity |].
  split; [vm_compute; reflexivity |].
  split; [vm_compute; reflexivity |].
  split; [vm_compute; reflexivity |].
  vm_compute. repeat split; reflexivity.
Qed.

(** C2: [reset] with a new amplitude on the synthesizer built with 0.5:
    the pair state is cleared, but the amplitude stays 0.5, where a fresh
    synthesizer has the new one; the next first collision of the pair
    starts from count 0 and stores 0.5 as its amplitude. *)
Theorem reset_keeps_initial_amp :
  let after := (reset 0.3 st1).2 in
  let run := get_sound Approx.lib (hit 2 (-1)) bodies 2 ceramic_ 1 wood_ 1
                       (mkState (self_ after) draws) in
  (reset 0.3 st1).1 = Ok tt /\
  object_modes (self_ after) = ∅ /\
  initial_amp (self_ after) = 0.5 /\
  match new_PyImpact files 0.3 true with
  | Ok fresh => initial_amp fresh = 0.3 /\ object_modes fresh = ∅
  | _ => False
  end /\
  pair_count 1 2 (mkState (self_ after) draws) = 0%nat /\
  exists (ci : CollisionInfo) (b : Base64Sound),
    run.1 = Ok (Some b) /\
    lookup_pair (object_modes (self_ run.2)) 1 2 = Some ci /\
    count ci = 1%nat /\ amp ci = 0.5.
Proof.
  cbv zeta.
  split; [vm_compute; reflexivity |].
  split; [vm_compute; reflexivity |].
  split; [vm_compute; reflexivity |].
  split; [vm_compute; repeat split; reflexivity |].
  split; [vm_compute; reflexivity |].
  do 2 eexists.
  split; [vm_compute; reflexivity |].
  split; [vm_compute; reflexivity |].
  split; vm_compute; reflexivity.
Qed.

(** C3, counterexample: a body-body collision with relative velocity zero
    is invalid for [is_valid_collision], and [get_sound], called on it with
    both bodies in the snapshot, returns a sound. *)
Lemma zero_velocity_collision_sounds :
  is_valid_collision Approx.lib (Some (hit 0 (-1))) = false /\
  (get_sound Approx.lib (hit 0 (-1)) bodies 2 ceramic_ 1 wood_ 1 st0).1
  = Ok (Some (mkBase64Sound "AAD/PwAA" 6)).
Proof. split; vm_compute; reflexivity. Qed.


(** An environment collision whose body (id 7) is not in the snapshot:
    the guard of [get_sound] lets it pass, and the call ends in the
    exception of [get_mass(None)]. *)
Example environment_collision_unresolved_raises :
  (get_sound Approx.lib (EnvironmentCollision [(0, 1, 0)]) bodies 2 ceramic_
             7 wood_ 1 st0).1 = Raise TypeError.
Proof. vm_compute. reflexivity. Qed.


(** C5, counterexample: the second collision of the pair arrives with the
    contact normal reversed, so the normal speed and with it the amplitude
    are negative; the output is the signal scaled by that amplitude over
    the signal's positive peak, and its peak absolute value is not the
    amplitude. *)
Lemma negative_amplitude_peak :
  exists (sound out : list Q) (raw mx mo : Q),
    (repeat_collision Approx.lib 0.05
                      (normal_speed_of Approx.lib (hit 1 1) bodies 1) 2 1
                      st1).1
    = Ok (Some sound, raw) /\
    clamp_amp true raw < 0 /\
    scale_sound (clamp_amp true raw) sound = Ok out /\
    (get_sound Approx.lib (hit 1 1) bodies 2 ceramic_ 1 wood_ 1 st1).1
    = Ok (Some (new_Base64Sound out)) /\
    np_max (map Qabs sound) = Ok mx /\ 0 < mx /\
    np_max (map Qabs out) = Ok mo /\
    ~ mo == clamp_amp true raw.
Proof.
  do 5 eexists.
  split; [vm_compute; reflexivity |].
  split; [vm_compute; reflexivity |].
  split; [vm_compute; reflexivity |].
  split; [vm_compute; reflexivity |].
  split; [vm_compute; reflexivity |].
  split; [vm_compute; reflexivity |].
  split; [vm_compute; reflexivity |].
  vm_compute. discriminate.
Qed.

(** A repeat collision of the scenario, at half the first speed and with
    the reference speed 2 of the first collision: the amplitude is at most
    0.99, and it is the quotient. *)
Lemma get_sound_peak_witness :
  exists (ci : CollisionInfo) (a raw : Q) (sound out : list Q),
    (get_sound Approx.lib (hit 1 (-1)) bodies 2 ceramic_ 1 wood_ 1 st1).1
    = Ok (Some (new_Base64Sound out)) /\
    scale_sound a sound = Ok out /\ a <= 0.99 /\
    ~ init_speed ci == 0 /\
    raw * init_speed ci
    == amp ci * normal_speed_of Approx.lib (hit 1 (-1)) bodies 1.
Proof.
  eassert (Hci : lookup_pair (object_modes (self_ st1)) 1 2 = Some _)
    by (vm_compute; reflexivity).
  eassert (Hrun : (get_sound Approx.lib (hit 1 (-1)) bodies 2 ceramic_ 1 wood_
                             1 st1).1 = Ok (Some _))
    by (vm_compute; reflexivity).
  assert (Hdef : amplitude_defined (hit 1 (-1)) bodies 1 2 st1).
  { intros ci0 Hl _. rewrite Hci in Hl. injection Hl as <-.
    split; [vm_compute; discriminate |].
    split; [intros (_ & Hy & _); discriminate Hy |].
    split; [discriminate |].
    repeat constructor. intros (_ & Hy & _). discriminate Hy. }
  destruct (get_sound_peak Approx.lib (hit 1 (-1)) bodies 2 ceramic_ 1 wood_
                           1 st1 _ _ Hdef (run_eq _ _ _ Hrun))
    as (ci & mass & raw & sa & sb & sound & out & _ & Hsame & _ & Hquot
        & Hout & Hb & Hcap & _).
  rewrite Hci in Hsame.
  assert (Hcount : (0 < count ci)%nat) by (rewrite Hsame; vm_compute; lia).
  destruct (Hquot Hcount) as [Hnz Hq].
  exists ci, (clamp_amp (prevent_distortion (self_ st1)) raw), raw, sound, out.
  split; [rewrite Hrun, Hb; reflexivity |].
  split; [exact Hout |]. split; [apply Hcap; reflexivity |].
  split; [exact Hnz | exact Hq].
Defined.

(** C6, counterexample: the second collision of the pair is four times as
    fast as the first, with distortion prevention on: the product of the
    stored amplitude and the speed ratio is 2, and the output is the signal
    scaled by 0.99. *)
Lemma clamped_repeat_amplitude :
  let normal_speed := normal_speed_of Approx.lib (hit 8 (-1)) bodies 1 in
  exists (ci : CollisionInfo) (sound out : list Q) (mo : Q),
    lookup_pair (object_modes (self_ st1)) 1 2 = Some ci /\
    count ci = 1%nat /\
    prevent_distortion (self_ st1) = true /\
    amp ci * normal_speed / init_speed ci == 2 /\
    (repeat_collision Approx.lib 0.05 normal_speed 2 1 st1).1
    = Ok (Some sound, amp ci * normal_speed / init_speed ci) /\
    scale_sound 0.99 sound = Ok out /\
    (get_sound Approx.lib (hit 8 (-1)) bodies 2 ceramic_ 1 wood_ 1 st1).1
    = Ok (Some (new_Base64Sound out)) /\
    np_max (map Qabs out) = Ok mo /\ mo == 0.99.
Proof.
  cbv zeta. do 4 eexists.
  split; [vm_compute; reflexivity |].
  split; [vm_compute; reflexivity |].
  split; [vm_compute; reflexivity |].
  split; [vm_compute; reflexivity |].
  split; [vm_compute; reflexivity |].
  split; [vm_compute; reflexivity |].
  split; [vm_compute; reflexivity |].
  split; vm_compute; reflexivity.
Qed.

(** A repeat collision of the scenario at half the first speed: the
    amplitude is 0.5 * 1 / 2. *)
Lemma repeat_collision_amplitude_witness :
  exists (a : Q) (sound out : list Q),
    (get_sound Approx.lib (hit 1 (-1)) bodies 2 ceramic_ 1 wood_ 1 st1).1
    = Ok (Some (new_Base64Sound out)) /\
    scale_sound a sound = Ok out /\ a == 0.25.
Proof.
  eassert (Hci : lookup_pair (object_modes (self_ st1)) 1 2 = Some _)
    by (vm_compute; reflexivity).
  eassert (Hrun : (get_sound Approx.lib (hit 1 (-1)) bodies 2 ceramic_ 1 wood_
                             1 st1).1 = Ok (Some _))
    by (vm_compute; reflexivity).
  assert (Hdef : forall ci : CollisionInfo,
             lookup_pair (object_modes (self_ st1)) 1 2 = Some ci ->
             ratio_defined (hit 1 (-1)) bodies 1 ci).
  { intros ci0 Hl. rewrite Hci in Hl. injection Hl as <-.
    split; [vm_compute; discriminate |].
    split; [intros (_ & Hy & _); discriminate Hy |].
    split; [discriminate |].
    repeat constructor. intros (_ & Hy & _). discriminate Hy. }
  destruct (repeat_collision_amplitude
              Approx.lib (hit 1 (-1)) bodies 2 ceramic_ 1 wood_ 1 st1 _ _ _
              Hci ltac:(vm_compute; lia) (Hdef _ Hci) (run_eq _ _ _ Hrun))
    as (ci' & mass & sound & out & _ & Hout & Hb & _).
  eexists _, sound, out.
  split; [rewrite Hrun, Hb; reflexivity |].
  split; [exact Hout | vm_compute; reflexivity].
Defined.

(** C9: the command for the first collision of the scenario.  The signal
    has 3 samples, encoded in 6 bytes (8 base64 characters); the command
    reports 6 as ["num_frames"], the number of bytes, where the claim has
    the number of 16-bit mono frames, 3. *)
Theorem num_frames_is_byte_count :
  exists out : list Q,
    (get_sound Approx.lib (hit 2 (-1)) bodies 2 ceramic_ 1 wood_ 1 st0).1
    = Ok (Some (new_Base64Sound out)) /\
    length out = 3%nat /\
    snd_length (new_Base64Sound out) = 6%nat /\
    (get_impact_sound_command Approx.lib (hit 2 (-1)) bodies 1 wood_ 1 2
                              ceramic_ 1 true st0).1
    = Ok (PlayData "play_audio_data" 1 6 1 44100
                   (wav_str (new_Base64Sound out)) 0.1).
Proof.
  assert (Hrun : (get_sound Approx.lib (hit 2 (-1)) bodies 2 ceramic_ 1 wood_
                            1 st0).1 = Ok (Some (mkBase64Sound "AAD/PwAA" 6)))
    by (vm_compute; reflexivity).
  assert (Hcmd : (get_impact_sound_command
                    Approx.lib (hit 2 (-1)) bodies 1 wood_ 1 2 ceramic_ 1 true
                    st0).1
                 = Ok (PlayData "play_audio_data" 1 6 1 44100 "AAD/PwAA" 0.1))
    by (vm_compute; reflexivity).
  destruct (get_sound_Some Approx.lib (hit 2 (-1)) bodies 2 ceramic_ 1 wood_
                           1 st0 _ _ (run_eq _ _ _ Hrun))
    as (sa & sb & ci & ci2 & m1 & m2 & sound & out & a & _ & _ & _ & _ & _
        & _ & _ & _ & _ & _ & _ & Hb).
  exists out. rewrite <- Hb. split; [exact Hrun |].
  split.
  { pose proof (Base64Sound_length out) as Hl. rewrite <- Hb in Hl.
    simpl in Hl. lia. }
  split; [reflexivity | exact Hcmd].
Qed.

(** * Further properties *)

(** ** Zero-padded addition and rendering *)

Lemma add_prefix_nth (c a : list Q) :
  forall i : nat,
    (length a <= length c)%nat ->
    nth i (add_prefix c a) 0 == nth i c 0 + nth i a 0.
Proof.
  revert a. induction c as [| x c IH]; intros [| y a] i Hl; simpl in *.
  - destruct i; ring.
  - lia.
  - destruct i; ring.
  - destruct i; [reflexivity |]. apply IH. lia.
Qed.

(** X1: [Modes.mode_add] is the sum of the two arrays padded with zeros:
    as long as the longer one, and sample by sample the sum of the two
    samples, a missing sample counting as 0. *)
Theorem mode_add_zero_padded (a b : list Q) :
  length (mode_add a b) = Nat.max (length a) (length b) /\
  forall i : nat, nth i (mode_add a b) 0 == nth i a 0 + nth i b 0.
Proof.
  split; [apply mode_add_length |]. intros i. unfold mode_add.
  destruct (Nat.ltb_spec (length a) (length b)).
  - rewrite add_prefix_nth by lia. ring.
  - apply add_prefix_nth. lia.
Qed.

Lemma render_mode_length (L : MathLib) (fs f p d : Q) :
  length (render_mode L fs f p d) = Z.to_nat (mode_length fs p d).
Proof.
  unfold render_mode. rewrite !length_map, arange_length. reflexivity.
Qed.

Lemma index_Ok {A} (l : list A) (i : nat) (d : A) :
  (i < length l)%nat -> index l i = Ok (nth i l d).
Proof.
  intros H. unfold index.
  destruct (l !! i) as [x |] eqn:E.
  - f_equal. symmetry.
    apply nth_lookup_Some with (d := d) in E. exact E.
  - apply lookup_ge_None in E. lia.
Qed.

Lemma index_IndexError {A} (l : list A) (i : nat) :
  (length l <= i)%nat -> index l i = Raise IndexError.
Proof.
  intros H. unfold index. rewrite (proj2 (lookup_ge_None l i) H).
  reflexivity.
Qed.

(** The iterations after the first, while every index is in range. *)
Lemma sum_modes_loop_Ok (L : MathLib) (fs : Q) (m : Modes) :
  forall (n k : nat) (s : list Q),
    (1 <= k)%nat ->
    (k + n <= length (frequencies m))%nat ->
    (k + n <= length (powers m))%nat ->
    (k + n <= length (decay_times m))%nat ->
    exists s' : list Q,
      sum_modes_loop L fs m (seq k n) (Some s) = Ok (Some s') /\
      length s' = Nat.max (length s) (list_max (mode_samples fs m k n)).
Proof.
  induction n as [| n IH]; intros k s Hk Hf Hp Hd.
  - exists s. split; [reflexivity |]. simpl. lia.
  - simpl.
    rewrite (index_Ok (powers m) k 0) by lia.
    rewrite (index_Ok (decay_times m) k 0) by lia.
    rewrite (index_Ok (frequencies m) k 0) by lia. simpl.
    destruct (Nat.eqb_spec k 0) as [E | _]; [lia |].
    destruct (IH (S k)
                 (mode_add s (render_mode L fs (nth k (frequencies m) 0)
                                          (nth k (powers m) 0)
                                          (nth k (decay_times m) 0))))
      as (s' & Hs' & Hl); try lia.
    exists s'. split; [exact Hs' |].
    fold (mode_samples fs m (S k) n).
    rewrite Hl, mode_add_length, render_mode_length. lia.
Qed.

(** The iterations after the first, when an index runs past the powers or
    the decay times. *)
Lemma sum_modes_loop_IndexError (L : MathLib) (fs : Q) (m : Modes) :
  forall (n k : nat) (s : list Q),
    (1 <= k)%nat ->
    (k <= length (powers m))%nat ->
    (k <= length (decay_times m))%nat ->
    (k + n <= length (frequencies m))%nat ->
    (length (powers m) < k + n)%nat
    \/ (length (decay_times m) < k + n)%nat ->
    sum_modes_loop L fs m (seq k n) (Some s) = Raise IndexError.
Proof.
  induction n as [| n IH]; intros k s Hk Hp Hd Hf Hshort; [lia |].
  simpl.
  destruct (Nat.le_gt_cases (length (powers m)) k) as [Hpk | Hpk].
  { rewrite (index_IndexError (powers m) k) by lia. reflexivity. }
  rewrite (index_Ok (powers m) k 0) by lia. simpl.
  destruct (Nat.le_gt_cases (length (decay_times m)) k) as [Hdk | Hdk].
  { rewrite (index_IndexError (decay_times m) k) by lia. reflexivity. }
  rewrite (index_Ok (decay_times m) k 0) by lia.
  rewrite (index_Ok (frequencies m) k 0) by lia. simpl.
  destruct (Nat.eqb_spec k 0) as [E | _]; [lia |].
  apply IH; lia.
Qed.

(** The outcomes of [sum_modes], case by case. *)
Lemma sum_modes_cases (L : MathLib) (m : Modes) (fs : Q) :
  let n := length (frequencies m) in
  match sum_modes L m fs with
  | Ok h =>
      n <> 0%nat /\ (n <= length (powers m))%nat /\
      (n <= length (decay_times m))%nat /\
      length h = list_max (mode_samples fs m 0 n)
  | Raise e =>
      (e = UnboundLocalError /\ n = 0%nat) \/
      (e = IndexError /\ n <> 0%nat /\
       ((length (powers m) < n)%nat \/ (length (decay_times m) < n)%nat))
  | OutOfDraws => False
  end.
Proof.
  cbv zeta. unfold sum_modes.
  destruct (length (frequencies m)) as [| n] eqn:En; simpl.
  { left. split; reflexivity. }
  destruct (Nat.le_gt_cases (length (powers m)) 0) as [Hp | Hp].
  { rewrite (index_IndexError (powers m) 0) by lia. simpl.
    right. repeat split; try discriminate. left. lia. }
  rewrite (index_Ok (powers m) 0 0) by lia. simpl.
  destruct (Nat.le_gt_cases (length (decay_times m)) 0) as [Hd | Hd].
  { rewrite (index_IndexError (decay_times m) 0) by lia. simpl.
    right. repeat split; try discriminate. right. lia. }
  rewrite (index_Ok (decay_times m) 0 0) by lia.
  rewrite (index_Ok (frequencies m) 0 0) by lia. simpl.
  destruct (Nat.le_gt_cases (S n) (length (powers m))) as [Hpn | Hpn];
    [destruct (Nat.le_gt_cases (S n) (length (decay_times m)))
      as [Hdn | Hdn] |].
  - destruct (sum_modes_loop_Ok
                L fs m n 1
                (render_mode L fs (nth 0 (frequencies m) 0)
                             (nth 0 (powers m) 0) (nth 0 (decay_times m) 0)))
      as (s' & Hs' & Hl); try lia.
    rewrite Hs'. simpl. repeat split; try lia.
    rewrite Hl, render_mode_length. reflexivity.
  - rewrite sum_modes_loop_IndexError; try lia. simpl.
    right. repeat split; try discriminate. right. lia.
  - rewrite sum_modes_loop_IndexError; try lia. simpl.
    right. repeat split; try discriminate. left. lia.
Qed.

(** X2: the outcomes of [Modes.sum_modes].  It returns a signal exactly
    when there is at least one frequency and the powers and decay times are
    at least as many; the signal is then as long as the longest mode.
    Without a frequency it ends in [UnboundLocalError]; with too few powers
    or decay times, in [IndexError]. *)
Theorem sum_modes_outcome (L : MathLib) (m : Modes) (fs : Q) :
  let n := length (frequencies m) in
  match sum_modes L m fs with
  | Ok h =>
      n <> 0%nat /\ (n <= length (powers m))%nat /\
      (n <= length (decay_times m))%nat /\
      length h = list_max (mode_samples fs m 0 n)
  | Raise e =>
      (e = UnboundLocalError /\ n = 0%nat) \/
      (e = IndexError /\ n <> 0%nat /\
       ((length (powers m) < n)%nat \/ (length (decay_times m) < n)%nat))
  | OutOfDraws => False
  end.
Proof. apply sum_modes_cases. Qed.

(** ** Silent ModeSets and the synthesized signal *)

Lemma mode_length_inaudible (p d : Q) :
  p <= -80 -> 0 <= d -> (mode_length 44100 p d <= 0)%Z.
Proof.
  intros Hp Hd. unfold mode_length.
  change 0%Z with (Qceiling 0). apply Qceiling_resp_le.
  assert (Hy : d * (80 + p) <= 0) by nra.
  generalize dependent (d * (80 + p)). intros y Hy.
  assert (E : y / 60 / 1000 * 44100 == y * (44100 # 60000)) by field.
  rewrite E. lra.
Qed.

Lemma inaudible_mode_samples (m : Modes) (k n : nat) :
  inaudible m ->
  (k + n <= length (powers m))%nat ->
  (k + n <= length (decay_times m))%nat ->
  list_max (mode_samples 44100 m k n) = 0%nat.
Proof.
  intros [Hp Hd] Hlp Hld. apply Nat.le_0_r. apply list_max_le.
  unfold mode_samples. apply List.Forall_forall. intros x Hx.
  apply in_map_iff in Hx as (i & <- & Hi). apply in_seq in Hi.
  rewrite List.Forall_forall in Hp, Hd.
  assert (Hpi : nth i (powers m) 0 <= -80) by (apply Hp, nth_In; lia).
  assert (Hdi : 0 <= nth i (decay_times m) 0) by (apply Hd, nth_In; lia).
  pose proof (mode_length_inaudible _ _ Hpi Hdi). lia.
Qed.

Lemma sum_modes_inaudible (L : MathLib) (m : Modes) :
  well_formed m -> inaudible m -> sum_modes L m 44100 = Ok [].
Proof.
  intros (Hf & Hp & Hd) Hq.
  assert (Hn : length (frequencies m) <> 0%nat).
  { destruct (frequencies m); [contradiction | discriminate]. }
  pose proof (sum_modes_cases L m 44100) as H. cbv zeta in H.
  destruct (sum_modes L m 44100) as [h | e |].
  - destruct H as (_ & _ & _ & Hl).
    rewrite inaudible_mode_samples in Hl by (assumption || lia).
    destruct h; [reflexivity | discriminate].
  - destruct H as [[_ H] | (_ & _ & [H | H])]; lia.
  - contradiction.
Qed.

(** X3: two ModeSets none of whose modes starts above -80 dB (and with
    decay times that are not negative) render to the empty signal, and
    [synth_impact_modes] returns [None] for them, whatever the mass. *)
Theorem inaudible_modes_give_no_sound (L : MathLib) (modes1 modes2 : Modes)
        (mass : Q) :
  well_formed modes1 -> well_formed modes2 ->
  inaudible modes1 -> inaudible modes2 ->
  sum_modes L modes1 44100 = Ok [] /\
  sum_modes L modes2 44100 = Ok [] /\
  synth_impact_modes L modes1 modes2 mass = Ok None.
Proof.
  intros W1 W2 Q1 Q2.
  pose proof (sum_modes_inaudible L _ W1 Q1) as H1.
  pose proof (sum_modes_inaudible L _ W2 Q2) as H2.
  split; [exact H1 |]. split; [exact H2 |].
  eapply synth_impact_modes_silent; [exact H1 | exact H2 | reflexivity].
Qed.

Lemma poly_add_length (a b : list Q) :
  length (poly_add a b) = Nat.max (length a) (length b).
Proof.
  revert b. induction a as [| x a IH]; intros [| y b]; simpl;
    try reflexivity.
  rewrite IH. reflexivity.
Qed.

Lemma convolve_length (a b : list Q) :
  a <> [] -> b <> [] ->
  length (convolve a b) = (length a + length b - 1)%nat.
Proof.
  intros Ha Hb. induction a as [| x a IH]; [contradiction |].
  destruct a as [| y a].
  - simpl. rewrite length_map. lia.
  - change (convolve (x :: y :: a) b)
      with (poly_add (map (Qmult x) b) (0 :: convolve (y :: a) b)).
    rewrite poly_add_length, length_map.
    change (length (0 :: convolve (y :: a) b))
      with (S (length (convolve (y :: a) b))).
    rewrite IH by discriminate.
    change (length (x :: y :: a)) with (S (length (y :: a))).
    destruct b; [contradiction |]. simpl length. lia.
Qed.

Lemma fftconvolve_length (in1 in2 : list Q) :
  in1 <> [] -> in2 <> [] ->
  length (fftconvolve in1 in2) = (length in1 + length in2 - 1)%nat.
Proof.
  intros H1 H2. unfold fftconvolve.
  destruct in1 as [| x in1]; [contradiction |].
  destruct in2 as [| y in2]; [contradiction |].
  apply convolve_length; discriminate.
Qed.

Lemma contact_force_Ok (L : MathLib) (mass : Q) :
  0 < mass ->
  exists frc : list Q,
    contact_force L mass = Ok frc /\
    length frc = Z.to_nat (n_pts mass) /\ (1 <= n_pts mass)%Z.
Proof.
  intros Hm.
  assert (Hn : (1 <= n_pts mass)%Z).
  { unfold n_pts. apply Qceiling_pos.
    pose proof (contact_time_pos mass Hm). lra. }
  unfold contact_force.
  destruct (linspace 0 (math_pi L) (n_pts mass)) as [tt | e |] eqn:E.
  - exists (map (np_sin L) tt). split; [reflexivity |].
    rewrite length_map. split; [| exact Hn].
    eapply linspace_length. exact E.
  - unfold linspace in E. destruct (n_pts mass <? 0)%Z eqn:E0;
      [apply Z.ltb_lt in E0; lia |].
    destruct (Z.to_nat (n_pts mass)) as [| [| k]]; discriminate.
  - unfold linspace in E. destruct (n_pts mass <? 0)%Z;
      [discriminate |].
    destruct (Z.to_nat (n_pts mass)) as [| [| k]]; discriminate.
Qed.

(** X4: for a positive mass and a summed mode signal that is not empty,
    [synth_impact_modes] returns a signal, of the length of the full
    convolution: the length of the longer rendering plus the number of
    samples of the contact pulse, minus one. *)
Theorem synth_impact_modes_length (L : MathLib) (modes1 modes2 : Modes)
        (mass : Q) (h1 h2 : list Q) :
  0 < mass ->
  sum_modes L modes1 44100 = Ok h1 ->
  sum_modes L modes2 44100 = Ok h2 ->
  mode_add h1 h2 <> [] ->
  exists x : list Q,
    synth_impact_modes L modes1 modes2 mass = Ok (Some x) /\
    length x
    = (Nat.max (length h1) (length h2) + Z.to_nat (n_pts mass) - 1)%nat.
Proof.
  intros Hm H1 H2 Hne.
  destruct (contact_force_Ok L mass Hm) as (frc & Hfrc & Hlen & Hn).
  assert (Hfne : frc <> []).
  { intros ->. simpl in Hlen. lia. }
  pose proof (fftconvolve_length _ _ Hne Hfne) as Hl.
  assert (Hpos : (length (mode_add h1 h2) =? 0)%nat = false).
  { apply Nat.eqb_neq. destruct (mode_add h1 h2); [contradiction |].
    discriminate. }
  unfold synth_impact_modes. rewrite H1, H2. simpl.
  rewrite Hpos, Hfrc. simpl.
  destruct (fftconvolve (mode_add h1 h2) frc) as [| v x] eqn:Ex.
  { apply Nat.eqb_neq in Hpos. simpl in Hl. lia. }
  simpl. eexists. split; [reflexivity |].
  simpl length in *. rewrite length_map, Hl, mode_add_length, Hlen.
  reflexivity.
Qed.

(** X5: with a mass that is not positive the contact pulse has no sample,
    and [synth_impact_modes] ends in [ValueError] as soon as the summed mode
    signal is not empty (an empty one gives [None] first). *)
Theorem synth_impact_modes_bad_mass (L : MathLib) (modes1 modes2 : Modes)
        (mass : Q) (h1 h2 : list Q) :
  mass <= 0 ->
  sum_modes L modes1 44100 = Ok h1 ->
  sum_modes L modes2 44100 = Ok h2 ->
  mode_add h1 h2 <> [] ->
  (n_pts mass <= 0)%Z /\
  synth_impact_modes L modes1 modes2 mass = Raise ValueError.
Proof.
  intros Hm H1 H2 Hne.
  assert (Hn : (n_pts mass <= 0)%Z).
  { unfold n_pts. change 0%Z with (Qceiling 0). apply Qceiling_resp_le.
    pose proof (Q.le_min_l (0.001 * mass) 0.002) as Hle.
    unfold contact_time. lra. }
  split; [exact Hn |].
  unfold synth_impact_modes. rewrite H1, H2. simpl.
  destruct (mode_add h1 h2) as [| x0 h]; [contradiction |]. simpl.
  unfold contact_force, linspace.
  destruct (n_pts mass <? 0)%Z eqn:E; [reflexivity |].
  apply Z.ltb_ge in E. replace (n_pts mass) with 0%Z by lia.
  reflexivity.
Qed.

Lemma np_max_scaled (raw : list Q) (mx c : Q) :
  np_max raw = Ok mx -> 0 < c ->
  exists m' : Q,
    np_max (map (fun v => v / c) raw) = Ok m' /\ m' == mx / c /\
    Forall (fun v => v <= mx / c) (map (fun v => v / c) raw).
Proof.
  intros Hmx Hc.
  assert (Hmono : forall u v, u <= v -> u / c <= v / c).
  { intros u v Huv. unfold Qdiv. apply Qmult_le_compat_r; [exact Huv |].
    apply Qlt_le_weak, Qinv_lt_0_compat. exact Hc. }
  destruct (np_max (map (fun v => v / c) raw)) as [m' | e |] eqn:Hm';
    try (destruct raw; [discriminate | simpl in Hm'; discriminate]).
  apply np_max_spec in Hmx as (Hin & Hall).
  apply np_max_spec in Hm' as (Hin' & Hall').
  rewrite List.Forall_forall in Hall, Hall'.
  assert (Hbound : Forall (fun v => v <= mx / c) (map (fun v => v / c) raw)).
  { apply List.Forall_forall. intros y Hy.
    apply in_map_iff in Hy as (v & <- & Hv). apply Hmono, Hall, Hv. }
  exists m'. split; [reflexivity |]. split; [| exact Hbound].
  apply Qle_antisym.
  - rewrite List.Forall_forall in Hbound. apply Hbound, Hin'.
  - apply Hall'. apply in_map_iff. exists mx. split; [reflexivity | exact Hin].
Qed.

(** X6: the signal that [synth_impact_modes] returns is the convolution
    divided by the absolute value of its largest sample: when that sample
    is positive, the largest sample of the result is 1 and no sample exceeds
    1; when it is negative, the largest sample of the result is -1. *)
Theorem synth_impact_modes_normalised (L : MathLib) (modes1 modes2 : Modes)
        (mass : Q) (x : list Q) :
  synth_impact_modes L modes1 modes2 mass = Ok (Some x) ->
  exists (raw : list Q) (mx m' : Q),
    np_max raw = Ok mx /\
    x = map (fun v => v / Qabs mx) raw /\
    np_max x = Ok m' /\
    (0 < mx -> m' == 1 /\ Forall (fun v => v <= 1) x) /\
    (mx < 0 -> m' == -1).
Proof.
  unfold synth_impact_modes. intros H.
  apply result_bind_Ok in H as (h1 & _ & H).
  apply result_bind_Ok in H as (h2 & _ & H).
  destruct (length (mode_add h1 h2) =? 0)%nat; [discriminate |].
  apply result_bind_Ok in H as (frc & _ & H).
  apply result_bind_Ok in H as (mx & Hmx & H).
  injection H as <-.
  set (raw := fftconvolve (mode_add h1 h2) frc) in *.
  destruct (np_max (map (fun v => v / Qabs mx) raw)) as [m' | e |] eqn:Hm';
    try (destruct raw; [discriminate | simpl in Hm'; discriminate]).
  exists raw, mx, m'. split; [exact Hmx |]. split; [reflexivity |].
  split; [reflexivity |]. split.
  - intros Hpos.
    assert (Habs : 0 < Qabs mx) by (rewrite Qabs_pos; lra).
    destruct (np_max_scaled raw mx (Qabs mx) Hmx Habs)
      as (m'' & Hm'' & Heq & Hall).
    rewrite Hm' in Hm''. injection Hm'' as <-.
    assert (Hone : mx / Qabs mx == 1).
    { rewrite Qabs_pos by lra. field. lra. }
    split; [rewrite Heq; exact Hone |].
    eapply Forall_impl; [exact Hall |]. intros v Hv. simpl in Hv.
    rewrite Hone in Hv. exact Hv.
  - intros Hneg.
    assert (Habs : 0 < Qabs mx) by (rewrite Qabs_neg; lra).
    destruct (np_max_scaled raw mx (Qabs mx) Hmx Habs)
      as (m'' & Hm'' & Heq & _).
    rewrite Hm' in Hm''. injection Hm'' as <-.
    rewrite Heq, Qabs_neg by lra. field. lra.
Qed.

(** ** Two small ModeSets, rendered *)

(** A ModeSet whose only mode starts at -90 dB is silent. *)
Lemma inaudible_modes_give_no_sound_witness :
  synth_impact_modes Approx.lib (mkModes [440] [-90] [1] None)
                     (mkModes [440] [-90] [1] None) 1 = Ok None.
Proof.
  apply (inaudible_modes_give_no_sound Approx.lib
           (mkModes [440] [-90] [1] None) (mkModes [440] [-90] [1] None) 1).
  - split; [discriminate | split; reflexivity].
  - split; [discriminate | split; reflexivity].
  - split; repeat constructor; discriminate.
  - split; repeat constructor; discriminate.
Defined.

(** A mode that starts at -79.9 dB with a decay time of 1 ms is one sample
    long; with the three samples of the pulse of a 50 g body the signal has
    three samples. *)
Lemma synth_impact_modes_length_witness :
  exists x : list Q,
    synth_impact_modes Approx.lib (mkModes [440] [-79.9] [1] None)
                       (mkModes [440] [-79.9] [1] None) 0.05 = Ok (Some x) /\
    length x = 3%nat.
Proof.
  eassert (H1 : sum_modes Approx.lib (mkModes [440] [-79.9] [1] None) 44100
                = Ok _) by (vm_compute; reflexivity).
  destruct (synth_impact_modes_length Approx.lib _ _ 0.05 _ _ eq_refl H1 H1
              ltac:(vm_compute; discriminate)) as (x & Hx & Hl).
  exists x. split; [exact Hx | rewrite Hl; reflexivity].
Defined.

(** The same ModeSets with a mass of zero. *)
Lemma synth_impact_modes_bad_mass_witness :
  synth_impact_modes Approx.lib (mkModes [440] [-79.9] [1] None)
                     (mkModes [440] [-79.9] [1] None) 0 = Raise ValueError.
Proof.
  eassert (H1 : sum_modes Approx.lib (mkModes [440] [-79.9] [1] None) 44100
                = Ok _) by (vm_compute; reflexivity).
  apply (synth_impact_modes_bad_mass Approx.lib _ _ 0 _ _
           ltac:(discriminate) H1 H1 ltac:(vm_compute; discriminate)).
Defined.

Lemma synth_impact_modes_normalised_witness :
  exists (x : list Q) (m' : Q),
    synth_impact_modes Approx.lib (mkModes [440] [-79.9] [1] None)
                       (mkModes [440] [-79.9] [1] None) 0.05 = Ok (Some x) /\
    np_max x = Ok m'.
Proof.
  eassert (Hx : synth_impact_modes Approx.lib (mkModes [440] [-79.9] [1] None)
                  (mkModes [440] [-79.9] [1] None) 0.05 = Ok (Some _))
    by (vm_compute; reflexivity).
  destruct (synth_impact_modes_normalised Approx.lib _ _ _ _ Hx)
    as (raw & mx & m' & _ & _ & Hm & _).
  eexists. exists m'. split; [exact Hx | exact Hm].
Defined.

(** ** The encoding of a sound, decoded *)

Lemma int16_bytes_bytes (v : Z) : is_bytes (int16_bytes v).
Proof.
  unfold is_bytes, int16_bytes.
  change 255%Z with (Z.ones 8). rewrite !Z.land_ones by lia.
  repeat constructor; apply Z.mod_pos_bound; reflexivity.
Qed.

Lemma pcm_bytes_bytes (samples : list Z) : is_bytes (pcm_bytes samples).
Proof.
  unfold is_bytes, pcm_bytes. induction samples as [| v samples IH]; simpl.
  - constructor.
  - pose proof (int16_bytes_bytes v) as Hb. unfold is_bytes, int16_bytes in Hb.
    inversion Hb as [| ? ? H1 H2]; subst.
    inversion H2 as [| ? ? H3 _]; subst.
    constructor; [exact H1 | constructor; [exact H3 | exact IH]].
Qed.

Lemma int16_of_int16_bytes (v : Z) :
  (-32768 <= v <= 32767)%Z ->
  int16_of_bytes (Z.land v 255) (Z.land (Z.shiftr v 8) 255) = v.
Proof.
  intros Hv. unfold int16_of_bytes.
  change 255%Z with (Z.ones 8). rewrite !Z.land_ones by lia.
  rewrite Z.shiftr_div_pow2 by lia. change (2 ^ 8)%Z with 256%Z.
  destruct (Z.ltb_spec (v mod 256 + 256 * ((v / 256) mod 256)) 32768);
    Z.div_mod_to_equations; lia.
Qed.

Lemma pcm_samples_pcm_bytes (samples : list Z) :
  Forall (fun v => (-32768 <= v <= 32767)%Z) samples ->
  pcm_samples (pcm_bytes samples) = samples.
Proof.
  unfold pcm_bytes. induction 1 as [| v samples Hv _ IH]; simpl;
    [reflexivity |].
  rewrite int16_of_int16_bytes by exact Hv. rewrite IH. reflexivity.
Qed.

(** Bits that do not overlap add up. *)
Lemma lor_add (x y k : Z) :
  (0 <= k)%Z -> (0 <= y < 2 ^ k)%Z -> (x mod 2 ^ k = 0)%Z ->
  Z.lor x y = (x + y)%Z.
Proof.
  intros Hk Hy Hx. rewrite <- Z.add_lor_land.
  assert (E : Z.land x y = 0%Z); [| rewrite E; lia].
  apply Z.bits_inj'. intros i Hi.
  rewrite Z.land_spec, Z.bits_0.
  destruct (Z.lt_ge_cases i k) as [Hlt | Hge].
  - assert (Hx0 : Z.testbit x i = false); [| rewrite Hx0; reflexivity].
    rewrite <- (Z.mod_pow2_bits_low x k i) by lia. rewrite Hx.
    apply Z.bits_0.
  - assert (Hy0 : Z.testbit y i = false); [| rewrite Hy0; apply andb_false_r].
    destruct (Z.eq_dec y 0%Z) as [-> | Hne]; [apply Z.bits_0 |].
    apply Z.bits_above_log2; [lia |].
    assert (Z.log2 y < k)%Z by (apply Z.log2_lt_pow2; lia). lia.
Qed.

Ltac lor_to_add x k p :=
  rewrite (lor_add x _ k)
    by (try change (2 ^ k)%Z with p; Z.div_mod_to_equations; lia).

Ltac land_to_mod :=
  change 63%Z with (Z.ones 6); change 255%Z with (Z.ones 8);
  rewrite ?Z.land_ones, ?Z.shiftr_div_pow2 by lia;
  change (2 ^ 6)%Z with 64%Z; change (2 ^ 8)%Z with 256%Z;
  change (2 ^ 12)%Z with 4096%Z; change (2 ^ 16)%Z with 65536%Z;
  change (2 ^ 18)%Z with 262144%Z.

Ltac shiftl_to_mul :=
  rewrite ?Z.shiftl_mul_pow2 by lia;
  change (2 ^ 6)%Z with 64%Z; change (2 ^ 8)%Z with 256%Z;
  change (2 ^ 12)%Z with 4096%Z; change (2 ^ 16)%Z with 65536%Z;
  change (2 ^ 18)%Z with 262144%Z.

(** The 24 bits of three bytes, cut in four and put together again. *)
Lemma sextets (a b c : Z) :
  (0 <= a < 256)%Z -> (0 <= b < 256)%Z -> (0 <= c < 256)%Z ->
  let n := Z.lor (Z.lor (Z.shiftl a 16) (Z.shiftl b 8)) c in
  let s1 := Z.land (Z.shiftr n 18) 63 in
  let s2 := Z.land (Z.shiftr n 12) 63 in
  let s3 := Z.land (Z.shiftr n 6) 63 in
  let s4 := Z.land n 63 in
  (0 <= s1 < 64)%Z /\ (0 <= s2 < 64)%Z /\ (0 <= s3 < 64)%Z /\
  (0 <= s4 < 64)%Z /\
  (c = 0 -> s4 = 0)%Z /\ (b = 0 -> c = 0 -> s3 = 0)%Z /\
  let n' := Z.lor (Z.lor (Z.lor (Z.shiftl s1 18) (Z.shiftl s2 12))
                         (Z.shiftl s3 6)) s4 in
  Z.land (Z.shiftr n' 16) 255 = a /\
  Z.land (Z.shiftr n' 8) 255 = b /\
  Z.land n' 255 = c.
Proof.
  intros Ha Hb Hc n s1 s2 s3 s4.
  assert (Hn : n = (a * 65536 + b * 256 + c)%Z).
  { subst n. shiftl_to_mul. lor_to_add (a * 65536)%Z 16%Z 65536%Z.
    lor_to_add (a * 65536 + b * 256)%Z 8%Z 256%Z.
    reflexivity. }
  assert (H1 : s1 = ((n / 262144) mod 64)%Z) by (subst s1; land_to_mod; reflexivity).
  assert (H2 : s2 = ((n / 4096) mod 64)%Z) by (subst s2; land_to_mod; reflexivity).
  assert (H3 : s3 = ((n / 64) mod 64)%Z) by (subst s3; land_to_mod; reflexivity).
  assert (H4 : s4 = (n mod 64)%Z) by (subst s4; land_to_mod; reflexivity).
  clearbody n s1 s2 s3 s4.
  assert (R1 : (0 <= s1 < 64)%Z) by (subst s1; apply Z.mod_pos_bound; lia).
  assert (R2 : (0 <= s2 < 64)%Z) by (subst s2; apply Z.mod_pos_bound; lia).
  assert (R3 : (0 <= s3 < 64)%Z) by (subst s3; apply Z.mod_pos_bound; lia).
  assert (R4 : (0 <= s4 < 64)%Z) by (subst s4; apply Z.mod_pos_bound; lia).
  assert (Hsum : (s1 * 262144 + s2 * 4096 + s3 * 64 + s4 = n)%Z).
  { subst. Z.div_mod_to_equations. lia. }
  repeat (split; [assumption |]).
  split; [intros ->; subst; Z.div_mod_to_equations; lia |].
  split; [intros -> ->; subst; Z.div_mod_to_equations; lia |].
  intros n'.
  assert (Hn' : n' = n).
  { subst n'. shiftl_to_mul. lor_to_add (s1 * 262144)%Z 18%Z 262144%Z.
    lor_to_add (s1 * 262144 + s2 * 4096)%Z 12%Z 4096%Z.
    lor_to_add (s1 * 262144 + s2 * 4096 + s3 * 64)%Z 6%Z 64%Z. exact Hsum. }
  rewrite Hn'. land_to_mod.
  subst n. repeat split; Z.div_mod_to_equations; lia.
Qed.

(** The 64 characters of the alphabet are distinct, and none is the
    padding. *)
Lemma b64_char_index (n : Z) :
  (0 <= n < 64)%Z ->
  b64_index (b64_char n) = n /\ Ascii.eqb (b64_char n) "=" = false.
Proof.
  intros Hn.
  assert (Hall : forallb
            (fun i => Z.eqb (b64_index (b64_char (Z.of_nat i))) (Z.of_nat i)
                      && negb (Ascii.eqb (b64_char (Z.of_nat i)) "="))
            (seq 0 64) = true) by (vm_compute; reflexivity).
  rewrite forallb_forall in Hall.
  specialize (Hall (Z.to_nat n)). rewrite Z2Nat.id in Hall by lia.
  destruct (andb_prop _ _ (Hall ltac:(apply in_seq; lia))) as [H1 H2].
  split; [apply Z.eqb_eq, H1 | apply negb_true_iff, H2].
Qed.

Lemma b64decode_b64encode (bs : list Z) :
  is_bytes bs -> b64decode (b64encode bs) = bs.
Proof.
  assert (Hpad : b64_index "=" = 0%Z) by reflexivity.
  assert (H0 : (0 <= 0 < 256)%Z) by lia.
  enough (H : forall n bs', (length bs' <= n)%nat -> is_bytes bs' ->
                            b64decode (b64encode bs') = bs')
    by (apply (H (length bs)); lia).
  clear bs. induction n as [| n IH]; intros bs Hlen Hbs.
  { destruct bs; [reflexivity | simpl in Hlen; lia]. }
  destruct bs as [| a [| b [| c rest]]]; [reflexivity | | |].
  - inversion Hbs as [| ? ? Ha _]; subst.
    pose proof (sextets a 0 0 Ha H0 H0) as S. cbv zeta in S.
    rewrite (Z.shiftl_0_l 8), !Z.lor_0_r in S.
    destruct S as (R1 & R2 & _ & _ & Hs4 & Hs3 & E1 & _ & _).
    specialize (Hs4 eq_refl). specialize (Hs3 eq_refl eq_refl).
    rewrite Hs3, Hs4 in E1.
    destruct (b64_char_index _ R1) as [I1 _].
    destruct (b64_char_index _ R2) as [I2 _].
    cbn [b64encode b64decode]. rewrite I1, I2, Hpad.
    change (Ascii.eqb "=" "=") with true. cbv iota.
    rewrite E1. reflexivity.
  - inversion Hbs as [| ? ? Ha Hbs']; subst.
    inversion Hbs' as [| ? ? Hb _]; subst.
    pose proof (sextets a b 0 Ha Hb H0) as S. cbv zeta in S.
    rewrite !Z.lor_0_r in S.
    destruct S as (R1 & R2 & R3 & _ & Hs4 & _ & E1 & E2 & _).
    specialize (Hs4 eq_refl). rewrite Hs4 in E1, E2.
    destruct (b64_char_index _ R1) as [I1 _].
    destruct (b64_char_index _ R2) as [I2 _].
    destruct (b64_char_index _ R3) as [I3 P3].
    cbn [b64encode b64decode]. rewrite I1, I2, I3, P3, Hpad.
    change (Ascii.eqb "=" "=") with true. cbv iota.
    rewrite E1, E2. reflexivity.
  - inversion Hbs as [| ? ? Ha Hbs']; subst.
    inversion Hbs' as [| ? ? Hb Hbs'']; subst.
    inversion Hbs'' as [| ? ? Hc Hrest]; subst.
    pose proof (sextets a b c Ha Hb Hc) as S. cbv zeta in S.
    destruct S as (R1 & R2 & R3 & R4 & _ & _ & E1 & E2 & E3).
    destruct (b64_char_index _ R1) as [I1 _].
    destruct (b64_char_index _ R2) as [I2 _].
    destruct (b64_char_index _ R3) as [I3 P3].
    destruct (b64_char_index _ R4) as [I4 P4].
    cbn [b64encode b64decode]. rewrite I1, I2, I3, I4, P3, P4.
    rewrite E1, E2, E3, (IH rest); [reflexivity | | exact Hrest].
    simpl in Hlen. lia.
Qed.

Lemma b64encode_length (bs : list Z) :
  String.length (b64encode bs) = (4 * ((length bs + 2) / 3))%nat.
Proof.
  enough (H : forall n bs', (length bs' <= n)%nat ->
                            String.length (b64encode bs')
                            = (4 * ((length bs' + 2) / 3))%nat)
    by (apply (H (length bs)); lia).
  clear bs. induction n as [| n IH]; intros bs Hlen.
  { destruct bs; [reflexivity | simpl in Hlen; lia]. }
  destruct bs as [| a [| b [| c rest]]]; [reflexivity .. |].
  cbn [b64encode String.length length]. rewrite (IH rest)
    by (simpl in Hlen; lia).
  replace (S (S (S (length rest))) + 2)%nat
    with ((length rest + 2) + 1 * 3)%nat by lia.
  rewrite Nat.div_add by lia. lia.
Qed.

(** ** Samples in range *)

Lemma Qtrunc_bounds (x : Q) (k : Z) :
  - inject_Z k <= x <= inject_Z k -> (- k <= Qtrunc x <= k)%Z.
Proof.
  intros [Hlo Hhi]. unfold Qtrunc. destruct (Qltb x 0) eqn:E.
  - apply Qltb_lt in E. split.
    + rewrite <- (Qceiling_Z (- k)). apply Qceiling_resp_le.
      rewrite inject_Z_opp. exact Hlo.
    + assert (Qceiling x <= 0)%Z; [| assert (0 <= k)%Z; [| lia]].
      * change 0%Z with (Qceiling 0). apply Qceiling_resp_le. lra.
      * rewrite Zle_Qle. change (inject_Z 0) with 0. lra.
  - apply Qltb_ge in E. split.
    + assert (0 <= Qfloor x)%Z; [| assert (0 <= k)%Z; [| lia]].
      * change 0%Z with (Qfloor 0). apply Qfloor_resp_le. exact E.
      * rewrite Zle_Qle. change (inject_Z 0) with 0. lra.
    + rewrite <- (Qfloor_Z k). apply Qfloor_resp_le. exact Hhi.
Qed.

Lemma to_int16_in_range (x : Q) :
  -1 <= x <= 1 ->
  to_int16 x = Qtrunc (x * 32767) /\ (-32767 <= to_int16 x <= 32767)%Z.
Proof.
  intros Hx. unfold to_int16, wrap_int16.
  assert (H : (- 32767 <= Qtrunc (x * 32767) <= 32767)%Z).
  { apply (Qtrunc_bounds (x * 32767) 32767).
    change (inject_Z 32767) with 32767. lra. }
  split; Z.div_mod_to_equations; lia.
Qed.

Lemma scale_sound_bounded (a : Q) (sound out : list Q) (mx : Q) :
  np_max (map Qabs sound) = Ok mx -> 0 < mx ->
  scale_sound a sound = Ok out ->
  Forall (fun x => Qabs x <= Qabs a) out.
Proof.
  intros Hmx Hpos. unfold scale_sound. rewrite Hmx. simpl.
  intros H. injection H as <-.
  apply np_max_spec in Hmx as (_ & Hall).
  rewrite List.Forall_forall in Hall. apply List.Forall_forall.
  intros y Hy. apply in_map_iff in Hy as (x0 & <- & Hx0).
  rewrite Qabs_scaled by exact Hpos.
  assert (Hx0' : Qabs x0 <= mx) by (apply Hall, in_map, Hx0).
  assert (Hq : Qabs x0 / mx <= 1).
  { apply Qle_shift_div_r; [exact Hpos | lra]. }
  pose proof (Qabs_nonneg a) as Ha. pose proof (Qabs_nonneg x0) as Hx.
  assert (Hq0 : 0 <= Qabs x0 / mx).
  { apply Qle_shift_div_l; [exact Hpos | lra]. }
  generalize dependent (Qabs x0 / mx). generalize dependent (Qabs a).
  intros A HA q Hq Hq0. nra.
Qed.

(** X7: [Base64Sound.__init__] loses nothing but what the cast to
    [int16] drops: decoding the base64 string and reading the bytes two by
    two, low byte first, gives back the [int16] samples of the sound; the
    attribute [length] is twice the number of samples, and the string has
    four characters for every three bytes, the last group padded. *)
Theorem Base64Sound_round_trip (snd : list Q) :
  pcm_samples (b64decode (wav_str (new_Base64Sound snd))) = map to_int16 snd /\
  snd_length (new_Base64Sound snd) = (2 * length snd)%nat /\
  String.length (wav_str (new_Base64Sound snd))
  = (4 * ((2 * length snd + 2) / 3))%nat.
Proof.
  unfold new_Base64Sound. cbn [wav_str snd_length].
  rewrite b64decode_b64encode by apply pcm_bytes_bytes.
  rewrite b64encode_length, pcm_bytes_length, length_map.
  split; [| split; reflexivity].
  apply pcm_samples_pcm_bytes. apply List.Forall_forall.
  intros v Hv. apply in_map_iff in Hv as (x & <- & _). apply to_int16_range.
Qed.

(** X8: the signal that [get_sound] hands to [Base64Sound], scaled by
    an amplitude between -1 and 1 over its positive peak, has every sample
    between -1 and 1, and the cast of such a sample to [int16] does not wrap
    around: it is the sample times 32767, truncated. *)
Theorem scaled_samples_do_not_wrap (a : Q) (sound out : list Q) (mx : Q) :
  np_max (map Qabs sound) = Ok mx -> 0 < mx -> -1 <= a <= 1 ->
  scale_sound a sound = Ok out ->
  Forall (fun x => -1 <= x <= 1 /\ to_int16 x = Qtrunc (x * 32767) /\
                   (-32767 <= to_int16 x <= 32767)%Z) out.
Proof.
  intros Hmx Hpos Ha Hout.
  pose proof (scale_sound_bounded a sound out mx Hmx Hpos Hout) as Hall.
  rewrite List.Forall_forall in Hall. apply List.Forall_forall.
  intros x Hx. specialize (Hall x Hx).
  assert (Hr : -1 <= x <= 1).
  { assert (Qabs a <= 1) by (apply Qabs_Qle_condition; exact Ha).
    apply (Qabs_Qle_condition x 1). lra. }
  split; [exact Hr | apply to_int16_in_range, Hr].
Qed.

Lemma scaled_samples_do_not_wrap_witness :
  Forall (fun x => -1 <= x <= 1 /\ to_int16 x = Qtrunc (x * 32767) /\
                   (-32767 <= to_int16 x <= 32767)%Z)
         (map (fun s => 0.5 * s / 2) [1; -2]).
Proof.
  apply (scaled_samples_do_not_wrap 0.5 [1; -2] _ 2).
  - reflexivity.
  - reflexivity.
  - split; discriminate.
  - reflexivity.
Defined.

(** ** What a call leaves alone *)

Lemma preserves_bind {A B X} (f : state -> X) (m : M A) (k : A -> M B) :
  preserves f m -> (forall a, preserves f (k a)) -> preserves f (m ≫= k).
Proof.
  intros Hm Hk st. rewrite M_bind_unfold. specialize (Hm st).
  destruct (m st) as [[a | e |] st1]; simpl in *; try exact Hm.
  rewrite Hk. exact Hm.
Qed.

Lemma preserves_pure {A X} (f : state -> X) (m : M A) :
  (forall st, (m st).2 = st) -> preserves f m.
Proof. intros H st. rewrite H. reflexivity. Qed.

Lemma preserves_reads_tape {A X} (f : state -> X) (m : M A) :
  (forall st st', self_ st' = self_ st -> f st' = f st) ->
  reads_tape m -> preserves f m.
Proof. intros Hf Hm st. apply Hf, Hm. Qed.

Lemma preserves_get_pair {X} (f : state -> X) (id2 id1 : Z) :
  preserves f (get_pair id2 id1).
Proof.
  apply preserves_pure. intros st. unfold get_pair.
  destruct (lookup_pair (object_modes (self_ st)) id2 id1); reflexivity.
Qed.

Lemma lookup_pair_insert_ne (om : gmap Z (gmap Z CollisionInfo))
      (inner : gmap Z CollisionInfo) (id2 id1 j2 j1 : Z)
      (ci : CollisionInfo) :
  (j2, j1) <> (id2, id1) ->
  lookup_pair (<[id2 := <[id1 := ci]> inner]> om) j2 j1
  = lookup_pair (<[id2 := inner]> om) j2 j1.
Proof.
  intros Hne. unfold lookup_pair.
  destruct (decide (j2 = id2)) as [-> | H2].
  - rewrite !lookup_insert_eq. simpl.
    apply lookup_insert_ne. congruence.
  - rewrite !lookup_insert_ne by congruence. reflexivity.
Qed.

Lemma lookup_pair_insert_same (om : gmap Z (gmap Z CollisionInfo))
      (inner : gmap Z CollisionInfo) (id2 j2 j1 : Z) :
  om !! id2 = Some inner ->
  lookup_pair (<[id2 := inner]> om) j2 j1 = lookup_pair om j2 j1.
Proof. intros H. rewrite insert_id by exact H. reflexivity. Qed.

Section OtherPair.
Context (L : MathLib) (id2 id1 j2 j1 : Z).
Context (Hne : (j2, j1) <> (id2, id1)).

Lemma other_pair_self (st st' : state) :
  self_ st' = self_ st -> other_pair j2 j1 st' = other_pair j2 j1 st.
Proof. unfold other_pair, config. intros ->. reflexivity. Qed.

Lemma preserves_update_pair (f : CollisionInfo -> CollisionInfo) :
  preserves (other_pair j2 j1) (update_pair id2 id1 f).
Proof.
  intros st. unfold update_pair.
  destruct (object_modes (self_ st) !! id2) as [inner |] eqn:Ho;
    [| reflexivity].
  destruct (inner !! id1) as [ci |] eqn:Hi; [| reflexivity].
  unfold other_pair, config. simpl.
  rewrite lookup_pair_insert_ne by exact Hne.
  rewrite lookup_pair_insert_same by exact Ho. reflexivity.
Qed.

Lemma preserves_set_object_modes_of (mat1 mat2 : Material) :
  preserves (other_pair j2 j1) (set_object_modes_of id1 mat1 id2 mat2).
Proof.
  intros st. unfold set_object_modes_of. rewrite M_bind_unfold. simpl.
  rewrite M_bind_unfold. simpl.
  set (om' := match object_modes (self_ st) !! id2 with
              | Some _ => object_modes (self_ st)
              | None => <[id2:=∅]> (object_modes (self_ st))
              end).
  assert (Hom : lookup_pair om' j2 j1
                = lookup_pair (object_modes (self_ st)) j2 j1).
  { subst om'. destruct (object_modes (self_ st) !! id2) eqn:E;
      [reflexivity |].
    unfold lookup_pair. destruct (decide (j2 = id2)) as [-> | H2].
    - rewrite lookup_insert_eq, E. simpl. apply lookup_empty.
    - rewrite lookup_insert_ne by congruence. reflexivity. }
  assert (Hin : om' !! id2 = Some (default ∅ (om' !! id2))).
  { subst om'. destruct (object_modes (self_ st) !! id2) eqn:E.
    - rewrite E. reflexivity.
    - rewrite lookup_insert_eq. reflexivity. }
  set (st0 := mkState (set_object_modes (self_ st) om') (tape st)).
  assert (H0 : other_pair j2 j1 st0 = other_pair j2 j1 st).
  { unfold other_pair, config. simpl. rewrite Hom. reflexivity. }
  destruct (lookup_pair om' id2 id1) as [ci |] eqn:Hl; [exact H0 |].
  rewrite M_bind_unfold.
  destruct (_get_object_modes mat2 st0) as [[a | e |] sa] eqn:Ea;
    pose proof (reads_tape_run _ _ _ _ (reads_tape_get_object_modes mat2) Ea)
      as Hsa; simpl;
    try (rewrite (other_pair_self _ _ Hsa); exact H0).
  rewrite M_bind_unfold.
  destruct (_get_object_modes mat1 sa) as [[b | e |] sb] eqn:Eb;
    pose proof (reads_tape_run _ _ _ _ (reads_tape_get_object_modes mat1) Eb)
      as Hsb; simpl;
    try (rewrite (other_pair_self _ _ Hsb), (other_pair_self _ _ Hsa);
         exact H0).
  unfold other_pair, config. simpl. rewrite Hsb, Hsa. simpl.
  rewrite lookup_pair_insert_ne by exact Hne.
  rewrite lookup_pair_insert_same by exact Hin. rewrite Hom. reflexivity.
Qed.

Ltac preserves_step :=
  first [ apply preserves_get_pair
        | apply preserves_update_pair
        | apply preserves_pure; intros ?; reflexivity
        | apply preserves_reads_tape;
          [apply other_pair_self | apply reads_tape_normal_n] ].

Lemma preserves_first_collision (amp2re1 mass normal_speed : Q)
      (mat1 mat2 : Material) :
  preserves (other_pair j2 j1)
            (first_collision L amp2re1 mass normal_speed id1 id2 mat1 mat2).
Proof.
  unfold first_collision, make_impact_audio.
  apply preserves_bind.
  - repeat (apply preserves_bind; [preserves_step | intros ?]).
    preserves_step.
  - intros [[sound modes_1] modes_2].
    repeat (apply preserves_bind; [preserves_step | intros ?]).
    preserves_step.
Qed.

Lemma preserves_repeat_collision (mass normal_speed : Q) :
  preserves (other_pair j2 j1)
            (repeat_collision L mass normal_speed id1 id2).
Proof.
  unfold repeat_collision.
  repeat (apply preserves_bind; [preserves_step | intros ?]).
  preserves_step.
Qed.

Lemma preserves_get_sound (collision : CollisionData)
      (rigidbodies : list Rigidbody) (mat1 mat2 : Material) (amp2re1 : Q) :
  preserves (other_pair j2 j1)
            (get_sound L collision rigidbodies id1 mat1 id2 mat2 amp2re1).
Proof.
  unfold get_sound.
  apply preserves_bind; [apply preserves_set_object_modes_of | intros _].
  destruct (is_Collision collision
            && (is_None (last_index rigidbodies id1 0 None)
                || is_None (last_index rigidbodies id2 0 None)));
    [preserves_step |].
  apply preserves_bind;
    [destruct (is_Collision collision); preserves_step | intros m1].
  apply preserves_bind; [preserves_step | intros m2].
  apply preserves_bind; [preserves_step | intros ci].
  apply preserves_bind.
  { destruct (count ci =? 0)%nat;
      [apply preserves_first_collision | apply preserves_repeat_collision]. }
  intros [[sound |] amp]; [| preserves_step].
  repeat (apply preserves_bind; [preserves_step | intros ?]).
  preserves_step.
Qed.

End OtherPair.

Lemma get_sound_config (L : MathLib) (collision : CollisionData)
      (rigidbodies : list Rigidbody) (id1 : Z) (mat1 : Material) (id2 : Z)
      (mat2 : Material) (amp2re1 : Q) (st : state) :
  config (get_sound L collision rigidbodies id1 mat1 id2 mat2 amp2re1 st).2
  = config st.
Proof.
  assert (Hne : ((id2 + 1)%Z, id1) <> (id2, id1))
    by (intros H; injection H; lia).
  pose proof (preserves_get_sound L id2 id1 _ _ Hne collision rigidbodies
                                  mat1 mat2 amp2re1 st) as H.
  unfold other_pair in H. congruence.
Qed.

(** X9: whatever its outcome (a sound, no sound, an exception),
    a call of [get_sound] for the pair of [id2] and [id1] leaves the
    configuration of the synthesizer (the initial amplitude, the distortion
    flag, the material templates) and the entry of every other pair as they
    were. *)
Theorem get_sound_frame (L : MathLib) (collision : CollisionData)
        (rigidbodies : list Rigidbody) (id1 : Z) (mat1 : Material) (id2 : Z)
        (mat2 : Material) (amp2re1 : Q) (j2 j1 : Z) (st : state) :
  (j2, j1) <> (id2, id1) ->
  let st' :=
    (get_sound L collision rigidbodies id1 mat1 id2 mat2 amp2re1 st).2 in
  config st' = config st /\
  lookup_pair (object_modes (self_ st')) j2 j1
  = lookup_pair (object_modes (self_ st)) j2 j1.
Proof.
  intros Hne st'.
  pose proof (preserves_get_sound L id2 id1 j2 j1 Hne collision rigidbodies
                                  mat1 mat2 amp2re1 st) as H.
  unfold other_pair in H. fold st' in H.
  split; congruence.
Qed.

Lemma get_sound_frame_witness :
  lookup_pair
    (object_modes
       (self_ (get_sound Approx.lib (hit 1 (-1)) bodies 2 ceramic_ 1 wood_ 1
                         st1).2)) 2 1
  = lookup_pair (object_modes (self_ st1)) 2 1.
Proof.
  apply (get_sound_frame Approx.lib (hit 1 (-1)) bodies 2 ceramic_ 1 wood_ 1
                         2 1 st1).
  discriminate.
Defined.

(** ** The command *)

(** X10: with a target amplitude of zero, [get_impact_sound_command] ends
    in a [ZeroDivisionError] at its first statement: the synthesizer is left
    exactly as it was, no entry is created and no draw is taken. *)
Theorem get_impact_sound_command_zero_amp (L : MathLib)
        (collision : CollisionData) (rigidbodies : list Rigidbody)
        (target_id : Z) (target_mat : Material) (target_amp : Q)
        (other_id : Z) (other_mat : Material) (other_amp : Q)
        (play_audio_data : bool) (st : state) :
  target_amp == 0 ->
  get_impact_sound_command L collision rigidbodies target_id target_mat
                           target_amp other_id other_mat other_amp
                           play_audio_data st
  = (Raise ZeroDivisionError, st).
Proof.
  intros H. unfold get_impact_sound_command.
  apply Qeq_bool_iff in H. rewrite H. reflexivity.
Qed.

Lemma get_impact_sound_command_zero_amp_witness :
  get_impact_sound_command Approx.lib (hit 2 (-1)) bodies 1 wood_ 0 2
                           ceramic_ 0.5 true st0
  = (Raise ZeroDivisionError, st0).
Proof.
  apply (get_impact_sound_command_zero_amp Approx.lib (hit 2 (-1)) bodies 1
           wood_ 0 2 ceramic_ 0.5 true st0).
  reflexivity.
Defined.

(** X11: a command that [get_impact_sound_command] returns.  The target
    amplitude is not zero, and the call of [get_sound] behind it has the
    other object as the first of the pair, the target as the second, and
    the ratio of the other amplitude to the target's.  A command that plays
    audio carries the target's id, the type chosen by the flag, one
    channel at 44100 Hz and the offset 0.1; it comes from a sound of
    [get_sound], after which the pair stored under the target, then the
    other object, has counted at least one collision.  The command that
    does nothing comes from a call of [get_sound] without a sound.  Either
    way the configuration of the synthesizer is as before. *)
Theorem get_impact_sound_command_Ok (L : MathLib)
        (collision : CollisionData) (rigidbodies : list Rigidbody)
        (target_id : Z) (target_mat : Material) (target_amp : Q)
        (other_id : Z) (other_mat : Material) (other_amp : Q)
        (play_audio_data : bool) (st st' : state) (cmd : Command) :
  get_impact_sound_command L collision rigidbodies target_id target_mat
                           target_amp other_id other_mat other_amp
                           play_audio_data st
  = (Ok cmd, st') ->
  ~ target_amp == 0 /\
  config st' = config st /\
  match cmd with
  | PlayData type_ id num_frames num_channels frame_rate wav_data y =>
      type_ = (if play_audio_data then "play_audio_data"
               else "play_point_source_data")%string /\
      id = target_id /\ num_channels = 1%Z /\ frame_rate = 44100%Z /\
      y = 0.1 /\
      exists b : Base64Sound,
        get_sound L collision rigidbodies other_id other_mat target_id
                  target_mat (other_amp / target_amp) st
        = (Ok (Some b), st') /\
        num_frames = snd_length b /\ wav_data = wav_str b /\
        (0 < pair_count target_id other_id st')%nat
  | DoNothing =>
      get_sound L collision rigidbodies other_id other_mat target_id
                target_mat (other_amp / target_amp) st
      = (Ok None, st')
  end.
Proof.
  unfold get_impact_sound_command. intros H.
  destruct (Qeq_bool target_amp 0) eqn:Hz.
  { rewrite M_bind_unfold in H. discriminate H. }
  split; [intros Hq; apply Qeq_bool_iff in Hq; congruence |].
  step_inv H as amp2re1 sa Hamp. inversion Hamp; subst; clear Hamp.
  step_inv H as r sb Hb.
  split.
  { pose proof (get_sound_config L collision rigidbodies other_id other_mat
                  target_id target_mat (other_amp / target_amp) sa) as Hcf.
    rewrite Hb in Hcf. destruct r; inversion H; subst; exact Hcf. }
  destruct r as [b |]; inversion H; subst; clear H; [| exact Hb].
  repeat (split; [reflexivity |]).
  exists b. split; [exact Hb |]. split; [reflexivity |].
  split; [reflexivity |].
  apply get_sound_Some in Hb
    as (st1 & st2 & ci & ci2 & m1 & m2 & sound & out & a & _ & _ & _ & _ & _
        & _ & _ & Hci' & _).
  unfold pair_count. rewrite Hci'. simpl. lia.
Qed.

(** The command for the first collision of the scenario. *)
Lemma get_impact_sound_command_Ok_witness :
  ~ 1 == 0 /\
  config (get_impact_sound_command Approx.lib (hit 2 (-1)) bodies 1 wood_ 1
                                   2 ceramic_ 1 true st0).2
  = config st0.
Proof.
  assert (Hcmd : (get_impact_sound_command
                    Approx.lib (hit 2 (-1)) bodies 1 wood_ 1 2 ceramic_ 1 true
                    st0).1
                 = Ok (PlayData "play_audio_data" 1 6 1 44100 "AAD/PwAA" 0.1))
    by (vm_compute; reflexivity).
  destruct (get_impact_sound_command_Ok
              Approx.lib (hit 2 (-1)) bodies 1 wood_ 1 2 ceramic_ 1 true st0
              _ _ (run_eq _ _ _ Hcmd))
    as (Hnz & Hcf & _).
  split; [exact Hnz | exact Hcf].
Defined.

(** ** The constructor and [reset] *)

Lemma amp_in_range (a : Q) :
  Qltb 0 a && Qltb a 1 = true <-> 0 < a /\ a < 1.
Proof. rewrite andb_true_iff, !Qltb_lt. reflexivity. Qed.

(** X12: the outcomes of [PyImpact.__init__].  It returns an object
    exactly when the amplitude is strictly between 0 and 1 and the six
    material files exist: the object has the amplitude and the flag given,
    no pair, and under each of the six material names the content of its
    file.  An amplitude out of range is an [AssertionError], whatever the
    files are; a missing file is an error only after that. *)
Theorem new_PyImpact_outcome (files : gmap string Template) (amp : Q)
        (prevent : bool) :
  match new_PyImpact files amp prevent with
  | Ok p =>
      0 < amp /\ amp < 1 /\
      initial_amp p = amp /\ prevent_distortion p = prevent /\
      object_modes p = ∅ /\
      Forall (fun '(mat, path) =>
                is_Some (files !! path) /\
                material_data p !! mat = files !! path) material_files
  | Raise e =>
      (e = AssertionError /\ ~ (0 < amp /\ amp < 1)) \/
      (e = FileNotFoundError /\ 0 < amp /\ amp < 1 /\
       Exists (fun '(_, path) => files !! path = None) material_files)
  | OutOfDraws => False
  end.
Proof.
  unfold new_PyImpact.
  destruct (Qltb 0 amp && Qltb amp 1) eqn:Hamp.
  2:{ left. split; [reflexivity |]. rewrite <- amp_in_range. congruence. }
  apply amp_in_range in Hamp as [Hlo Hhi].
  unfold material_files. simpl.
  destruct (files !! "Ceramic_mm"%string) as [d1 |] eqn:E1; simpl;
    [| right; repeat (split; [assumption || reflexivity |]);
       repeat first [apply Exists_cons_hd; assumption | apply Exists_cons_tl]].
  destruct (files !! "Poplar_mm"%string) as [d2 |] eqn:E2; simpl;
    [| right; repeat (split; [assumption || reflexivity |]);
       repeat first [apply Exists_cons_hd; assumption | apply Exists_cons_tl]].
  destruct (files !! "MetalStrip_mm"%string) as [d3 |] eqn:E3; simpl;
    [| right; repeat (split; [assumption || reflexivity |]);
       repeat first [apply Exists_cons_hd; assumption | apply Exists_cons_tl]].
  destruct (files !! "Mirror_mm"%string) as [d4 |] eqn:E4; simpl;
    [| right; repeat (split; [assumption || reflexivity |]);
       repeat first [apply Exists_cons_hd; assumption | apply Exists_cons_tl]].
  destruct (files !! "BalsaWood_mm"%string) as [d5 |] eqn:E5; simpl;
    [| right; repeat (split; [assumption || reflexivity |]);
       repeat first [apply Exists_cons_hd; assumption | apply Exists_cons_tl]].
  destruct (files !! "Cardboard_mm"%string) as [d6 |] eqn:E6; simpl;
    [| right; repeat (split; [assumption || reflexivity |]);
       repeat first [apply Exists_cons_hd; assumption | apply Exists_cons_tl]].
  repeat (split; [assumption || reflexivity |]).
  repeat constructor; rewrite ?E1, ?E2, ?E3, ?E4, ?E5, ?E6; eauto;
    by simplify_map_eq.
Qed.

(** X13: the outcomes of [reset].  With an amplitude strictly between 0
    and 1 it removes every pair and leaves the rest of the synthesizer as
    it was: the configuration, the initial amplitude included, and the
    draws; with any other amplitude it ends in an [AssertionError] and
    changes nothing. *)
Theorem reset_outcome (amp : Q) (st : state) :
  (0 < amp /\ amp < 1 ->
   exists st',
     reset amp st = (Ok tt, st') /\
     object_modes (self_ st') = ∅ /\
     (forall id2 id1, pair_count id2 id1 st' = 0%nat) /\
     config st' = config st /\ tape st' = tape st) /\
  (~ (0 < amp /\ amp < 1) -> reset amp st = (Raise AssertionError, st)).
Proof.
  unfold reset. split; intros H.
  - apply amp_in_range in H. rewrite H. eexists. split; [reflexivity |].
    split; [reflexivity |]. split; [| split; reflexivity].
    intros id2 id1. unfold pair_count, lookup_pair. simpl.
    rewrite lookup_empty. reflexivity.
  - rewrite <- amp_in_range in H. apply not_true_is_false in H.
    rewrite H. reflexivity.
Qed.

(** ** The draws of a sampling *)

Lemma while_below_tape_suffix (floor centre scale : Q) (tp : list Q) :
  forall (j : Q) (r : result Q) (tp' : list Q),
    while_below_tape floor centre scale tp j = (r, tp') ->
    exists used : list Q,
      tp = used ++ tp' /\
      (Qltb j floor = true -> forall v, r = Ok v -> (1 <= length used)%nat).
Proof.
  induction tp as [| z tp IH]; intros j r tp'; simpl;
    destruct (Qltb j floor) eqn:E; intros H.
  - inversion H; subst. exists []. split; [reflexivity |].
    intros _ v Hv. discriminate Hv.
  - inversion H; subst. exists []. split; [reflexivity |]. discriminate.
  - apply IH in H as (used & -> & _). exists (z :: used).
    split; [reflexivity |]. intros _ v _. simpl. lia.
  - inversion H; subst. exists []. split; [reflexivity |]. discriminate.
Qed.

Lemma while_below_draws (floor centre scale v : Q) (st st' : state) :
  0 < floor ->
  while_below floor centre scale 0 st = (Ok v, st') ->
  exists used : list Q,
    tape st = used ++ tape st' /\ (1 <= length used)%nat.
Proof.
  intros Hfloor. unfold while_below.
  destruct (while_below_tape floor centre scale (tape st) 0) as [r tp] eqn:E.
  intros H. inversion H; subst; clear H.
  apply while_below_tape_suffix in E as (used & Hu & Hlen).
  exists used. split; [exact Hu |].
  apply (Hlen ltac:(apply Qltb_lt; exact Hfloor) v eq_refl).
Qed.

Lemma get_object_modes_loop_draws (data : Template) (jms : list nat) :
  forall (f p t : list Q) (st st' : state) (r : list Q * list Q * list Q),
    get_object_modes_loop data jms f p t st = (Ok r, st') ->
    exists used : list Q,
      tape st = used ++ tape st' /\ (3 * length jms <= length used)%nat.
Proof.
  induction jms as [| jm jms IH]; intros f p t st st' r H.
  - simpl in H. inversion H; subst. exists []. split; [reflexivity |].
    simpl. lia.
  - simpl in H.
    step_inv H as c s1 Hc. lift_inv Hc.
    step_inv H as jf s2 Hjf.
    apply while_below_draws in Hjf as (u1 & Hu1 & Hl1); [| reflexivity].
    step_inv H as o s3 Ho. lift_inv Ho.
    step_inv H as n s4 Hn. apply normal_Ok in Hn as (z & Hz & _ & _).
    step_inv H as rr s5 Hr. lift_inv Hr.
    step_inv H as jt s6 Hjt.
    apply while_below_draws in Hjt as (u3 & Hu3 & Hl3); [| reflexivity].
    assert (Hrest : exists used, tape s6 = used ++ tape st' /\
                                 (3 * length jms <= length used)%nat).
    { destruct (jm =? 0)%nat; eapply IH; exact H. }
    destruct Hrest as (u4 & Hu4 & Hl4).
    exists (u1 ++ z :: u3 ++ u4). split.
    + rewrite Hu1, Hz, Hu3, Hu4, <- !app_assoc. simpl.
      rewrite <- !app_assoc. reflexivity.
    + rewrite !length_app. simpl. rewrite !length_app. simpl. lia.
Qed.

Lemma get_object_modes_tape (material : Material) (st st' : state)
      (m : Modes) :
  _get_object_modes material st = (Ok m, st') ->
  exists used : list Q,
    tape st = used ++ tape st' /\ (30 <= length used)%nat.
Proof.
  intros H. unfold _get_object_modes in H.
  step_inv H as self s1 Hself. inversion Hself; subst; clear Hself.
  destruct (material_data (self_ s1) !! material_key material) as [data |];
    [| discriminate].
  step_inv H as [[f p] t] s2 Hloop. inversion H; subst; clear H.
  apply get_object_modes_loop_draws in Hloop as (used & Hu & Hl).
  exists used. split; [exact Hu | exact Hl].
Qed.

(** X14: a ModeSet costs at least thirty draws, three for each of its ten
    modes, and more when a frequency or a decay time is drawn again: the
    draws that are left after [_get_object_modes] are what was there before
    without its first thirty or more.  The synthesizer object itself is not
    touched. *)
Theorem get_object_modes_draws (material : Material) (st st' : state)
        (m : Modes) :
  _get_object_modes material st = (Ok m, st') ->
  self_ st' = self_ st /\
  exists used : list Q,
    tape st = used ++ tape st' /\ (30 <= length used)%nat.
Proof.
  intros H.
  split; [exact (reads_tape_run _ _ _ _
                   (reads_tape_get_object_modes material) H) |].
  exact (get_object_modes_tape _ _ _ _ H).
Qed.

Lemma get_object_modes_draws_witness :
  exists used : list Q,
    tape st0 = used ++ tape (_get_object_modes wood_ st0).2 /\
    (30 <= length used)%nat.
Proof.
  eassert (Hrun : (_get_object_modes wood_ st0).1 = Ok _)
    by (vm_compute; reflexivity).
  destruct (get_object_modes_draws _ _ _ _ (run_eq _ _ _ Hrun))
    as (_ & used & Hu & Hl).
  exists used. split; [exact Hu | exact Hl].
Defined.

(** X15: a material without a template.  [_get_object_modes] ends in a
    [KeyError] before any draw; and a call of [get_sound] for a pair that
    has no entry, with such a material for the second object, ends in that
    [KeyError] after it has created the dictionary of [id2]: the pair still
    has no entry, no draw is taken, and the configuration is as before. *)
Theorem get_sound_unknown_material (L : MathLib) (collision : CollisionData)
        (rigidbodies : list Rigidbody) (id1 : Z) (mat1 : Material) (id2 : Z)
        (mat2 : Material) (amp2re1 : Q) (st : state) :
  material_data (self_ st) !! material_key mat2 = None ->
  lookup_pair (object_modes (self_ st)) id2 id1 = None ->
  _get_object_modes mat2 st = (Raise KeyError, st) /\
  exists st' : state,
    get_sound L collision rigidbodies id1 mat1 id2 mat2 amp2re1 st
    = (Raise KeyError, st') /\
    is_Some (object_modes (self_ st') !! id2) /\
    lookup_pair (object_modes (self_ st')) id2 id1 = None /\
    tape st' = tape st /\ config st' = config st.
Proof.
  intros Hmat Hpair. split.
  { unfold _get_object_modes. rewrite M_bind_unfold. simpl.
    rewrite Hmat. reflexivity. }
  unfold get_sound, set_object_modes_of.
  rewrite !M_bind_unfold. simpl. rewrite M_bind_unfold. simpl.
  set (om' := match object_modes (self_ st) !! id2 with
              | Some _ => object_modes (self_ st)
              | None => <[id2:=∅]> (object_modes (self_ st))
              end).
  assert (Hom : lookup_pair om' id2 id1 = None).
  { subst om'. destruct (object_modes (self_ st) !! id2) eqn:E;
      [exact Hpair | apply lookup_pair_fresh]. }
  assert (Hin : is_Some (om' !! id2)).
  { subst om'. destruct (object_modes (self_ st) !! id2) eqn:E;
      [rewrite E; eauto | rewrite lookup_insert_eq; eauto]. }
  rewrite Hom. rewrite M_bind_unfold.
  unfold _get_object_modes at 1. rewrite M_bind_unfold. simpl.
  rewrite Hmat. simpl.
  eexists. split; [reflexivity |]. simpl.
  split; [exact Hin |]. split; [exact Hom |]. split; reflexivity.
Qed.

Lemma get_sound_unknown_material_witness :
  exists st' : state,
    get_sound Approx.lib (hit 2 (-1)) bodies 2 ceramic_ 1 (MStr "rubber") 1
              st0
    = (Raise KeyError, st') /\
    is_Some (object_modes (self_ st') !! 1%Z) /\ tape st' = tape st0.
Proof.
  destruct (get_sound_unknown_material Approx.lib (hit 2 (-1)) bodies 2
              ceramic_ 1 (MStr "rubber") 1 st0)
    as (_ & st' & Hrun & Hin & _ & Htape & _);
    [vm_compute; reflexivity | reflexivity |].
  exists st'. split; [exact Hrun |]. split; [exact Hin | exact Htape].
Defined.

Lemma get_object_modes_lengths (material : Material) (st st' : state)
      (m : Modes) :
  _get_object_modes material st = (Ok m, st') ->
  length (frequencies m) = 10%nat /\ length (powers m) = 10%nat /\
  length (decay_times m) = 10%nat.
Proof.
  unfold _get_object_modes. intros H.
  step_inv H as self s1 Hself.
  destruct (material_data self !! material_key material) as [data |];
    [| discriminate].
  step_inv H as [[f p] t] s2 Hloop. inversion H; subst; clear H. simpl.
  change (seq 0 10) with (0%nat :: seq 1 9) in Hloop.
  cbn [get_object_modes_loop] in Hloop.
  step_inv Hloop as c sa Hc. step_inv Hloop as jf sb Hjf.
  step_inv Hloop as o sc Ho. step_inv Hloop as n sd Hn.
  step_inv Hloop as r se Hr. step_inv Hloop as jt sf Hjt.
  change (0 =? 0)%nat with true in Hloop. cbv iota in Hloop.
  apply get_object_modes_loop_spec in Hloop
    as (fn & pn & tn & -> & -> & -> & Lf & Lp & Lt & _);
    [| repeat constructor; discriminate].
  simpl. rewrite Lf, Lp, Lt. repeat split; reflexivity.
Qed.

(** X16: the first collision of a pair.  When [get_sound] returns a sound
    for a pair that had no entry, the entry it leaves has counted one
    collision, holds the initial amplitude of the synthesizer and, as
    reference speed, the normal speed of this collision; both of its
    ModeSets have ten modes, and the decay times of the second are the
    sampled ones shifted by [20 * log10(amp2re1)].  The signal is scaled by
    the initial amplitude (after the distortion clamp).  The call has taken
    the draws of the two samplings, sixty or more, and no other. *)
Theorem get_sound_first_collision (L : MathLib) (collision : CollisionData)
        (rigidbodies : list Rigidbody) (id1 : Z) (mat1 : Material) (id2 : Z)
        (mat2 : Material) (amp2re1 : Q) (st st' : state) (b : Base64Sound) :
  lookup_pair (object_modes (self_ st)) id2 id1 = None ->
  get_sound L collision rigidbodies id1 mat1 id2 mat2 amp2re1 st
  = (Ok (Some b), st') ->
  exists (ci' : CollisionInfo) (modes_2 : Modes) (mass : Q)
         (sound out : list Q),
    lookup_pair (object_modes (self_ st')) id2 id1 = Some ci' /\
    count ci' = 1%nat /\
    amp ci' = initial_amp (self_ st) /\
    init_speed ci' = normal_speed_of L collision rigidbodies id2 /\
    length (frequencies (obj1_modes ci')) = 10%nat /\
    length (frequencies modes_2) = 10%nat /\
    obj2_modes ci' = shifted L amp2re1 modes_2 /\
    synth_impact_modes L (obj1_modes ci') (obj2_modes ci') mass
    = Ok (Some sound) /\
    scale_sound (clamp_amp (prevent_distortion (self_ st))
                           (initial_amp (self_ st))) sound = Ok out /\
    b = new_Base64Sound out /\
    exists used : list Q,
      tape st = used ++ tape st' /\ (60 <= length used)%nat.
Proof.
  intros Hnew H.
  pose proof H as Hrun.
  apply get_sound_Some in H
    as (st1 & st2 & ci & ci2 & m1 & m2 & sound & out & a & Hset & _ & _ & _
        & Hci & Hbr & Hci2 & Hci' & Hcf & Htp & Hout & ->).
  pose proof Hset as Hset'.
  apply set_object_modes_of_Ok in Hset as (Hcf1 & ci1 & Hci1 & Hfresh).
  rewrite Hnew in Hfresh. destruct Hfresh as (Hcount & Hamp & _).
  rewrite Hci1 in Hci. injection Hci as <-.
  pose proof (rescale_config _ _ _ _ _ _ _ _ _ _ _ _ _ Hbr) as Hcf2.
  unfold rescale in Hbr. rewrite Hcount in Hbr. simpl in Hbr.
  apply first_collision_Ok in Hbr as (c & Hc & -> & Hs & Hst2 & _ & Htp2).
  rewrite Hci1 in Hc. injection Hc as <-.
  rewrite Hst2 in Hci2. injection Hci2 as <-.
  assert (Hpd : prevent_distortion (self_ st2) = prevent_distortion (self_ st)).
  { unfold config in *. congruence. }
  rewrite Hpd, Hamp in Hout.
  (* the two sampled ModeSets *)
  unfold set_object_modes_of in Hset'.
  step_inv Hset' as self0 s0 Hself. inversion Hself; subst; clear Hself.
  step_inv Hset' as [] s1 Hput. inversion Hput; subst; clear Hput.
  set (om' := match object_modes (self_ s0) !! id2 with
              | Some _ => object_modes (self_ s0)
              | None => <[id2:=∅]> (object_modes (self_ s0))
              end) in *.
  assert (Hom : lookup_pair om' id2 id1 = None).
  { subst om'. destruct (object_modes (self_ s0) !! id2) eqn:E;
      [exact Hnew | apply lookup_pair_fresh]. }
  rewrite Hom in Hset'.
  step_inv Hset' as ma sa Ha. step_inv Hset' as mb sb Hb.
  inversion Hset'; subst; clear Hset'.
  simpl in Hci1. rewrite lookup_pair_insert in Hci1. injection Hci1 as <-.
  rewrite Htp2 in Htp. simpl in Htp.
  destruct (get_object_modes_tape _ _ _ _ Ha) as (ua & Hua & Hla).
  destruct (get_object_modes_tape _ _ _ _ Hb) as (ub & Hub & Hlb).
  simpl in Hua.
  apply get_object_modes_lengths in Ha as (La & _).
  apply get_object_modes_lengths in Hb as (Lb & _).
  eexists _, mb, (Qmin m1 m2), sound, out.
  split; [exact Hci' |]. simpl.
  split; [reflexivity |]. split; [reflexivity |]. split; [reflexivity |].
  split; [exact La |]. split; [exact Lb |]. split; [reflexivity |].
  split; [exact Hs |]. split; [exact Hout |]. split; [reflexivity |].
  exists (ua ++ ub). split.
  - rewrite Hua, Hub, Htp, <- app_assoc. reflexivity.
  - rewrite length_app. lia.
Qed.

Lemma get_sound_first_collision_witness :
  exists ci' : CollisionInfo,
    lookup_pair (object_modes (self_ st1)) 1 2 = Some ci' /\
    count ci' = 1%nat /\ amp ci' = 0.5.
Proof.
  assert (Hrun : (get_sound Approx.lib (hit 2 (-1)) bodies 2 ceramic_ 1 wood_
                            1 st0).1 = Ok (Some (mkBase64Sound "AAD/PwAA" 6)))
    by (vm_compute; reflexivity).
  destruct (get_sound_first_collision Approx.lib (hit 2 (-1)) bodies 2
              ceramic_ 1 wood_ 1 st0 _ _ eq_refl (run_eq _ _ _ Hrun))
    as (ci' & _ & _ & _ & _ & Hci & Hcount & Hamp & _).
  exists ci'. split; [exact Hci |]. split; [exact Hcount | exact Hamp].
Defined.

(** ** The static methods that read the build's output *)

Section Frames.
Context {Frame Coll EnvColl Rigi : Type}.
Context (get_data_type_id : Frame -> string).
Context (new_Collision : Frame -> Coll).
Context (new_EnvironmentCollision : Frame -> EnvColl).
Context (new_Rigidbodies : Frame -> Rigi).

Local Abbreviation of_type t frames :=
  (List.filter (fun r => String.eqb (get_data_type_id r) t) frames).

Lemma get_collisions_loop_spec (frames : list Frame) :
  forall (collisions : list Coll) (environment_collisions : list EnvColl)
         (rigidbodies : option Rigi),
    get_collisions_loop get_data_type_id new_Collision
                        new_EnvironmentCollision new_Rigidbodies frames
                        collisions environment_collisions rigidbodies
    = (collisions ++ map new_Collision (of_type "coll" frames),
       environment_collisions
       ++ map new_EnvironmentCollision (of_type "enco" frames),
       match last (map new_Rigidbodies (of_type "rigi" frames)) with
       | Some r => Some r
       | None => rigidbodies
       end).
Proof.
  induction frames as [| r frames IH]; intros cs es rb; simpl.
  - rewrite !app_nil_r. reflexivity.
  - rewrite IH.
    destruct (String.eqb (get_data_type_id r) "coll");
      destruct (String.eqb (get_data_type_id r) "enco");
      destruct (String.eqb (get_data_type_id r) "rigi");
      cbn [map]; rewrite ?last_cons, <- ?app_assoc;
      destruct (last (map new_Rigidbodies (of_type "rigi" frames)));
      reflexivity.
Qed.

(** X17: [get_collisions] reads every frame of the response but the
    last: it returns the collisions and the environment collisions of the
    frames with the ids ["coll"] and ["enco"], in the order of the response,
    and the rigidbodies of the last frame with the id ["rigi"], if there is
    one.  The answer for a response of one frame, which the method treats
    apart, is the same as the loop would give; and the last frame of a
    response has no part in the result. *)
Theorem get_collisions_spec (resp : list Frame) :
  get_collisions get_data_type_id new_Collision new_EnvironmentCollision
                 new_Rigidbodies resp
  = (map new_Collision (of_type "coll" (removelast resp)),
     map new_EnvironmentCollision (of_type "enco" (removelast resp)),
     last (map new_Rigidbodies (of_type "rigi" (removelast resp)))) /\
  forall (frames : list Frame) (x y : Frame),
    get_collisions get_data_type_id new_Collision new_EnvironmentCollision
                   new_Rigidbodies (frames ++ [x])
    = get_collisions get_data_type_id new_Collision new_EnvironmentCollision
                     new_Rigidbodies (frames ++ [y]).
Proof.
  assert (Hspec : forall resp',
    get_collisions get_data_type_id new_Collision new_EnvironmentCollision
                   new_Rigidbodies resp'
    = (map new_Collision (of_type "coll" (removelast resp')),
       map new_EnvironmentCollision (of_type "enco" (removelast resp')),
       last (map new_Rigidbodies (of_type "rigi" (removelast resp'))))).
  { intros resp'. unfold get_collisions.
    destruct (Nat.eqb_spec (length resp') 1) as [E | _].
    - destruct resp' as [| x [| y resp']]; try discriminate. reflexivity.
    - rewrite get_collisions_loop_spec. simpl.
      destruct (last (map new_Rigidbodies
                          (of_type "rigi" (removelast resp'))));
        reflexivity. }
  split; [apply Hspec |].
  intros frames x y. rewrite !Hspec, !removelast_last. reflexivity.
Qed.

End Frames.

Lemma AudioMaterial_of_name_Ok (name : string) (m : AudioMaterial) :
  AudioMaterial_of_name name = Ok m -> AudioMaterial_name m = name.
Proof.
  unfold AudioMaterial_of_name.
  repeat match goal with
         | |- context [String.eqb name ?s] =>
             destruct (String.eqb_spec name s) as [-> | _];
             [intros H; injection H as <-; reflexivity |]
         end.
  discriminate.
Qed.

Section ObjectInfo.
Context (float_of_string : string -> result Q).

Lemma add_object_info_Ok (objects objects' : gmap string ObjectInfo)
      (row : CsvRow) :
  add_object_info float_of_string objects row = Ok objects' ->
  exists o : ObjectInfo,
    row_of float_of_string row o /\
    objects' = <[row_name row := o]> objects.
Proof.
  unfold add_object_info. intros H.
  apply result_bind_Ok in H as (a & Ha & H).
  apply result_bind_Ok in H as (m & Hm & H).
  apply result_bind_Ok in H as (mat & Hmat & H).
  apply result_bind_Ok in H as (b & Hb & H).
  injection H as <-. eexists. split; [| reflexivity].
  unfold row_of. simpl. apply AudioMaterial_of_name_Ok in Hmat.
  repeat split; assumption || reflexivity.
Qed.

Lemma get_object_info_rows_spec (rows : list CsvRow) :
  forall (acc objects : gmap string ObjectInfo),
    get_object_info_rows float_of_string rows acc = Ok objects ->
    forall name : string,
      (~ In name (map row_name rows) -> objects !! name = acc !! name) /\
      (forall pre row post,
          rows = pre ++ row :: post -> row_name row = name ->
          ~ In name (map row_name post) ->
          exists o, objects !! name = Some o /\
                    row_of float_of_string row o).
Proof.
  induction rows as [| row0 rows IH]; intros acc objects H name.
  - simpl in H. injection H as <-. split; [reflexivity |].
    intros [| ? ?] ? ? Hrows; discriminate Hrows.
  - simpl in H. apply result_bind_Ok in H as (acc' & Hadd & H).
    apply add_object_info_Ok in Hadd as (o0 & Ho0 & ->).
    destruct (IH _ _ H name) as [Hout Hin]. split.
    + intros Hn. simpl in Hn. rewrite Hout by tauto.
      apply lookup_insert_ne. tauto.
    + intros [| r pre] row post Hrows Hname Hpost; simpl in Hrows;
        injection Hrows as -> ->.
      * exists o0. rewrite Hout by exact Hpost. subst name.
        split; [apply lookup_insert_eq | exact Ho0].
      * eapply Hin; [reflexivity | exact Hname | exact Hpost].
Qed.

Lemma last_row (rows : list CsvRow) (name : string) :
  In name (map row_name rows) ->
  exists pre row post,
    rows = pre ++ row :: post /\ row_name row = name /\
    ~ In name (map row_name post).
Proof.
  induction rows as [| row0 rows IH]; simpl; [tauto |].
  intros Hin.
  destruct (in_dec string_dec name (map row_name rows)) as [Hrest | Hrest].
  - destruct (IH Hrest) as (pre & row & post & -> & Hn & Hp).
    exists (row0 :: pre), row, post. split; [reflexivity | tauto].
  - exists [], row0, rows. split; [reflexivity |]. tauto.
Qed.

(** X18: the dictionary that [get_object_info] returns.  Its keys are
    the names of the rows; for rows of one name the last row wins; and the
    object under a name has the fields of that row, the numbers parsed by
    [float] and the material being the member of [AudioMaterial] of that
    name. *)
Theorem get_object_info_spec (rows : list CsvRow)
        (objects : gmap string ObjectInfo) :
  get_object_info float_of_string rows = Ok objects ->
  (forall name : string,
      is_Some (objects !! name) <-> In name (map row_name rows)) /\
  (forall pre row post,
      rows = pre ++ row :: post ->
      ~ In (row_name row) (map row_name post) ->
      exists o, objects !! row_name row = Some o /\
                row_of float_of_string row o).
Proof.
  unfold get_object_info. intros H. split.
  - intros name. split.
    + intros [o Ho].
      destruct (in_dec string_dec name (map row_name rows)) as [Hin | Hout];
        [exact Hin |].
      destruct (get_object_info_rows_spec _ _ _ H name) as [Hnone _].
      rewrite Hnone, lookup_empty in Ho by exact Hout. discriminate Ho.
    + intros Hin. apply last_row in Hin as (pre & row & post & Hr & Hn & Hp).
      destruct (get_object_info_rows_spec _ _ _ H name) as [_ Hsome].
      destruct (Hsome pre row post Hr Hn Hp) as (o & Ho & _). eauto.
  - intros pre row post Hr Hp.
    destruct (get_object_info_rows_spec _ _ _ H (row_name row))
      as [_ Hsome].
    exact (Hsome pre row post Hr eq_refl Hp).
Qed.

(** X19: a row that [get_object_info] cannot parse.  When the material
    of a row is no member of [AudioMaterial], or a number of the row is
    not one for [float], there is no dictionary: the method ends in the
    exception of the first such row. *)
Theorem get_object_info_rejects (pre : list CsvRow) (row : CsvRow)
        (post : list CsvRow) (mid : gmap string ObjectInfo) (e : exn) :
  get_object_info float_of_string pre = Ok mid ->
  add_object_info float_of_string mid row = Raise e ->
  get_object_info float_of_string (pre ++ row :: post) = Raise e.
Proof.
  unfold get_object_info. generalize (∅ : gmap string ObjectInfo).
  induction pre as [| r pre IH]; intros acc Hpre Hrow; simpl in *.
  - injection Hpre as ->. rewrite Hrow. reflexivity.
  - destruct (add_object_info float_of_string acc r) as [acc' | e' |];
      simpl in *; try discriminate.
    apply IH; assumption.
Qed.

End ObjectInfo.

(** Two rows for the name ["cup"]: the object is the one of the second. *)
Lemma get_object_info_spec_witness :
  exists (objects : gmap string ObjectInfo) (o : ObjectInfo),
    get_object_info float_of_numeral cup_rows = Ok objects /\
    objects !! "cup"%string = Some o /\
    AudioMaterial_name (oi_material o) = "glass"%string.
Proof.
  eassert (Hrun : get_object_info float_of_numeral cup_rows = Ok _)
    by (vm_compute; reflexivity).
  destruct (get_object_info_spec float_of_numeral cup_rows _ Hrun)
    as [_ Hlast].
  destruct (Hlast [mkCsvRow "cup" "0.2" "1" "ceramic" "models_core.json" "0.6"]
                  (mkCsvRow "cup" "0.6" "0.2" "glass" "models_full.json" "0.2")
                  [] eq_refl ltac:(simpl; tauto))
    as (o & Ho & _ & _ & _ & Hmat & _).
  eexists _, o. split; [exact Hrun |]. split; [exact Ho | exact Hmat].
Defined.

(** A row with a material that [AudioMaterial] does not have. *)
Lemma get_object_info_rejects_witness :
  get_object_info float_of_numeral
    (cup_rows
     ++ mkCsvRow "ball" "0.2" "1" "rubber" "models_core.json" "0.6"
     :: cup_rows)
  = Raise KeyError.
Proof.
  eassert (Hrun : get_object_info float_of_numeral cup_rows = Ok _)
    by (vm_compute; reflexivity).
  apply (get_object_info_rejects float_of_numeral cup_rows _ cup_rows _
                                 KeyError Hrun).
  vm_compute. reflexivity.
Defined.

(** ** The snapshot of the rigidbodies *)

Lemma last_index_absent (rigidbodies : list Rigidbody) (id : Z) :
  forall (k : nat) (found : option nat),
    ~ In id (map rb_id rigidbodies) ->
    last_index rigidbodies id k found = found.
Proof.
  induction rigidbodies as [| rb rest IH]; intros k found Hout;
    [reflexivity |].
  simpl in *. destruct (Z.eqb_spec (rb_id rb) id) as [E | _]; [tauto |].
  apply IH. tauto.
Qed.

Lemma last_index_app (l1 l2 : list Rigidbody) (id : Z) :
  forall (k : nat) (found : option nat),
    last_index (l1 ++ l2) id k found
    = last_index l2 id (k + length l1) (last_index l1 id k found).
Proof.
  induction l1 as [| rb l1 IH]; intros k found; simpl.
  - rewrite Nat.add_0_r. reflexivity.
  - rewrite IH. f_equal. lia.
Qed.

(** X20: where [get_sound] reads a body in the snapshot.  The loop that
    looks for the index of an id does not stop at a match, so the mass is
    the mass of the last body with that id; the loop that looks for the
    velocity (for an environment collision) stops at the first. *)
Theorem rigidbody_lookups (pre post : list Rigidbody) (rb : Rigidbody) :
  (~ In (rb_id rb) (map rb_id post) ->
   last_index (pre ++ rb :: post) (rb_id rb) 0 None = Some (length pre) /\
   mass_2 (pre ++ rb :: post) (rb_id rb) = Ok (rb_mass rb)) /\
  (~ In (rb_id rb) (map rb_id pre) ->
   first_velocity (pre ++ rb :: post) (rb_id rb) = rb_velocity rb).
Proof.
  split.
  - intros Hpost.
    assert (E : last_index (pre ++ rb :: post) (rb_id rb) 0 None
                = Some (length pre)).
    { rewrite last_index_app. simpl. rewrite Z.eqb_refl.
      apply last_index_absent. exact Hpost. }
    split; [exact E |].
    unfold mass_2. rewrite E. unfold get_mass, index.
    rewrite list_lookup_middle by reflexivity. reflexivity.
  - intros Hpre. induction pre as [| r pre IH]; simpl in *.
    + rewrite Z.eqb_refl. reflexivity.
    + destruct (Z.eqb_spec (rb_id r) (rb_id rb)) as [E | _]; [tauto |].
      apply IH. tauto.
Qed.

(** ** Sampling without noise *)

Lemma while_below_zero (floor centre scale : Q) (st : state) (tp : list Q) :
  0 < floor -> floor <= centre ->
  tape st = 0 :: tp ->
  while_below floor centre scale 0 st
  = (Ok (centre + (0 + scale * 0)), mkState (self_ st) tp).
Proof.
  intros Hfloor Hc Htape. unfold while_below. rewrite Htape. simpl.
  apply Qltb_lt in Hfloor. rewrite Hfloor.
  assert (E : Qltb (centre + (0 + scale * 0)) floor = false)
    by (apply Qltb_ge; lra).
  destruct tp; simpl; rewrite E; reflexivity.
Qed.

Lemma lift_index_run {A} (l : list A) (i : nat) (x : A) (st : state) :
  l !! i = Some x -> lift (index l i) st = (Ok x, st).
Proof. intros H. unfold lift, index. rewrite H. reflexivity. Qed.

Lemma normal_zero (loc scale : Q) (st : state) (tp : list Q) :
  tape st = 0 :: tp ->
  normal loc scale st = (Ok (loc + scale * 0), mkState (self_ st) tp).
Proof. intros H. unfold normal. rewrite H. reflexivity. Qed.

(** One round of the loop of [_get_object_modes] on three draws of 0. *)
Lemma get_object_modes_round (data : Template) (jm : nat) (jms : list nat)
      (c o r : Q) (f p t : list Q) (st : state) (tp : list Q) :
  template_entry data jm c o r ->
  tape st = 0 :: 0 :: 0 :: tp ->
  exists x y z : Q,
    x == c /\ y == o /\ z == r * 1000 /\
    get_object_modes_loop data (jm :: jms) f p t st
    = (if (jm =? 0)%nat
       then get_object_modes_loop data jms [x] [y] [z]
       else get_object_modes_loop data jms (f ++ [x]) (p ++ [y]) (t ++ [z]))
        (mkState (self_ st) tp).
Proof.
  intros (Hcf & Hop & Hrt & Hc & Hr) Htape.
  exists (c + (0 + c / 10 * 0)), (o + (0 + 10 * 0)),
         ((r + (0 + r / 10 * 0)) * 1000).
  split; [ring |]. split; [ring |]. split; [ring |].
  cbn [get_object_modes_loop].
  rewrite (M_bind_run _ _ _ _ _ (lift_index_run _ _ _ st Hcf)).
  rewrite (M_bind_run _ _ _ _ _
             (while_below_zero 20 c (c / 10) st _ ltac:(reflexivity) Hc
                               Htape)).
  rewrite (M_bind_run _ _ _ _ _ (lift_index_run _ _ _ _ Hop)).
  rewrite (M_bind_run _ _ _ _ _ (normal_zero 0 10 (mkState (self_ st) (0 :: 0 :: tp))
                          (0 :: tp) eq_refl)).
  rewrite (M_bind_run _ _ _ _ _ (lift_index_run _ _ _ _ Hrt)).
  assert (Hr' : 0.001 <= r) by exact Hr.
  rewrite (M_bind_run _ _ _ _ _
             (while_below_zero 0.001 r (r / 10)
                               (mkState (self_ st) (0 :: tp)) tp
                               ltac:(reflexivity) Hr' eq_refl)).
  destruct (jm =? 0)%nat; reflexivity.
Qed.

Lemma get_object_modes_loop_without_noise (data : Template)
      (jms : list nat) :
  Forall (fun jm => jm <> 0%nat /\
                    exists c o r, template_entry data jm c o r) jms ->
  forall (f p t : list Q) (st : state) (rest : list Q),
    tape st = replicate (3 * length jms) 0 ++ rest ->
    exists fn pn tn : list Q,
      get_object_modes_loop data jms f p t st
      = (Ok (f ++ fn, p ++ pn, t ++ tn), mkState (self_ st) rest) /\
      forall i jm, jms !! i = Some jm ->
        exists c o r x y z,
          template_entry data jm c o r /\
          fn !! i = Some x /\ pn !! i = Some y /\ tn !! i = Some z /\
          x == c /\ y == o /\ z == r * 1000.
Proof.
  induction jms as [| jm jms IH]; intros Hall f p t st rest Htape.
  - simpl in Htape. exists [], [], []. rewrite !app_nil_r.
    split; [| intros i jm Hi; discriminate Hi].
    simpl. unfold mret, M_ret. rewrite <- Htape. destruct st; reflexivity.
  - inversion Hall as [| ? ? [Hjm (c & o & r & He)] Hrest]; subst.
    replace (3 * length (jm :: jms))%nat with (3 + 3 * length jms)%nat
      in Htape by (simpl; lia).
    cbn [Nat.add replicate app] in Htape.
    destruct (get_object_modes_round data jm jms c o r f p t st _ He Htape)
      as (x & y & z & Hx & Hy & Hz & ->).
    apply Nat.eqb_neq in Hjm. rewrite Hjm.
    destruct (IH Hrest (f ++ [x]) (p ++ [y]) (t ++ [z])
                 (mkState (self_ st)
                          (replicate (3 * length jms) 0 ++ rest)) rest
                 eq_refl)
      as (fn & pn & tn & -> & Hat).
    exists (x :: fn), (y :: pn), (z :: tn).
    rewrite <- !app_assoc. split; [reflexivity |].
    intros [| i] jm' Hi; simpl in Hi.
    + injection Hi as <-. exists c, o, r, x, y, z.
      split; [exact He |]. repeat split; assumption || reflexivity.
    + exact (Hat i jm' Hi).
Qed.

(** X21: sampling without noise.  On a tape that starts with thirty draws
    of 0, and for a template whose ten centre frequencies are at least
    20 Hz and whose ten decay times are at least 0.001 s,
    [_get_object_modes] returns, takes exactly those thirty draws, and the
    ModeSet is the template: its frequencies and onset powers, and its decay
    times in milliseconds. *)
Theorem get_object_modes_without_noise (material : Material) (st : state)
        (data : Template) (rest : list Q) :
  material_data (self_ st) !! material_key material = Some data ->
  (forall jm, (jm < 10)%nat -> exists c o r, template_entry data jm c o r) ->
  tape st = replicate 30 0 ++ rest ->
  exists m : Modes,
    _get_object_modes material st = (Ok m, mkState (self_ st) rest) /\
    forall jm, (jm < 10)%nat ->
      exists c o r f p t,
        template_entry data jm c o r /\ mode_at m jm f p t /\
        f == c /\ p == o /\ t == r * 1000.
Proof.
  intros Hdata Hentries Htape.
  destruct (Hentries 0%nat ltac:(lia)) as (c0 & o0 & r0 & He0).
  change (replicate 30 0) with (0 :: 0 :: 0 :: replicate (3 * 9) 0) in Htape.
  cbn [app] in Htape.
  destruct (get_object_modes_round data 0 (seq 1 9) c0 o0 r0 [-1] [-1] [-1]
                                   st _ He0 Htape)
    as (x & y & z & Hx & Hy & Hz & Hround).
  change (0 =? 0)%nat with true in Hround. cbv iota in Hround.
  destruct (get_object_modes_loop_without_noise data (seq 1 9)) with
    (f := [x]) (p := [y]) (t := [z])
    (st := mkState (self_ st) (replicate (3 * 9) 0 ++ rest)) (rest := rest)
    as (fn & pn & tn & Hloop & Hat).
  { apply List.Forall_forall. intros jm Hjm. apply in_seq in Hjm.
    split; [lia | apply Hentries; lia]. }
  { reflexivity. }
  rewrite Hloop in Hround. cbn [self_] in Hround.
  exists (mkModes ([x] ++ fn) ([y] ++ pn) ([z] ++ tn) None). split.
  { unfold _get_object_modes.
    rewrite (M_bind_run get_self _ st st (self_ st) eq_refl), Hdata.
    change (seq 0 10) with (0%nat :: seq 1 9).
    rewrite (M_bind_run _ _ _ _ _ Hround). reflexivity. }
  intros [| i] Hjm.
  - exists c0, o0, r0, x, y, z. split; [exact He0 |].
    unfold mode_at. simpl. repeat split; assumption || reflexivity.
  - destruct (Hat i (S i)) as (c & o & r & f & p & t & He & Hf & Hp & Ht & H).
    { apply lookup_seq. split; [reflexivity | lia]. }
    exists c, o, r, f, p, t. split; [exact He |].
    unfold mode_at. simpl. repeat split; assumption || apply H.
Qed.

Lemma get_object_modes_without_noise_witness :
  exists m : Modes,
    _get_object_modes wood_ st0
    = (Ok m, mkState (self_ st0) (replicate 30 0 ++ replicate 20 1)) /\
    exists f : Q, frequencies m !! 0%nat = Some f /\ f == 440.
Proof.
  destruct (get_object_modes_without_noise wood_ st0 template
              (replicate 30 0 ++ replicate 20 1))
    as (m & Hrun & Hat).
  - vm_compute. reflexivity.
  - intros jm Hjm.
    do 10 (destruct jm as [| jm];
           [do 3 eexists; repeat split; try reflexivity; discriminate |]).
    lia.
  - reflexivity.
  - exists m. split; [exact Hrun |].
    destruct (Hat 0%nat ltac:(lia))
      as (c & o & r & f & p & t & (Hcf & _) & (Hf & _) & Hfc & _).
    exists f. split; [exact Hf |].
    injection Hcf as <-. exact Hfc.
Defined.

(** ** The draws of a repeat collision *)

(** X22: a repeat collision that returns a sound takes exactly twice as
    many draws as the first stored ModeSet has onset powers: both noise
    vectors have the length of the powers of the first ModeSet. *)
Theorem repeat_collision_draws (L : MathLib) (collision : CollisionData)
        (rigidbodies : list Rigidbody) (id1 : Z) (mat1 : Material) (id2 : Z)
        (mat2 : Material) (amp2re1 : Q) (st st' : state) (ci : CollisionInfo)
        (b : Base64Sound) :
  lookup_pair (object_modes (self_ st)) id2 id1 = Some ci ->
  (0 < count ci)%nat ->
  get_sound L collision rigidbodies id1 mat1 id2 mat2 amp2re1 st
  = (Ok (Some b), st') ->
  exists used : list Q,
    tape st = used ++ tape st' /\
    length used = (2 * length (powers (obj1_modes ci)))%nat.
Proof.
  intros Hci Hcount H.
  destruct (get_sound_repeat _ _ _ _ _ _ _ _ _ _ _ _ Hci Hcount H)
    as (m1 & m2 & zs1 & zs2 & p1 & p2 & sound & out & _ & _ & Ht & Hl1 & Hl2
        & Hp1 & _).
  rewrite np_add_same_length in Hp1 by (rewrite length_map; lia).
  injection Hp1 as <-.
  rewrite length_zip_with, length_map in Hl2.
  exists (zs1 ++ zs2). split; [rewrite <- app_assoc; exact Ht |].
  rewrite length_app. lia.
Qed.

Lemma repeat_collision_draws_witness :
  exists used : list Q,
    tape st1
    = used ++ tape (get_sound Approx.lib (hit 1 (-1)) bodies 2 ceramic_ 1
                              wood_ 1 st1).2 /\
    length used = 20%nat.
Proof.
  eassert (Hci : lookup_pair (object_modes (self_ st1)) 1 2 = Some _)
    by (vm_compute; reflexivity).
  eassert (Hrun : (get_sound Approx.lib (hit 1 (-1)) bodies 2 ceramic_ 1 wood_
                             1 st1).1 = Ok (Some _))
    by (vm_compute; reflexivity).
  destruct (repeat_collision_draws
              Approx.lib (hit 1 (-1)) bodies 2 ceramic_ 1 wood_ 1 st1 _ _ _
              Hci ltac:(vm_compute; lia) (run_eq _ _ _ Hrun))
    as (used & Hu & Hl).
  exists used. split; [exact Hu | exact Hl].
Defined.

(** ** A call that returns no sound *)

Lemma set_object_modes_of_new (id1 : Z) (mat1 : Material) (id2 : Z)
      (mat2 : Material) (st st1 : state) (u : unit) :
  lookup_pair (object_modes (self_ st)) id2 id1 = None ->
  set_object_modes_of id1 mat1 id2 mat2 st = (Ok u, st1) ->
  exists (ma mb : Modes) (used : list Q),
    lookup_pair (object_modes (self_ st1)) id2 id1
    = Some (new_CollisionInfo ma mb (initial_amp (self_ st))) /\
    length (frequencies ma) = 10%nat /\ length (frequencies mb) = 10%nat /\
    tape st = used ++ tape st1 /\ (60 <= length used)%nat.
Proof.
  intros Hnew H. unfold set_object_modes_of in H.
  step_inv H as self0 s0 Hself. inversion Hself; subst; clear Hself.
  step_inv H as [] s1 Hput. inversion Hput; subst; clear Hput.
  set (om' := match object_modes (self_ s0) !! id2 with
              | Some _ => object_modes (self_ s0)
              | None => <[id2:=∅]> (object_modes (self_ s0))
              end) in *.
  assert (Hom : lookup_pair om' id2 id1 = None).
  { subst om'. destruct (object_modes (self_ s0) !! id2) eqn:E;
      [exact Hnew | apply lookup_pair_fresh]. }
  rewrite Hom in H.
  step_inv H as ma sa Ha. step_inv H as mb sb Hb.
  inversion H; subst; clear H.
  destruct (get_object_modes_tape _ _ _ _ Ha) as (ua & Hua & Hla).
  destruct (get_object_modes_tape _ _ _ _ Hb) as (ub & Hub & Hlb).
  simpl in Hua.
  apply get_object_modes_lengths in Ha as (La & _).
  apply get_object_modes_lengths in Hb as (Lb & _).
  exists ma, mb, (ua ++ ub). simpl.
  split; [apply lookup_pair_insert |].
  split; [exact La |]. split; [exact Lb |]. split.
  - rewrite Hua, Hub, <- app_assoc. reflexivity.
  - rewrite length_app. lia.
Qed.

(** X23: the call that returns no sound because a body of a body-body
    collision is not in the snapshot is not without effect.  When the pair
    had no entry, the two ModeSets have been sampled before the bodies are
    looked up: the pair now has an entry that has counted no collision,
    with the initial amplitude and the default reference speed 1, and the
    sixty or more draws of the samplings are spent. *)
Theorem get_sound_unresolved_entry (L : MathLib) (collision : CollisionData)
        (rigidbodies : list Rigidbody) (id1 : Z) (mat1 : Material) (id2 : Z)
        (mat2 : Material) (amp2re1 : Q) (st st' : state)
        (r : option Base64Sound) :
  unresolved collision rigidbodies id1 id2 = true ->
  lookup_pair (object_modes (self_ st)) id2 id1 = None ->
  get_sound L collision rigidbodies id1 mat1 id2 mat2 amp2re1 st
  = (Ok r, st') ->
  r = None /\
  exists (ci : CollisionInfo) (used : list Q),
    lookup_pair (object_modes (self_ st')) id2 id1 = Some ci /\
    count ci = 0%nat /\ amp ci = initial_amp (self_ st) /\
    init_speed ci = 1 /\
    length (frequencies (obj1_modes ci)) = 10%nat /\
    length (frequencies (obj2_modes ci)) = 10%nat /\
    tape st = used ++ tape st' /\ (60 <= length used)%nat.
Proof.
  intros Hu Hnew H. unfold get_sound in H.
  step_inv H as [] st1 Hset.
  fold (unresolved collision rigidbodies id1 id2) in H. rewrite Hu in H.
  inversion H; subst; clear H. split; [reflexivity |].
  destruct (set_object_modes_of_new _ _ _ _ _ _ _ Hnew Hset)
    as (ma & mb & used & Hci & La & Lb & Ht & Hl).
  eexists _, used. split; [exact Hci |]. simpl.
  repeat split; assumption || reflexivity.
Qed.

Lemma get_sound_unresolved_entry_witness :
  exists ci : CollisionInfo,
    lookup_pair
      (object_modes
         (self_ (get_sound Approx.lib (hit 2 (-1)) bodies 7 ceramic_ 1 wood_
                           1 st0).2)) 1 7 = Some ci /\
    count ci = 0%nat.
Proof.
  assert (Hrun : (get_sound Approx.lib (hit 2 (-1)) bodies 7 ceramic_ 1 wood_
                            1 st0).1 = Ok None)
    by (vm_compute; reflexivity).
  destruct (get_sound_unresolved_entry
              Approx.lib (hit 2 (-1)) bodies 7 ceramic_ 1 wood_ 1 st0 _ _
              eq_refl eq_refl (run_eq _ _ _ Hrun))
    as (_ & ci & used & Hci & Hcount & _).
  exists ci. split; [exact Hci | exact Hcount].
Defined.
